(** * The augmentation engine of src/App.tsx

    A shallow embedding of [applyAugmentation] and [handleGenerate]
    (src/App.tsx, lines 81-236) and the properties the specification
    states about them, followed by the component's other handlers (the
    preview, the upload, the sliders, the archive) and further properties
    of the code.

    Modelling conventions.
    - A JavaScript [number] is an exact rational ([Q]): every double is a
      rational, decimal literals such as [0.85] are taken at their decimal
      value and arithmetic does not round.  [Math.pow] cannot be exact on
      rationals and is a field of the host.
    - The browser is a [Host]: the successive results of [Math.random()]
      and of [new Date().getTime()] are two tapes read through a cursor,
      and the 2D-context rasteriser maps the list of context calls issued
      on a canvas to the bytes [getImageData] returns.
    - A canvas is its size and the list of context calls issued on it.
    - Code that draws, reads the clock or can throw runs in a state and
      exception monad [M]. *)

From Stdlib Require Import ZArith QArith Qround Lqa Lia String Ascii.
From stdpp Require Import base list pretty strings gmap.

Local Open Scope Q_scope.

(** ** Numbers *)

(** [x > y] on JavaScript numbers. *)
Definition Qgtb (x y : Q) : bool := negb (Qle_bool x y).

Definition Math_min (x y : Q) : Q := if Qle_bool x y then x else y.
Definition Math_max (x y : Q) : Q := if Qle_bool x y then y else x.
Definition Math_floor (x : Q) : Z := Qfloor x.

(** [Math.PI], the double nearest to pi. *)
Definition Math_PI : Q := 884279719003555 # 281474976710656.

Definition Qnat (n : nat) : Q := inject_Z (Z.of_nat n).

(** The conversion a [Uint8ClampedArray] applies on every store: clamp to
    [0, 255] and round to the nearest integer, ties to even. *)
Definition ToUint8Clamp (x : Q) : Z :=
  if Qle_bool x 0 then 0%Z
  else if Qle_bool 255 x then 255%Z
  else
    let f := Qfloor x in
    let d := x - inject_Z f in
    if Qgtb 0.5 d then f
    else if Qgtb d 0.5 then (f + 1)%Z
    else if Z.even f then f else (f + 1)%Z.

(** ** Types (src/App.tsx, lines 25-35) *)

Record AugmentationParams := {
  harshness : Q;
  lightAging : Q;
  dirtiness : Q
}.

(** A decoded [HTMLImageElement]. *)
Record Image := {
  img_width : nat;
  img_height : nat;
  img_bitmap : list Z
}.

Record RGBA := { red : Q; green : Q; blue : Q; alpha : Q }.

Record ColorStop := { stop_offset : Q; stop_color : RGBA }.

Inductive Style :=
| Color (c : RGBA)
| LinearGradient (x0 y0 x1 y1 : Q) (stops : list ColorStop)
| RadialGradient (x0 y0 r0 x1 y1 r1 : Q) (stops : list ColorStop).

(** [grad.addColorStop(offset, color)]. *)
Definition addColorStop (g : Style) (offset : Q) (c : RGBA) : Style :=
  let st := {| stop_offset := offset; stop_color := c |} in
  match g with
  | Color c' => Color c'
  | LinearGradient x0 y0 x1 y1 stops => LinearGradient x0 y0 x1 y1 (stops ++ [st])
  | RadialGradient x0 y0 r0 x1 y1 r1 stops =>
      RadialGradient x0 y0 r0 x1 y1 r1 (stops ++ [st])
  end.

(** The calls [applyAugmentation] issues on its 2D context. *)
Inductive DrawOp :=
| Save
| Restore
| Translate (x y : Q)
| Transform (a b c d e f : Q)
| Rotate (angle : Q)
| DrawImage (img : Image) (dx dy : Q)
| PutImageData (data : list Z) (dx dy : Q)
| SetFillStyle (s : Style)
| SetStrokeStyle (s : Style)
| SetLineWidth (w : Q)
| FillRect (x y w h : Q)
| BeginPath
| MoveTo (x y : Q)
| LineTo (x y : Q)
| Stroke
| Arc (x y radius startAngle endAngle : Q)
| Rect (x y w h : Q)
| Fill.

Record Canvas := {
  width : nat;
  height : nat;
  ops : list DrawOp
}.

(** [canvas.toDataURL('image/jpeg', quality)]: the encoder is outside the
    source; the data URL is kept as what was encoded. *)
Record DataURL := {
  encoded : Canvas;
  quality_of : Q
}.

Record GeneratedImage := {
  id : nat;
  dataUrl : DataURL;
  name : string
}.

(** ** The host *)

Record Host := {
  Math_pow : Q -> Q -> Q;
  random_tape : nat -> Q;
  clock_tape : nat -> Z;
  rasterize : nat -> nat -> list DrawOp -> nat -> Z
}.

(** [Math.random()] returns a number in [0, 1). *)
Definition tape_in_range (h : Host) : Prop :=
  forall n, 0 <= random_tape h n /\ random_tape h n < 1.

(** The state of the React component that [handleGenerate] reads and
    writes (src/App.tsx, lines 41-50). *)
Record AppState := {
  sourceImage : option Image;
  isProcessing : bool;
  results : list GeneratedImage;
  params : AugmentationParams
}.

Record State := {
  rand_pos : nat;
  clock_pos : nat;
  canvas : Canvas;
  ui : AppState
}.

Inductive DOMException := IndexSizeError.

Inductive outcome (A : Type) :=
| Ok (a : A) (s : State)
| Throw (e : DOMException) (s : State).
Arguments Ok {A} a s.
Arguments Throw {A} e s.

Definition M (A : Type) : Type := State -> outcome A.

Definition ret {A} (a : A) : M A := fun s => Ok a s.

Definition bind {A B} (m : M A) (k : A -> M B) : M B :=
  fun s => match m s with
           | Ok a s' => k a s'
           | Throw e s' => Throw e s'
           end.

#[global] Instance M_ret : MRet M := @ret.
#[global] Instance M_bind : MBind M := fun A B k m => bind m k.

Definition final_state {A} (o : outcome A) : State :=
  match o with Ok _ s => s | Throw _ s => s end.

Definition with_canvas (c : Canvas) (s : State) : State :=
  {| rand_pos := rand_pos s; clock_pos := clock_pos s; canvas := c; ui := ui s |}.

Definition with_ui (a : AppState) (s : State) : State :=
  {| rand_pos := rand_pos s; clock_pos := clock_pos s; canvas := canvas s; ui := a |}.

Arguments with_canvas _ _ /.
Arguments with_ui _ _ /.

(** --- Constants --- (src/App.tsx, line 38) *)
Definition AUGMENTATION_COUNT : nat := 20.

Section Engine.

Variable host : Host.

(** *** Host primitives *)

Definition Math_random : M Q :=
  fun s => Ok (random_tape host (rand_pos s))
              {| rand_pos := S (rand_pos s); clock_pos := clock_pos s;
                 canvas := canvas s; ui := ui s |}.

(** [new Date().getTime()]. *)
Definition Date_getTime : M Z :=
  fun s => Ok (clock_tape host (clock_pos s))
              {| rand_pos := rand_pos s; clock_pos := S (clock_pos s);
                 canvas := canvas s; ui := ui s |}.

(** [document.createElement('canvas')]: a fresh 300 x 150 canvas. *)
Definition createCanvas : M unit :=
  fun s => Ok tt (with_canvas {| width := 300; height := 150; ops := [] |} s).

(** Assigning [canvas.width] or [canvas.height] resets the bitmap. *)
Definition set_width (w : nat) : M unit :=
  fun s => Ok tt (with_canvas {| width := w; height := height (canvas s); ops := [] |} s).

Definition set_height (h : nat) : M unit :=
  fun s => Ok tt (with_canvas {| width := width (canvas s); height := h; ops := [] |} s).

Definition canvas_width : M nat := fun s => Ok (width (canvas s)) s.
Definition canvas_height : M nat := fun s => Ok (height (canvas s)) s.

(** A context call: it is appended to the calls the canvas has seen. *)
Definition ctx (op : DrawOp) : M unit :=
  fun s => Ok tt (with_canvas {| width := width (canvas s); height := height (canvas s);
                                 ops := ops (canvas s) ++ [op] |} s).

(** [ctx.getImageData(0, 0, sw, sh).data]: [4 * sw * sh] bytes read from
    the bitmap; the call throws [IndexSizeError] when [sw] or [sh] is 0. *)
Definition bitmap_bytes (c : Canvas) (sw sh : nat) : list Z :=
  map (rasterize host (width c) (height c) (ops c)) (seq 0 (4 * sw * sh)).

Definition getImageData (sw sh : nat) : M (list Z) :=
  fun s =>
    if (sw =? 0)%nat || (sh =? 0)%nat then Throw IndexSizeError s
    else Ok (bitmap_bytes (canvas s) sw sh) s.

Definition toDataURL (quality : Q) : M DataURL :=
  fun s => Ok {| encoded := canvas s; quality_of := quality |} s.

(** *** A. Geometric and perspective diversity (lines 92-107) *)

Record Geometry := {
  rot : Q; scl : Q; skewX : Q; skewY : Q; tx : Q; ty : Q; flipH : bool
}.

Definition geometric_draws (index : nat) : M Geometry :=
  u0 ← Math_random;
  let rot := (u0 - 0.5) * 40 * (if (index =? 0)%nat then 0 else 1) in
  u1 ← Math_random;
  let scl := 0.85 + u1 * 0.3 in
  u2 ← Math_random;
  let skewX := (u2 - 0.5) * 0.2 in
  u3 ← Math_random;
  let skewY := (u3 - 0.5) * 0.2 in
  u4 ← Math_random;
  w ← canvas_width;
  let tx := (u4 - 0.5) * (Qnat w * 0.15) in
  u5 ← Math_random;
  h ← canvas_height;
  let ty := (u5 - 0.5) * (Qnat h * 0.15) in
  u6 ← Math_random;
  let flipH := Qgtb u6 0.5 in
  mret {| rot := rot; scl := scl; skewX := skewX; skewY := skewY;
         tx := tx; ty := ty; flipH := flipH |}.

(** The stage returns the parameters it drew, for the statements below;
    the source keeps them in local constants. *)
Definition geometric_stage (img : Image) (index : nat) : M Geometry :=
  g ← geometric_draws index;
  ctx Save;;
  w ← canvas_width;
  h ← canvas_height;
  ctx (Translate (Qnat w / 2 + tx g) (Qnat h / 2 + ty g));;
  ctx (Transform (scl g * (if flipH g then -1 else 1)) (skewX g) (skewY g) (scl g) 0 0);;
  ctx (Rotate ((rot g * Math_PI) / 180));;
  w ← canvas_width;
  h ← canvas_height;
  ctx (DrawImage img (- Qnat w / 2) (- Qnat h / 2));;
  ctx Restore;;
  mret g.

(** A counted [for] loop: [n] iterations, the loop variable starting at
    [i] and incremented after each one. *)
Fixpoint for_loop {A} (n i : nat) (body : nat -> A -> M A) (acc : A) : M A :=
  match n with
  | O => mret acc
  | S n' => acc' ← body i acc; for_loop n' (S i) body acc'
  end.

(** *** B. Pixel-level dynamics (lines 109-144) *)

Record Photo := {
  pBrightness : Q; pContrast : Q; pGamma : Q; hueRotation : Q;
  rGain : Q; gGain : Q; bGain : Q
}.

Definition photometric_draws (p : AugmentationParams) : M Photo :=
  u0 ← Math_random;
  let pBrightness := (lightAging p / 100) * (u0 - 0.5) * 150 in
  u1 ← Math_random;
  let pContrast := 0.5 + u1 * (lightAging p / 50) in
  u2 ← Math_random;
  let pGamma := 0.5 + u2 * (lightAging p / 50) in
  u3 ← Math_random;
  let hueRotation := (lightAging p / 100) * 360 * u3 in
  u4 ← Math_random;
  let rGain := 0.8 + u4 * 0.4 in
  u5 ← Math_random;
  let gGain := 0.8 + u5 * 0.4 in
  u6 ← Math_random;
  let bGain := 0.8 + u6 * 0.4 in
  mret {| pBrightness := pBrightness; pContrast := pContrast; pGamma := pGamma;
          hueRotation := hueRotation; rGain := rGain; gGain := gGain; bGain := bGain |}.

(** The value assigned to [data[i + c]] (lines 126-135), before the
    array's own conversion. *)
Definition adjust_channel (ph : Photo) (c : nat) (v : Z) : Q :=
  let val := inject_Z v / 255 in
  let val := Math_pow host val (pGamma ph) in
  let val := if (c =? 0)%nat then val * rGain ph else val in
  let val := if (c =? 1)%nat then val * gGain ph else val in
  let val := if (c =? 2)%nat then val * bGain ph else val in
  let val := (val - 0.5) * pContrast ph + 0.5 + (pBrightness ph / 255) in
  Math_min 255 (Math_max 0 (val * 255)).

(** [data[j] = x] on a [Uint8ClampedArray]; a store past the end does
    nothing. *)
Definition store (data : list Z) (j : nat) (x : Q) : list Z :=
  <[j := ToUint8Clamp x]> data.

(** One iteration of the inner loop: [data[i + c]] is read, remapped and
    stored; a read past the end yields [undefined] and its store is
    dropped. *)
Definition adjust_byte (ph : Photo) (i : nat) (d : list Z) (c : nat) : list Z :=
  match d !! (i + c)%nat with
  | Some v => store d (i + c) (adjust_channel ph c v)
  | None => d
  end.

(** The inner loop over [c = 0, 1, 2] at byte offset [i]. *)
Definition adjust_pixel (ph : Photo) (i : nat) (data : list Z) : list Z :=
  fold_left (adjust_byte ph i) (seq 0 3) data.

(** Salt and pepper noise (lines 138-142). *)
Definition noise_fires (p : AugmentationParams) (u : Q) : bool :=
  Qgtb u (1 - (harshness p / 5000)).

Definition noise_color (v : Q) : Q := if Qgtb v 0.5 then 255 else 0.

Definition salt_pepper (p : AugmentationParams) (i : nat) (data : list Z) : M (list Z) :=
  u ← Math_random;
  if noise_fires p u then
    v ← Math_random;
    let noiseColor := noise_color v in
    mret (store (store (store data (i + 2) noiseColor) (i + 1) noiseColor) i noiseColor)
  else mret data.

(** The body of the loop [for (let i = 0; i < data.length; i += 4)] at
    its [k]-th iteration, where [i = 4 * k]. *)
Definition pixel_body (p : AugmentationParams) (ph : Photo) (k : nat) (data : list Z)
  : M (list Z) :=
  salt_pepper p (4 * k) (adjust_pixel ph (4 * k) data).

(** The number of iterations of that loop. *)
Definition pixel_count (data : list Z) : nat := (length data + 3) / 4.

(** The pixels are read back, remapped in place and written back. *)
Definition pixel_stage (p : AugmentationParams) : M unit :=
  w ← canvas_width;
  h ← canvas_height;
  data ← getImageData w h;
  ph ← photometric_draws p;
  data' ← for_loop (pixel_count data) 0 (pixel_body p ph) data;
  ctx (PutImageData data' 0 0).

(** *** C. Environmental overlays (lines 146-182) *)

Definition rgba (r g b a : Q) : RGBA := {| red := r; green := g; blue := b; alpha := a |}.

(** [p.harshness > 50 && Math.random() > 0.5]: the draw is made only when
    the threshold holds. *)
Definition gate (knob threshold flip : Q) : M bool :=
  if Qgtb knob threshold then (u ← Math_random; mret (Qgtb u flip)) else mret false.

Definition fog_gate (p : AugmentationParams) : M bool := gate (harshness p) 50 0.5.
Definition rain_gate (p : AugmentationParams) : M bool := gate (harshness p) 70 0.6.
Definition glare_gate (p : AugmentationParams) : M bool := gate (lightAging p) 60 0.7.

Definition fog (p : AugmentationParams) : M unit :=
  h ← canvas_height;
  let fogGrad := LinearGradient 0 0 0 (Qnat h) [] in
  u ← Math_random;
  let fogOpacity := (harshness p / 200) * u in
  let fogGrad := addColorStop fogGrad 0 (rgba 200 200 200 fogOpacity) in
  let fogGrad := addColorStop fogGrad 1 (rgba 255 255 255 (fogOpacity * 0.2)) in
  ctx (SetFillStyle fogGrad);;
  w ← canvas_width;
  h ← canvas_height;
  ctx (FillRect 0 0 (Qnat w) (Qnat h)).

Definition rain_streak (j : nat) (_ : unit) : M unit :=
  u0 ← Math_random;
  w ← canvas_width;
  let rx := u0 * Qnat w in
  u1 ← Math_random;
  h ← canvas_height;
  let ry := u1 * Qnat h in
  u2 ← Math_random;
  let rlen := 10 + u2 * 30 in
  ctx BeginPath;;
  ctx (MoveTo rx ry);;
  ctx (LineTo (rx + rlen * 0.1) (ry + rlen));;
  ctx Stroke.

(** The iterations of [for (let j = 0; j < count; j++)] for a real
    [count]. *)
Definition iterations (count : Q) : nat := Z.to_nat (Qceiling count).

Definition rain : M unit :=
  ctx (SetStrokeStyle (Color (rgba 255 255 255 0.2)));;
  ctx (SetLineWidth 1);;
  u ← Math_random;
  let rainCount := 100 + u * 200 in
  for_loop (iterations rainCount) 0 rain_streak tt.

Definition glare : M unit :=
  u0 ← Math_random;
  w ← canvas_width;
  let gx := u0 * Qnat w in
  u1 ← Math_random;
  h ← canvas_height;
  let gy := u1 * Qnat h in
  u2 ← Math_random;
  w ← canvas_width;
  let grad := RadialGradient gx gy 0 gx gy (u2 * Qnat w) [] in
  let grad := addColorStop grad 0 (rgba 255 255 200 0.4) in
  let grad := addColorStop grad 1 (rgba 255 255 255 0) in
  ctx (SetFillStyle grad);;
  w ← canvas_width;
  h ← canvas_height;
  ctx (FillRect 0 0 (Qnat w) (Qnat h)).

(** Which overlays were painted on a sample. *)
Record Overlays := { fogged : bool; rained : bool; glared : bool }.

Definition when (b : bool) (m : M unit) : M unit := if b then m else mret tt.

(** The stage returns the outcome of its three gates. *)
Definition overlay_stage (p : AugmentationParams) : M Overlays :=
  f ← fog_gate p;
  when f (fog p);;
  r ← rain_gate p;
  when r rain;;
  g ← glare_gate p;
  when g glare;;
  mret {| fogged := f; rained := r; glared := g |}.

(** *** D. Final artifacts (lines 184-204) *)

Definition dirt_mark (i : nat) (_ : unit) : M unit :=
  u0 ← Math_random;
  w ← canvas_width;
  let x := u0 * Qnat w in
  u1 ← Math_random;
  h ← canvas_height;
  let y := u1 * Qnat h in
  u2 ← Math_random;
  w ← canvas_width;
  let size := 1 + u2 * (Qnat w / 20) in
  u3 ← Math_random;
  u4 ← Math_random;
  u5 ← Math_random;
  u6 ← Math_random;
  ctx (SetFillStyle (Color (rgba (u3 * 50) (u4 * 50) (u5 * 50) (u6 * 0.5))));;
  ctx BeginPath;;
  u7 ← Math_random;
  (if Qgtb u7 0.5 then ctx (Arc x y size 0 (Math_PI * 2))
   else ctx (Rect x y size (size * 0.2)));;
  ctx Fill.

Definition dirt_count (p : AugmentationParams) (u : Q) : Z :=
  Math_floor ((dirtiness p / 100) * 30 * u).

(** The stage returns [dirtCount]. *)
Definition artifact_stage (p : AugmentationParams) : M Z :=
  u ← Math_random;
  let dirtCount := dirt_count p u in
  for_loop (Z.to_nat dirtCount) 0 dirt_mark tt;;
  mret dirtCount.

Definition file_name (timestamp : Z) (index : nat) : string :=
  "aug_" +:+ pretty timestamp +:+ "_" +:+ pretty index +:+ ".jpg".

(** [applyAugmentation] (lines 81-206).  The promise executor runs at
    once; an exception in it rejects the promise and is rethrown by the
    caller's [await]. *)
Definition applyAugmentation (img : Image) (p : AugmentationParams) (index : nat)
  : M GeneratedImage :=
  createCanvas;;
  set_width (img_width img);;
  set_height (img_height img);;
  geometric_stage img index;;
  pixel_stage p;;
  overlay_stage p;;
  artifact_stage p;;
  timestamp ← Date_getTime;
  u ← Math_random;
  let quality := 0.5 + u * 0.4 in
  url ← toDataURL quality;
  mret {| id := index; dataUrl := url; name := file_name timestamp index |}.

(** *** The orchestrator (lines 218-236) *)

Definition get_ui : M AppState := fun s => Ok (ui s) s.

Definition setIsProcessing (b : bool) : M unit :=
  fun s => Ok tt (with_ui {| sourceImage := sourceImage (ui s); isProcessing := b;
                              results := results (ui s); params := params (ui s) |} s).

Definition setResults (r : list GeneratedImage) : M unit :=
  fun s => Ok tt (with_ui {| sourceImage := sourceImage (ui s);
                              isProcessing := isProcessing (ui s);
                              results := r; params := params (ui s) |} s).

(** The loop [for (let i = 0; i < count; i++)] of [handleGenerate]; the
    [setTimeout] pause every fourth iteration changes no state. *)
Definition generate_loop (img : Image) (p : AugmentationParams) (count : nat)
  : M (list GeneratedImage) :=
  for_loop count 0
    (fun i newResults => res ← applyAugmentation img p i; mret (newResults ++ [res])) [].

Definition handleGenerate : M unit :=
  a ← get_ui;
  match sourceImage a with
  | None => mret tt
  | Some img =>
      setIsProcessing true;;
      setResults [];;
      newResults ← generate_loop img (params a) AUGMENTATION_COUNT;
      setResults newResults;;
      setIsProcessing false
  end.

End Engine.

Arguments Math_random _ _ /.
Arguments Date_getTime _ _ /.
Arguments createCanvas _ /.
Arguments set_width _ _ /.
Arguments set_height _ _ /.
Arguments canvas_width _ /.
Arguments canvas_height _ /.
Arguments ctx _ _ /.
Arguments toDataURL _ _ /.
Arguments get_ui _ /.
Arguments setIsProcessing _ _ /.
Arguments setResults _ _ /.

(** ** Reading the code's results *)

(** The context calls of the geometric stage on a [w] x [h] canvas. *)
Definition geometry_ops (img : Image) (w h : nat) (g : Geometry) : list DrawOp :=
  [ Save;
    Translate (Qnat w / 2 + tx g) (Qnat h / 2 + ty g);
    Transform (scl g * (if flipH g then -1 else 1)) (skewX g) (skewY g) (scl g) 0 0;
    Rotate ((rot g * Math_PI) / 180);
    DrawImage img (- Qnat w / 2) (- Qnat h / 2);
    Restore ].

(** The value of a decimal digit. *)
Definition digit_of (c : ascii) : option N :=
  let n := N_of_ascii c in
  if (48 <=? n)%N && (n <=? 57)%N then Some (n - 48)%N else None.

(** Reads a decimal number that must be followed by [.jpg]. *)
Fixpoint read_index (digits : bool) (acc : N) (s : string) : option N :=
  match s with
  | EmptyString => None
  | String c rest =>
      match digit_of c with
      | Some d => read_index true (acc * 10 + d) rest
      | None => if digits && String.eqb s ".jpg" then Some acc else None
      end
  end.

(** The index a file name [aug_<timestamp>_<index>.jpg] carries: the
    decimal number that stands between an underscore and the extension. *)
Fixpoint name_index (s : string) : option nat :=
  match s with
  | EmptyString => None
  | String c rest =>
      if Ascii.eqb c "_" then
        match read_index false 0 rest with
        | Some n => Some (N.to_nat n)
        | None => name_index rest
        end
      else name_index rest
  end.

(** What [applyAugmentation] promises of the sample made for position
    [i] of a batch: its [id] and the index in its file name are [i], the
    encoded canvas has the size of the source, and the calls on it start
    with the geometric stage, whose rotation is computed from one draw,
    followed by the pixels written back. *)
Definition sample_ok (host : Host) (img : Image) (i : nat) (g : GeneratedImage) : Prop :=
  id g = i /\
  (exists timestamp, name g = file_name timestamp i) /\
  width (encoded (dataUrl g)) = img_width img /\
  height (encoded (dataUrl g)) = img_height img /\
  exists geo q dout rest,
    ops (encoded (dataUrl g))
    = geometry_ops img (img_width img) (img_height img) geo
      ++ PutImageData dout 0 0 :: rest /\
    rot geo = (random_tape host q - 0.5) * 40 * (if (i =? 0)%nat then 0 else 1) /\
    length dout = (4 * img_width img * img_height img)%nat.

(** The cursor of the random tape when the pixel loop, entered with the
    cursor at [r], starts its [k]-th iteration: an iteration reads one
    number, and a second one when the noise fires. *)
Fixpoint noise_cursor (host : Host) (p : AugmentationParams) (r k : nat) : nat :=
  match k with
  | O => r
  | S k' =>
      let q := noise_cursor host p r k' in
      if noise_fires p (random_tape host q) then S (S q) else S q
  end.

(** What the loop does to the bytes of pixel [k], given the cursor [q] at
    which its iteration starts: the alpha byte is kept, and each colour
    byte is either the noise colour or the photometric remapping of the
    byte read. *)
Definition channel_result (host : Host) (p : AugmentationParams) (ph : Photo)
    (q c : nat) (v : Z) : Z :=
  if noise_fires p (random_tape host q)
  then ToUint8Clamp (noise_color (random_tape host (S q)))
  else ToUint8Clamp (adjust_channel host ph c v).

Definition pixel_done (host : Host) (p : AugmentationParams) (ph : Photo)
    (din dout : list Z) (k q : nat) : Prop :=
  dout !! (4 * k + 3)%nat = din !! (4 * k + 3)%nat /\
  forall c, (c < 3)%nat ->
    dout !! (4 * k + c)%nat = channel_result host p ph q c <$> din !! (4 * k + c)%nat.


(** The photometric remapping in the specification's words: normalize to
    [0,1]; raise to the gamma power; multiply by the channel's gain; apply
    contrast around midpoint 0.5 and add the brightness offset scaled to
    [0,1]; clamp to [0,255]. *)
Definition spec_normalize (v : Z) : Q := inject_Z v / 255.





(** A dirt mark of the artifact stage and the context calls that paint it. *)
Record Mark := {
  mark_x : Q; mark_y : Q; mark_size : Q; mark_fill : RGBA; mark_circle : bool
}.

Definition mark_ops (m : Mark) : list DrawOp :=
  [ SetFillStyle (Color (mark_fill m));
    BeginPath;
    (if mark_circle m then Arc (mark_x m) (mark_y m) (mark_size m) 0 (Math_PI * 2)
     else Rect (mark_x m) (mark_y m) (mark_size m) (mark_size m * 0.2));
    Fill ].



(** The photometric parameters drawn when the cursor is at [r]. *)
Definition photo_at (host : Host) (p : AugmentationParams) (r : nat) : Photo :=
  let u := fun i => random_tape host (i + r) in
  {| pBrightness := (lightAging p / 100) * (u 0%nat - 0.5) * 150;
     pContrast := 0.5 + u 1%nat * (lightAging p / 50);
     pGamma := 0.5 + u 2%nat * (lightAging p / 50);
     hueRotation := (lightAging p / 100) * 360 * u 3%nat;
     rGain := 0.8 + u 4%nat * 0.4;
     gGain := 0.8 + u 5%nat * 0.4;
     bGain := 0.8 + u 6%nat * 0.4 |}.

(** The photometric parameters with another hue rotation. *)
Definition with_hue (ph : Photo) (x : Q) : Photo :=
  {| pBrightness := pBrightness ph; pContrast := pContrast ph; pGamma := pGamma ph;
     hueRotation := x; rGain := rGain ph; gGain := gGain ph; bGain := bGain ph |}.

(** The mark painted by an iteration that starts with the cursor at [q]. *)
Definition mark_at (host : Host) (w h q : nat) : Mark :=
  let u := fun i => random_tape host (i + q) in
  {| mark_x := u 0%nat * Qnat w;
     mark_y := u 1%nat * Qnat h;
     mark_size := 1 + u 2%nat * (Qnat w / 20);
     mark_fill := rgba (u 3%nat * 50) (u 4%nat * 50) (u 5%nat * 50) (u 6%nat * 0.5);
     mark_circle := Qgtb (u 7%nat) 0.5 |}.

Definition marks_from (host : Host) (w h q n : nat) : list Mark :=
  map (fun j => mark_at host w h (8 * j + q)) (seq 0 n).

(** ** The uniform draw

    [Math.random()] is uniform on [0, 1): the event [u > t] has the
    probability [prob_gt t], the length of the part of [0, 1) above [t],
    and [u <= x] has the probability [prob_le x]. *)
Definition unit_clamp (t : Q) : Q := Math_max 0 (Math_min 1 t).
Definition prob_gt (t : Q) : Q := 1 - unit_clamp t.

(** How many of the draws [0/N, 1/N, ..., (n-1)/N] satisfy [ev]. *)
Fixpoint grid_hits (ev : Q -> bool) (N : positive) (n : nat) : nat :=
  match n with
  | O => O
  | S n' => (grid_hits ev N n' + (if ev (Z.of_nat n' # N) then 1 else 0))%nat
  end.

(** An event on one draw has probability [pr]: on every grid of [N]
    equally spaced draws its frequency is [pr] up to one draw. *)
Definition event_probability (ev : Q -> bool) (pr : Q) : Prop :=
  forall N : positive,
    let hits := inject_Z (Z.of_nat (grid_hits ev N (Pos.to_nat N))) in
    inject_Z (Zpos N) * pr - 1 <= hits /\ hits <= inject_Z (Zpos N) * pr.

(** The outcome of a gate [knob > threshold && Math.random() > flip] on
    the draw [u]. *)
Definition gate_passes (knob threshold flip u : Q) : bool :=
  Qgtb knob threshold && Qgtb u flip.

(** The cursor after the fog block and after the rain block of the
    overlay stage entered with the cursor at [q]. *)
Definition fog_end (host : Host) (p : AugmentationParams) (q : nat) : nat :=
  if Qgtb (harshness p) 50 then
    if Qgtb (random_tape host q) 0.5 then S (S q) else S q
  else q.

Definition rain_end (host : Host) (p : AugmentationParams) (q : nat) : nat :=
  if Qgtb (harshness p) 70 then
    if Qgtb (random_tape host q) 0.6
    then (3 * iterations (100 + random_tape host (S q) * 200) + S (S q))%nat
    else S q
  else q.

Definition glare_end (host : Host) (p : AugmentationParams) (q : nat) : nat :=
  if Qgtb (lightAging p) 60 then
    if Qgtb (random_tape host q) 0.7 then (4 + q)%nat else S q
  else q.

(** ** Hosts that differ in one draw *)

Definition same_but_draw (k : nat) (h1 h2 : Host) : Prop :=
  Math_pow h1 = Math_pow h2 /\
  clock_tape h1 = clock_tape h2 /\
  rasterize h1 = rasterize h2 /\
  forall i, i <> k -> random_tape h1 i = random_tape h2 i.

(** The two hosts agree on every draw from the cursor [n] on. *)
Definition same_from (n : nat) (h1 h2 : Host) : Prop :=
  Math_pow h1 = Math_pow h2 /\
  clock_tape h1 = clock_tape h2 /\
  rasterize h1 = rasterize h2 /\
  forall i, (n <= i)%nat -> random_tape h1 i = random_tape h2 i.

(** A computation that reads the tape only from its cursor on, and never
    moves the cursor back. *)
Definition tape_local {A} (m : Host -> M A) : Prop :=
  forall h1 h2 s, same_from (rand_pos s) h1 h2 ->
    m h1 s = m h2 s /\
    forall a s', m h1 s = Ok a s' -> (rand_pos s <= rand_pos s')%nat.

(** ** A weakest-precondition calculus for [M] *)

Definition wp {A} (m : M A) (Q : A -> State -> Prop) (s : State) : Prop :=
  match m s with
  | Ok a s' => Q a s'
  | Throw _ _ => False
  end.

Definition positive (s : State) : Prop :=
  (0 < width (canvas s))%nat /\ (0 < height (canvas s))%nat.

(** What every stage leaves alone: the size of the canvas, the component
    state and the calls already issued; the cursors only move forward. *)
Record frame (s s' : State) : Prop := {
  frame_width : width (canvas s') = width (canvas s);
  frame_height : height (canvas s') = height (canvas s);
  frame_ui : ui s' = ui s;
  frame_ops : exists l, ops (canvas s') = ops (canvas s) ++ l;
  frame_rand : (rand_pos s <= rand_pos s')%nat;
  frame_clock : (clock_pos s <= clock_pos s')%nat
}.

Definition framed {A} (m : M A) : Prop :=
  forall s, positive s -> wp m (fun _ s' => frame s s') s.

(** A computation that keeps the size of the canvas. *)
Definition keeps_size {A} (m : M A) : Prop :=
  forall s a s', m s = Ok a s' ->
    width (canvas s') = width (canvas s) /\ height (canvas s') = height (canvas s).


(** A call that rejects its input before any stage has run and before any
    draw has been made. *)
Definition rejects_up_front (host : Host) (s : State) : Prop :=
  match handleGenerate host s with
  | Throw _ s' => rand_pos s' = rand_pos s /\ canvas s' = canvas s
  | Ok _ _ => False
  end.

(** The cursor moved forward by [n]. *)
Definition advance (n : nat) (s : State) : State :=
  {| rand_pos := (n + rand_pos s)%nat; clock_pos := clock_pos s;
     canvas := canvas s; ui := ui s |}.

Definition at_cursor (q : nat) (s : State) : State :=
  {| rand_pos := q; clock_pos := clock_pos s; canvas := canvas s; ui := ui s |}.

Definition emit (l : list DrawOp) (s : State) : State :=
  with_canvas {| width := width (canvas s); height := height (canvas s);
                 ops := ops (canvas s) ++ l |} s.

(** ** Test doubles *)

Definition test_tape (n : nat) : Q := ((Z.of_nat n * 37) mod 100)%Z # 100.

(** A deterministic host: the tape [t], a clock that ticks once per
    reading, a bitmap whose bytes all are [level], and a power that
    returns its base, which is exact at the bases 0 and 1. *)
Definition host_of (t : nat -> Q) (level : Z) : Host :=
  {| Math_pow := fun x _ => x;
     random_tape := t;
     clock_tape := fun n => (1700000000000 + Z.of_nat n)%Z;
     rasterize := fun _ _ _ _ => level |}.

Definition test_host : Host := host_of test_tape 128.

(** The same host with another tape. *)
Definition retape (h : Host) (t : nat -> Q) : Host :=
  {| Math_pow := Math_pow h; random_tape := t;
     clock_tape := clock_tape h; rasterize := rasterize h |}.

Definition gray_image (w h : nat) : Image :=
  {| img_width := w; img_height := h; img_bitmap := repeat 128%Z (4 * w * h) |}.

(** The component before its first batch, with the source [src] and the
    knobs [p]. *)
Definition initial_state (src : option Image) (p : AugmentationParams) : State :=
  {| rand_pos := 0; clock_pos := 0;
     canvas := {| width := 300; height := 150; ops := [] |};
     ui := {| sourceImage := src; isProcessing := false; results := []; params := p |} |}.

(** The result of an overlay gate of the source when [Math.random()]
    returns [u]. *)
Definition gate_on_draw (g : Host -> AugmentationParams -> M bool)
    (p : AugmentationParams) (u : Q) : bool :=
  match g (retape test_host (fun _ => u)) p (initial_state None p) with
  | Ok b _ => b
  | Throw _ _ => false
  end.

Definition triggers_with_probability (g : Host -> AugmentationParams -> M bool)
    (p : AugmentationParams) (pr : Q) : Prop :=
  event_probability (gate_on_draw g p) pr.

(** The knobs the component starts with (lines 46-50). *)
Definition default_params : AugmentationParams :=
  {| harshness := 40; lightAging := 40; dirtiness := 30 |}.

Definition all_params (x : Q) : AugmentationParams :=
  {| harshness := x; lightAging := x; dirtiness := x |}.

(** ** Reading the pipeline call by call *)

(** The determinant of the matrix that [ctx.transform(a, b, c, d, e, f)]
    multiplies the current transformation by. *)
Definition transform_det (a b c d : Q) : Q := a * d - b * c.

(** The ranges of the geometric parameters on a [w] x [h] canvas. *)
Definition geometry_in_bounds (w h : nat) (g : Geometry) : Prop :=
  (0.85 <= scl g /\ scl g < 1.15) /\
  (-0.1 <= skewX g /\ skewX g < 0.1) /\
  (-0.1 <= skewY g /\ skewY g < 0.1) /\
  (- (0.075 * Qnat w) <= tx g /\ tx g <= 0.075 * Qnat w) /\
  (- (0.075 * Qnat h) <= ty g /\ ty g <= 0.075 * Qnat h).

(** The geometric parameters drawn when the cursor is at [r]. *)
Definition geometry_at (host : Host) (w h index r : nat) : Geometry :=
  let u := fun i => random_tape host (i + r) in
  {| rot := (u 0%nat - 0.5) * 40 * (if (index =? 0)%nat then 0 else 1);
     scl := 0.85 + u 1%nat * 0.3;
     skewX := (u 2%nat - 0.5) * 0.2;
     skewY := (u 3%nat - 0.5) * 0.2;
     tx := (u 4%nat - 0.5) * (Qnat w * 0.15);
     ty := (u 5%nat - 0.5) * (Qnat h * 0.15);
     flipH := Qgtb (u 6%nat) 0.5 |}.

(** The context calls of the fog block on a [w] x [h] canvas when
    [Math.random()] returns [u] for the opacity. *)
Definition fog_ops (p : AugmentationParams) (w h : nat) (u : Q) : list DrawOp :=
  let fogOpacity := (harshness p / 200) * u in
  [ SetFillStyle (LinearGradient 0 0 0 (Qnat h)
      [ {| stop_offset := 0; stop_color := rgba 200 200 200 fogOpacity |};
        {| stop_offset := 1; stop_color := rgba 255 255 255 (fogOpacity * 0.2) |} ]);
    FillRect 0 0 (Qnat w) (Qnat h) ].

(** A rain streak: where it starts and how long it is. *)
Record Streak := { rain_x : Q; rain_y : Q; rain_len : Q }.

Definition streak_ops (k : Streak) : list DrawOp :=
  [ BeginPath;
    MoveTo (rain_x k) (rain_y k);
    LineTo (rain_x k + rain_len k * 0.1) (rain_y k + rain_len k);
    Stroke ].

(** The streak drawn by an iteration that starts with the cursor at [q]. *)
Definition streak_at (host : Host) (w h q : nat) : Streak :=
  let u := fun i => random_tape host (i + q) in
  {| rain_x := u 0%nat * Qnat w; rain_y := u 1%nat * Qnat h; rain_len := 10 + u 2%nat * 30 |}.

Definition streaks_from (host : Host) (w h q n : nat) : list Streak :=
  map (fun j => streak_at host w h (3 * j + q)) (seq 0 n).

(** The number of streaks when [Math.random()] returns [u] for
    [rainCount]. *)
Definition rain_count (u : Q) : nat := iterations (100 + u * 200).

(** The context calls of the rain block entered with the cursor at [q]. *)
Definition rain_ops (host : Host) (w h q : nat) : list DrawOp :=
  [ SetStrokeStyle (Color (rgba 255 255 255 0.2)); SetLineWidth 1 ]
  ++ concat (map streak_ops
               (streaks_from host w h (S q) (rain_count (random_tape host q)))).

(** The context calls of the glare block entered with the cursor at [q]. *)
Definition glare_ops (host : Host) (w h q : nat) : list DrawOp :=
  let u := fun i => random_tape host (i + q) in
  let gx := u 0%nat * Qnat w in
  let gy := u 1%nat * Qnat h in
  [ SetFillStyle (RadialGradient gx gy 0 gx gy (u 2%nat * Qnat w)
      [ {| stop_offset := 0; stop_color := rgba 255 255 200 0.4 |};
        {| stop_offset := 1; stop_color := rgba 255 255 255 0 |} ]);
    FillRect 0 0 (Qnat w) (Qnat h) ].

(** The cursor of the random tape after the pixel stage, after the
    overlay stage and after the artifact stage of a sample on a [w] x [h]
    canvas that was started with the cursor at [r]. *)
Definition pixel_end (host : Host) (p : AugmentationParams) (w h r : nat) : nat :=
  noise_cursor host p (14 + r) (w * h).

Definition overlay_end (host : Host) (p : AugmentationParams) (w h r : nat) : nat :=
  glare_end host p (rain_end host p (fog_end host p (pixel_end host p w h r))).

Definition marks_of (host : Host) (p : AugmentationParams) (w h r : nat) : nat :=
  Z.to_nat (dirt_count p (random_tape host (overlay_end host p w h r))).

Definition artifact_end (host : Host) (p : AugmentationParams) (w h r : nat) : nat :=
  (8 * marks_of host p w h r + 1 + overlay_end host p w h r)%nat.

(** The context calls of the overlay stage entered with the cursor at [q]. *)
Definition overlay_ops (host : Host) (p : AugmentationParams) (w h q : nat) : list DrawOp :=
  let q1 := fog_end host p q in
  let q2 := rain_end host p q1 in
  (if gate_passes (harshness p) 50 0.5 (random_tape host q)
   then fog_ops p w h (random_tape host (S q)) else [])
  ++ (if gate_passes (harshness p) 70 0.6 (random_tape host q1)
      then rain_ops host w h (S q1) else [])
  ++ (if gate_passes (lightAging p) 60 0.7 (random_tape host q2)
      then glare_ops host w h (S q2) else []).

(** What the rain block guarantees of a streak on a [w] x [h] canvas. *)
Definition streak_in_bounds (w h : nat) (k : Streak) : Prop :=
  (0 <= rain_x k /\ rain_x k <= Qnat w) /\
  (0 <= rain_y k /\ rain_y k <= Qnat h) /\
  (10 <= rain_len k /\ rain_len k < 40).

(** Two outcomes of [applyAugmentation] that differ at most in the [id]
    and the [name] of the sample: the same data URL and the same final
    state, or the same exception in the same state. *)
Definition same_sample (o1 o2 : outcome GeneratedImage) : Prop :=
  match o1, o2 with
  | Ok g1 s1, Ok g2 s2 => dataUrl g1 = dataUrl g2 /\ s1 = s2
  | Throw e1 s1, Throw e2 s2 => e1 = e2 /\ s1 = s2
  | _, _ => False
  end.

(** [Math.pow] keeps the unit interval: a base in [0, 1] raised to a
    positive power stays in [0, 1]. *)
Definition pow_keeps_unit (h : Host) : Prop :=
  forall x g, 0 <= x -> x <= 1 -> 0 < g -> 0 <= Math_pow h x g /\ Math_pow h x g <= 1.

(** [getImageData] returns bytes. *)
Definition bitmap_is_bytes (h : Host) : Prop :=
  forall w h' l i, (0 <= rasterize h w h' l i <= 255)%Z.

(** Test double: a state whose canvas is [w] x [h] and has seen no call. *)
Definition blank_canvas (w h : nat) (p : AugmentationParams) : State :=
  with_canvas {| width := w; height := h; ops := [] |} (initial_state None p).

(** ** File names *)

(** The text that stands before the first underscore of [s]. *)
Fixpoint before_underscore (s : string) : string :=
  match s with
  | EmptyString => EmptyString
  | String c rest => if Ascii.eqb c "_" then EmptyString else String c (before_underscore rest)
  end.

(** ** The preview (src/App.tsx, lines 45, 55-74) *)

(** A position in [results] as JavaScript computes it: an integer, or
    NaN.  (The source stores no other number in [previewIndex]: it is set
    to the position of a thumbnail, or from its own value by the
    arithmetic below.) *)
Inductive number := NaN | Num (n : Z).

Definition js_add (x y : number) : number :=
  match x, y with
  | Num a, Num b => Num (a + b)
  | _, _ => NaN
  end.

Definition js_sub (x y : number) : number :=
  match x, y with
  | Num a, Num b => Num (a - b)
  | _, _ => NaN
  end.

(** [x % y]: the remainder takes the sign of the dividend, and is NaN when
    the divisor is 0. *)
Definition js_rem (x y : number) : number :=
  match x, y with
  | Num a, Num b => if (b =? 0)%Z then NaN else Num (Z.rem a b)
  | _, _ => NaN
  end.

(** The component: the state [handleGenerate] runs in, and the two state
    variables it does not touch (lines 44-45). *)
Record App := {
  base : State;
  showAdvanced : bool;
  previewIndex : option number
}.

Definition results_of (a : App) : list GeneratedImage := results (ui (base a)).

(** [results.length]. *)
Definition results_length (a : App) : number := Num (Z.of_nat (length (results_of a))).

Definition setPreviewIndex (v : option number) (a : App) : App :=
  {| base := base a; showAdvanced := showAdvanced a; previewIndex := v |}.

Definition setShowAdvanced (b : bool) (a : App) : App :=
  {| base := base a; showAdvanced := b; previewIndex := previewIndex a |}.

Definition set_base (s : State) (a : App) : App :=
  {| base := s; showAdvanced := showAdvanced a; previewIndex := previewIndex a |}.

Definition setSourceImage (src : option Image) (a : App) : App :=
  set_base (with_ui {| sourceImage := src; isProcessing := isProcessing (ui (base a));
                       results := results (ui (base a)); params := params (ui (base a)) |}
              (base a)) a.

Definition clearResults (a : App) : App :=
  set_base (with_ui {| sourceImage := sourceImage (ui (base a));
                       isProcessing := isProcessing (ui (base a));
                       results := []; params := params (ui (base a)) |}
              (base a)) a.

Definition setParams (f : AugmentationParams -> AugmentationParams) (a : App) : App :=
  set_base (with_ui {| sourceImage := sourceImage (ui (base a));
                       isProcessing := isProcessing (ui (base a));
                       results := results (ui (base a));
                       params := f (params (ui (base a))) |}
              (base a)) a.

(** An event handler is a closure of the render it was created in: it
    reads the state of that render, [r], and its updates go to the state
    [a] that the next render will show. *)
Definition handleNext (r a : App) : App :=
  match previewIndex r with
  | None => a
  | Some i => setPreviewIndex (Some (js_rem (js_add i (Num 1)) (results_length r))) a
  end.

Definition handlePrev (r a : App) : App :=
  match previewIndex r with
  | None => a
  | Some i =>
      setPreviewIndex
        (Some (js_rem (js_add (js_sub i (Num 1)) (results_length r)) (results_length r))) a
  end.

Definition handleKeyDown (key : string) (r a : App) : App :=
  match previewIndex r with
  | None => a
  | Some _ =>
      let a := if String.eqb key "ArrowRight" then handleNext r a else a in
      let a := if String.eqb key "ArrowLeft" then handlePrev r a else a in
      if String.eqb key "Escape" then setPreviewIndex None a else a
  end.

(** An event reaches the handler of the current render. *)
Definition on_event (handler : App -> App -> App) (a : App) : App := handler a a.

(** [previewIndex !== null && results[previewIndex]] (line 511): the
    sample the preview shows, if it is shown. *)
Definition preview_of (a : App) : option GeneratedImage :=
  match previewIndex a with
  | Some (Num i) => if (0 <=? i)%Z then results_of a !! Z.to_nat i else None
  | _ => None
  end.

(** A preview that is open on one of the results. *)
Definition preview_at (a : App) (i : nat) : Prop :=
  previewIndex a = Some (Num (Z.of_nat i)) /\ (i < length (results_of a))%nat.

(** Test doubles: a sample, and a component that shows the results [l]
    with the preview index [v]. *)
Definition sample (i : nat) : GeneratedImage :=
  {| id := i;
     dataUrl := {| encoded := {| width := 1%nat; height := 1%nat; ops := [] |};
                   quality_of := 0.5%Q |};
     name := file_name 0%Z i |}.

Definition previewing (l : list GeneratedImage) (v : option number) : App :=
  {| base := with_ui {| sourceImage := None; isProcessing := false; results := l;
                        params := default_params |} (initial_state None default_params);
     showAdvanced := false;
     previewIndex := v |}.

(** ** The archive (src/App.tsx, lines 238-251) *)

(** [s.split(sep)] for a separator of one character. *)
Fixpoint js_split (sep : ascii) (s : string) : list string :=
  match s with
  | EmptyString => [EmptyString]
  | String c rest =>
      if Ascii.eqb c sep then EmptyString :: js_split sep rest
      else match js_split sep rest with
           | piece :: pieces => String c piece :: pieces
           | [] => [String c EmptyString]
           end
  end.

(** [url.split(',')[1]]; [None] stands for [undefined]. *)
Definition base64Data (url : string) : option string := js_split "," url !! 1%nat.

Fixpoint comma_free (s : string) : bool :=
  match s with
  | EmptyString => true
  | String c rest => negb (Ascii.eqb c ",") && comma_free rest
  end.

(** A [JSZip] archive is kept as the data handed over for each file
    name.  [zip.file(name, data, { base64: true })] adds the file or
    replaces the one of that name; a name is taken as it is: the names
    [applyAugmentation] makes hold no [/], which would add folders. *)
Definition zip_file (name : string) (data : option string)
    (zip : gmap string (option string)) : gmap string (option string) :=
  <[name := data]> zip.

(** What [downloadZip] hands to the browser: the archive and the name it
    is saved under. *)
Record Download := {
  download_name : string;
  download_zip : gmap string (option string)
}.

Section Download.

Variable host : Host.

(** The base64 text of the JPEG the browser's encoder makes of a data
    URL; [canvas.toDataURL('image/jpeg', quality)] returns it behind the
    header of its type. *)
Variable base64 : DataURL -> string.

Definition url_text (u : DataURL) : string := "data:image/jpeg;base64," +:+ base64 u.

(** [zip.file(img.name, img.dataUrl.split(',')[1], { base64: true })]. *)
Definition add_entry (zip : gmap string (option string)) (img : GeneratedImage)
  : gmap string (option string) :=
  zip_file (name img) (base64Data (url_text (dataUrl img))) zip.

(** [results.forEach(img => ...)] on a new archive. *)
Definition zip_results (l : list GeneratedImage) : gmap string (option string) :=
  foldl add_entry ∅ l.

(** [downloadZip] (lines 238-251); [Date.now()] reads the clock. *)
Definition downloadZip : M Download :=
  a ← get_ui;
  let zip := zip_results (results a) in
  now ← Date_getTime host;
  mret {| download_name := "diverse_dataset_" +:+ pretty now +:+ ".zip";
          download_zip := zip |}.

End Download.

(** ** The sliders (src/App.tsx, lines 357-388) *)

(** [parseInt(string)] without a radix, on strings of code units below
    256: leading white space is skipped, then a sign, then [0x] or [0X],
    which selects radix 16; the longest run of digits of the radix is the
    number, and NaN is returned when there is none. *)
Definition is_white_space (c : ascii) : bool :=
  let n := N_of_ascii c in
  ((n =? 9) || (n =? 10) || (n =? 11) || (n =? 12) || (n =? 13) || (n =? 32)
   || (n =? 160))%N.

Fixpoint trim_start (s : string) : string :=
  match s with
  | EmptyString => EmptyString
  | String c rest => if is_white_space c then trim_start rest else s
  end.

Definition strip_sign (s : string) : Z * string :=
  match s with
  | String c rest =>
      if Ascii.eqb c "-" then (-1, rest)%Z
      else if Ascii.eqb c "+" then (1, rest)%Z
      else (1, s)%Z
  | EmptyString => (1, s)%Z
  end.

Definition strip_prefix (s : string) : N * string :=
  match s with
  | String c (String x rest) =>
      if Ascii.eqb c "0" && (Ascii.eqb x "x" || Ascii.eqb x "X") then (16, rest)%N
      else (10, s)%N
  | _ => (10, s)%N
  end.

(** The value of [c] as a digit of the radix [R]. *)
Definition radix_digit (R : N) (c : ascii) : option N :=
  let n := N_of_ascii c in
  let v :=
    if (48 <=? n)%N && (n <=? 57)%N then Some (n - 48)%N
    else if (97 <=? n)%N && (n <=? 122)%N then Some (n - 87)%N
    else if (65 <=? n)%N && (n <=? 90)%N then Some (n - 55)%N
    else None in
  match v with
  | Some d => if (d <? R)%N then Some d else None
  | None => None
  end.

(** The number written by the longest run of digits at the start of [s];
    [None] when [s] starts with no digit. *)
Fixpoint read_digits (R : N) (seen : bool) (acc : N) (s : string) : option N :=
  match s with
  | String c rest =>
      match radix_digit R c with
      | Some d => read_digits R true (acc * R + d) rest
      | None => if seen then Some acc else None
      end
  | EmptyString => if seen then Some acc else None
  end.

Definition parseInt (s : string) : number :=
  let '(sign, s) := strip_sign (trim_start s) in
  let '(R, s) := strip_prefix s in
  match read_digits R false 0 s with
  | Some n => Num (sign * Z.of_N n)
  | None => NaN
  end.

Inductive Knob := Harshness | LightAging | Dirtiness.

(** [{ ...prev, knob: x }]. *)
Definition set_knob (k : Knob) (x : Q) (prev : AugmentationParams) : AugmentationParams :=
  match k with
  | Harshness => {| harshness := x; lightAging := lightAging prev; dirtiness := dirtiness prev |}
  | LightAging => {| harshness := harshness prev; lightAging := x; dirtiness := dirtiness prev |}
  | Dirtiness => {| harshness := harshness prev; lightAging := lightAging prev; dirtiness := x |}
  end.

Definition knob (k : Knob) (p : AugmentationParams) : Q :=
  match k with
  | Harshness => harshness p
  | LightAging => lightAging p
  | Dirtiness => dirtiness p
  end.

(** The [onChange] of a slider:
    [setParams(prev => ({ ...prev, knob: parseInt(e.target.value) }))].
    [None] stands for the case that [parseInt] returns NaN, a value the
    rational knobs of [AugmentationParams] do not hold. *)
Definition onChange (k : Knob) (value : string) (a : App) : option App :=
  match parseInt value with
  | Num n => Some (setParams (set_knob k (inject_Z n)) a)
  | NaN => None
  end.

(** ** The component as a transition system *)

(** [handleFileUpload] (lines 208-216): with a file chosen, the results
    are cleared at once; the source is set later, when the reader has
    loaded the file ([FileLoaded] below). *)
Definition handleFileUpload (file : option Image) (a : App) : App :=
  match file with
  | Some _ => clearResults a
  | None => a
  end.

(** The events the component handles.  A source image is kept as the
    image it decodes to. *)
Inductive Event :=
| KeyDown (key : string)
| ClickNext
| ClickPrev
| ClickThumbnail (i : nat)
| ClosePreview
| ChooseFile (file : option Image)
| FileLoaded (img : Image)
| ClickReupload
| ToggleAdvanced
| Slide (k : Knob) (value : string)
| ClickGenerate
| ClickDownload.

Section Events.

Variable host : Host.
Variable base64 : DataURL -> string.

(** The state after an event.  The buttons that start a batch are
    disabled while [isProcessing] holds (lines 276, 395, 625): then a
    click on them is no event, and [None] is returned, as it is for a
    slider value that parses to NaN.  A batch is one step: events that
    arrive while it is computed are not modelled.  An exception in
    [handleGenerate] is caught by nobody: the state stays as it was when
    it was thrown. *)
Definition fire (e : Event) (a : App) : option App :=
  match e with
  | KeyDown key => Some (on_event (handleKeyDown key) a)
  | ClickNext => Some (on_event handleNext a)
  | ClickPrev => Some (on_event handlePrev a)
  | ClickThumbnail i => Some (setPreviewIndex (Some (Num (Z.of_nat i))) a)
  | ClosePreview => Some (setPreviewIndex None a)
  | ChooseFile file => Some (handleFileUpload file a)
  | FileLoaded img => Some (setSourceImage (Some img) a)
  | ClickReupload => Some (setSourceImage None a)
  | ToggleAdvanced => Some (setShowAdvanced (negb (showAdvanced a)) a)
  | Slide k value => onChange k value a
  | ClickGenerate =>
      if isProcessing (ui (base a)) then None
      else Some (set_base (final_state (handleGenerate host (base a))) a)
  | ClickDownload => Some (set_base (final_state (downloadZip host base64 (base a))) a)
  end.

Fixpoint run (es : list Event) (a : App) : option App :=
  match es with
  | [] => Some a
  | e :: es =>
      match fire e a with
      | Some a' => run es a'
      | None => None
      end
  end.

End Events.

(** The values a slider with [min="0" max="100"] reports: the decimal
    numerals of 0, 1, ..., 100. *)
Definition slider_value (e : Event) : Prop :=
  match e with
  | Slide _ value => exists n : nat, (n <= 100)%nat /\ value = pretty n
  | _ => True
  end.

Definition knobs_in_range (p : AugmentationParams) : Prop :=
  (0 <= harshness p /\ harshness p <= 100) /\
  (0 <= lightAging p /\ lightAging p <= 100) /\
  (0 <= dirtiness p /\ dirtiness p <= 100).

(** The results are either none or a whole batch in generation order. *)
Definition none_or_a_batch (l : list GeneratedImage) : Prop :=
  l = [] \/
  (length l = AUGMENTATION_COUNT /\
   forall i g, l !! i = Some g -> id g = i /\ name_index (name g) = Some i).

(** The component as it is first rendered (lines 41-50). *)
Definition initial_app : App :=
  {| base := initial_state None default_params;
     showAdvanced := false;
     previewIndex := None |}.

(** * Proofs *)

(** ** Numbers *)

Lemma Qgtb_true x y : Qgtb x y = true <-> y < x.
Proof.
  unfold Qgtb. rewrite negb_true_iff, <- not_true_iff_false, Qle_bool_iff.
  split; [apply Qnot_le_lt | apply Qlt_not_le].
Qed.

Lemma Qgtb_false x y : Qgtb x y = false <-> x <= y.
Proof.
  unfold Qgtb. rewrite negb_false_iff, Qle_bool_iff. reflexivity.
Qed.

Lemma Qle_bool_false x y : Qle_bool x y = false <-> y < x.
Proof.
  rewrite <- not_true_iff_false, Qle_bool_iff.
  split; [apply Qnot_le_lt | apply Qlt_not_le].
Qed.

(** Case analysis on the comparisons of a goal, innermost first. *)
Ltac no_test t :=
  lazymatch t with
  | context [Qle_bool _ _] => fail
  | context [Qgtb _ _] => fail
  | _ => idtac
  end.

Ltac qcases :=
  repeat match goal with
  | |- context [Qle_bool ?x ?y] =>
      no_test x; no_test y;
      let E := fresh "E" in
      destruct (Qle_bool x y) eqn:E;
      [apply Qle_bool_iff in E | apply Qle_bool_false in E]
  | |- context [Qgtb ?x ?y] =>
      no_test x; no_test y;
      let E := fresh "E" in
      destruct (Qgtb x y) eqn:E;
      [apply Qgtb_true in E | apply Qgtb_false in E]
  end.

Lemma Math_min_max_range x : 0 <= Math_min 255 (Math_max 0 x) <= 255.
Proof. unfold Math_min, Math_max. qcases; lra. Qed.

Lemma unit_clamp_id t : 0 <= t <= 1 -> unit_clamp t == t.
Proof. intros H. unfold unit_clamp, Math_min, Math_max. qcases; lra. Qed.



Lemma Qfloor_bounds x a b :
  inject_Z a <= x -> x < inject_Z b -> (a <= Qfloor x < b)%Z.
Proof.
  intros Ha Hb. split.
  - rewrite <- (Qfloor_Z a). now apply Qfloor_resp_le.
  - rewrite Zlt_Qlt. eapply Qle_lt_trans; [apply Qfloor_le | exact Hb].
Qed.

Lemma ToUint8Clamp_range x : (0 <= ToUint8Clamp x <= 255)%Z.
Proof.
  unfold ToUint8Clamp.
  destruct (Qle_bool x 0) eqn:E0; [lia|].
  destruct (Qle_bool 255 x) eqn:E1; [lia|].
  apply Qle_bool_false in E0, E1.
  assert (Hf : (0 <= Qfloor x < 255)%Z) by (apply Qfloor_bounds; unfold inject_Z; lra).
  destruct (Qgtb 0.5 (x - inject_Z (Qfloor x))); [lia|].
  destruct (Qgtb (x - inject_Z (Qfloor x)) 0.5); [lia|].
  destruct (Z.even (Qfloor x)); lia.
Qed.


(** The rounding of a store is at most one half away from the clamped
    value. *)
Lemma ToUint8Clamp_near x :
  0 <= x <= 255 ->
  inject_Z (ToUint8Clamp x) - 0.5 <= x <= inject_Z (ToUint8Clamp x) + 0.5.
Proof.
  intros Hx. unfold ToUint8Clamp.
  destruct (Qle_bool x 0) eqn:E0.
  { apply Qle_bool_iff in E0. change (inject_Z 0) with 0. lra. }
  destruct (Qle_bool 255 x) eqn:E1.
  { apply Qle_bool_iff in E1. change (inject_Z 255) with 255. lra. }
  pose proof (Qfloor_le x) as Hl. pose proof (Qlt_floor x) as Hu.
  rewrite inject_Z_plus in Hu. change (inject_Z 1) with 1 in Hu.
  destruct (Qgtb 0.5 (x - inject_Z (Qfloor x))) eqn:E2.
  { apply Qgtb_true in E2. lra. }
  apply Qgtb_false in E2.
  destruct (Qgtb (x - inject_Z (Qfloor x)) 0.5) eqn:E3.
  { rewrite inject_Z_plus. change (inject_Z 1) with 1. lra. }
  apply Qgtb_false in E3.
  destruct (Z.even (Qfloor x)); [lra|].
  rewrite inject_Z_plus. change (inject_Z 1) with 1. lra.
Qed.

Lemma noise_color_cases v :
  (noise_color v = 255 /\ 0.5 < v) \/ (noise_color v = 0 /\ v <= 0.5).
Proof.
  unfold noise_color. destruct (Qgtb v 0.5) eqn:E.
  - left. split; [reflexivity | now apply Qgtb_true].
  - right. split; [reflexivity | now apply Qgtb_false].
Qed.


(** ** The calculus *)

Lemma wp_ok {A} (m : M A) Q s :
  wp m Q s <-> exists a s', m s = Ok a s' /\ Q a s'.
Proof.
  unfold wp. destruct (m s) as [a s'|e s'].
  - split; [eauto | intros (a' & s'' & E & H); congruence].
  - split; [tauto | intros (a' & s'' & E & _); discriminate].
Qed.

Lemma wp_bind {A B} (m : M A) (k : A -> M B) Q s :
  wp m (fun a s' => wp (k a) Q s') s -> wp (m ≫= k) Q s.
Proof. unfold wp, mbind, M_bind, bind. destruct (m s); auto. Qed.

Lemma wp_mono {A} (m : M A) (Q Q' : A -> State -> Prop) s :
  wp m Q s -> (forall a s', Q a s' -> Q' a s') -> wp m Q' s.
Proof. unfold wp. destruct (m s); auto. Qed.

Lemma wp_for_loop {A} (I : nat -> A -> State -> Prop) body n :
  (forall i acc s, I i acc s -> wp (body i acc) (I (S i)) s) ->
  forall i acc s, I i acc s -> wp (for_loop n i body acc) (I (n + i)%nat) s.
Proof.
  intros Hbody. induction n as [|n IH]; intros i acc s HI.
  - exact HI.
  - cbn [for_loop]. apply wp_bind. eapply wp_mono; [apply Hbody, HI|].
    intros acc' s' HI'. replace (S n + i)%nat with (n + S i)%nat by lia.
    apply IH, HI'.
Qed.

Lemma bind_Ok {A B} (m : M A) (k : A -> M B) s a s' :
  m s = Ok a s' -> (m ≫= k) s = k a s'.
Proof. unfold mbind, M_bind, bind. now intros ->. Qed.

Lemma bind_Throw {A B} (m : M A) (k : A -> M B) s e s' :
  m s = Throw e s' -> (m ≫= k) s = Throw e s'.
Proof. unfold mbind, M_bind, bind. now intros ->. Qed.

(** ** Frames *)

Lemma frame_refl s : frame s s.
Proof. split; auto. exists []. now rewrite app_nil_r. Qed.

Lemma frame_trans s1 s2 s3 : frame s1 s2 -> frame s2 s3 -> frame s1 s3.
Proof.
  intros [W1 H1 U1 [l1 E1] R1 C1] [W2 H2 U2 [l2 E2] R2 C2].
  split; try congruence; try lia.
  exists (l1 ++ l2). now rewrite E2, E1, app_assoc.
Qed.

Lemma frame_positive s s' : frame s s' -> positive s -> positive s'.
Proof. intros [W H _ _ _ _] [Pw Ph]. split; congruence. Qed.

Lemma framed_ret {A} (a : A) : framed (mret a).
Proof. intros s _. apply frame_refl. Qed.

Lemma framed_bind {A B} (m : M A) (k : A -> M B) :
  framed m -> (forall a, framed (k a)) -> framed (m ≫= k).
Proof.
  intros Hm Hk s Hs. apply wp_bind. eapply wp_mono; [apply Hm, Hs|].
  intros a s' F. cbn beta in *.
  eapply wp_mono; [apply Hk; eauto using frame_positive|].
  intros b s'' F'. eauto using frame_trans.
Qed.

Lemma framed_for_loop {A} (body : nat -> A -> M A) n i acc :
  (forall i acc, framed (body i acc)) -> framed (for_loop n i body acc).
Proof.
  intros Hb s Hs.
  eapply wp_mono.
  - apply (wp_for_loop (fun _ _ s' => frame s s')); [|apply frame_refl].
    intros j a s1 F. eapply wp_mono; [apply Hb; eauto using frame_positive|].
    cbn beta. intros; eauto using frame_trans.
  - auto.
Qed.

Lemma framed_when b m : framed m -> framed (when b m).
Proof. unfold when. destruct b; auto using framed_ret. Qed.

Lemma framed_if {A} (b : bool) (m1 m2 : M A) :
  framed m1 -> framed m2 -> framed (if b then m1 else m2).
Proof. destruct b; auto. Qed.

Section Frames.

Variable host : Host.

Lemma framed_Math_random : framed (Math_random host).
Proof. intros s _. split; cbn; auto. exists []. now rewrite app_nil_r. Qed.

Lemma framed_Date_getTime : framed (Date_getTime host).
Proof. intros s _. split; cbn; auto. exists []. now rewrite app_nil_r. Qed.

Lemma framed_ctx op : framed (ctx op).
Proof. intros s _. split; cbn; eauto. Qed.

Lemma framed_canvas_width : framed canvas_width.
Proof. intros s _. apply frame_refl. Qed.

Lemma framed_canvas_height : framed canvas_height.
Proof. intros s _. apply frame_refl. Qed.

Lemma framed_toDataURL q : framed (toDataURL q).
Proof. intros s _. apply frame_refl. Qed.

End Frames.

Create HintDb framed.
#[export] Hint Resolve framed_ret framed_Math_random framed_Date_getTime framed_ctx
  framed_canvas_width framed_canvas_height framed_toDataURL : framed.

Ltac framed :=
  repeat first
    [ progress intros
    | apply framed_bind
    | apply framed_when
    | apply framed_if
    | apply framed_for_loop
    | solve [auto with framed] ].

Lemma getImageData_positive host s :
  positive s ->
  getImageData host (width (canvas s)) (height (canvas s)) s
  = Ok (bitmap_bytes host (canvas s) (width (canvas s)) (height (canvas s))) s.
Proof.
  intros [Hw Hh]. unfold getImageData.
  destruct (width (canvas s)) as [|w]; [lia|].
  destruct (height (canvas s)) as [|h]; [lia|].
  reflexivity.
Qed.

Lemma getImageData_zero host s :
  width (canvas s) = O \/ height (canvas s) = O ->
  getImageData host (width (canvas s)) (height (canvas s)) s = Throw IndexSizeError s.
Proof.
  intros H. unfold getImageData.
  destruct H as [-> | ->]; [reflexivity|].
  now rewrite orb_true_r.
Qed.

Lemma length_bitmap_bytes host c w h :
  length (bitmap_bytes host c w h) = (4 * w * h)%nat.
Proof. unfold bitmap_bytes. now rewrite length_map, length_seq. Qed.

Lemma framed_geometric_stage host img index : framed (geometric_stage host img index).
Proof. unfold geometric_stage, geometric_draws. framed. Qed.

Lemma framed_pixel_rest host p data :
  framed (ph ← photometric_draws host p;
          data' ← for_loop (pixel_count data) 0 (pixel_body host p ph) data;
          ctx (PutImageData data' 0 0)).
Proof. framed. Qed.

Lemma framed_pixel_stage host p : framed (pixel_stage host p).
Proof.
  intros s Hs. unfold pixel_stage.
  apply wp_bind. cbn [canvas_width wp]. apply wp_bind. cbn [canvas_height wp].
  unfold wp at 1. rewrite (bind_Ok _ _ _ _ _ (getImageData_positive host s Hs)).
  apply (framed_pixel_rest host p _ s Hs).
Qed.

Lemma framed_overlay_stage host p : framed (overlay_stage host p).
Proof.
  unfold overlay_stage, fog_gate, rain_gate, glare_gate, gate, fog, rain, glare,
    rain_streak.
  framed.
Qed.

Lemma framed_artifact_stage host p : framed (artifact_stage host p).
Proof. unfold artifact_stage, dirt_mark. framed. Qed.

(** ** Exact runs of the straight-line blocks *)

(** Running the monad's primitives on a state. *)
Ltac mrun :=
  unfold mbind, mret, M_bind, M_ret, bind, ret, emit, advance, at_cursor;
  cbn [Math_random Date_getTime createCanvas set_width set_height canvas_width
       canvas_height ctx toDataURL with_canvas with_ui get_ui setIsProcessing
       setResults when rand_pos clock_pos canvas ui width height ops Nat.add].

Ltac state_eq :=
  mrun;
  cbn [geometry_ops mark_ops mark_at rot scl skewX skewY tx ty flipH
       mark_x mark_y mark_size mark_fill mark_circle];
  repeat match goal with
  | |- Ok _ _ = Ok _ _ => f_equal
  | |- Build_State _ _ _ _ = Build_State _ _ _ _ => f_equal
  | |- Build_Canvas _ _ _ = Build_Canvas _ _ _ => f_equal
  end;
  rewrite <- ?app_assoc; cbn [app];
  first [reflexivity | lia | rewrite ?app_nil_r; reflexivity | idtac].

Lemma state_ext s s' :
  rand_pos s = rand_pos s' -> clock_pos s = clock_pos s' ->
  width (canvas s) = width (canvas s') -> height (canvas s) = height (canvas s') ->
  ops (canvas s) = ops (canvas s') -> ui s = ui s' -> s = s'.
Proof.
  destruct s as [r c [w h o] u], s' as [r' c' [w' h' o'] u']. cbn.
  intros -> -> -> -> -> ->. reflexivity.
Qed.

Lemma emit_emit l1 l2 n1 n2 s :
  emit l2 (advance n2 (emit l1 (advance n1 s))) = emit (l1 ++ l2) (advance (n2 + n1) s).
Proof. state_eq. Qed.

Lemma emit_nil s : emit [] s = s.
Proof. destruct s as [r c [w h o] u]. state_eq. Qed.

Lemma advance_0 s : advance 0 s = s.
Proof. now destruct s. Qed.

Section Runs.

Variable host : Host.

Lemma geometric_stage_run img index s :
  exists g,
    geometric_stage host img index s
    = Ok g (emit (geometry_ops img (width (canvas s)) (height (canvas s)) g) (advance 7 s))
    /\ geometric_draws host index s = Ok g (advance 7 s)
    /\ rot g = (random_tape host (rand_pos s) - 0.5) * 40
                * (if (index =? 0)%nat then 0 else 1).
Proof.
  eexists. split; [|split].
  2: { unfold geometric_draws. mrun. reflexivity. }
  - unfold geometric_stage, geometric_draws. state_eq.
  - reflexivity.
Qed.

Lemma dirt_mark_run i s :
  dirt_mark host i tt s
  = Ok tt (emit (mark_ops (mark_at host (width (canvas s)) (height (canvas s)) (rand_pos s)))
             (advance 8 s)).
Proof.
  unfold dirt_mark, mark_ops, mark_at. mrun.
  destruct (Qgtb (random_tape host (S (S (S (S (S (S (S (rand_pos s))))))))) 0.5); state_eq.
Qed.

Lemma at_cursor_advance n s : advance n s = at_cursor (n + rand_pos s) s.
Proof. reflexivity. Qed.

(** A loop over [unit] whose body reads [c] numbers reads [c * n]. *)
Lemma for_loop_exact (body : nat -> unit -> M unit) c :
  (forall i s, exists l, body i tt s = Ok tt (emit l (advance c s))) ->
  forall n i s, exists l, for_loop n i body tt s = Ok tt (emit l (advance (c * n) s)).
Proof.
  intros Hb. induction n as [|n IH]; intros i s.
  - exists []. rewrite emit_nil, Nat.mul_0_r, advance_0. reflexivity.
  - destruct (Hb i s) as [l1 E1].
    destruct (IH (S i) (emit l1 (advance c s))) as [l2 E2].
    exists (l1 ++ l2). cbn [for_loop]. rewrite (bind_Ok _ _ _ _ _ E1), E2, emit_emit.
    do 2 f_equal. unfold advance. f_equal. lia.
Qed.

Lemma dirt_loop_run n : forall i s,
  for_loop n i (dirt_mark host) tt s
  = Ok tt (emit (concat (map mark_ops
                   (marks_from host (width (canvas s)) (height (canvas s)) (rand_pos s) n)))
             (advance (8 * n) s)).
Proof.
  induction n as [|n IH]; intros i s.
  - cbn [for_loop]. rewrite Nat.mul_0_r, advance_0. unfold marks_from. cbn.
    now rewrite emit_nil.
  - cbn [for_loop]. rewrite (bind_Ok _ _ _ _ _ (dirt_mark_run i s)), IH, emit_emit.
    f_equal. replace (8 * n + 8)%nat with (8 * S n)%nat by lia. f_equal.
    unfold marks_from. cbn [seq map concat]. cbn [emit advance with_canvas canvas width
      height rand_pos]. f_equal. f_equal.
    f_equal. rewrite <- seq_shift, map_map. apply map_ext. intros j. f_equal. lia.
Qed.

Lemma artifact_stage_run p s :
  let dc := dirt_count p (random_tape host (rand_pos s)) in
  artifact_stage host p s
  = Ok dc (emit (concat (map mark_ops
                   (marks_from host (width (canvas s)) (height (canvas s))
                      (S (rand_pos s)) (Z.to_nat dc))))
             (advance (8 * Z.to_nat dc + 1) s)).
Proof.
  intros dc. unfold artifact_stage.
  rewrite (bind_Ok _ _ _ _ _ (eq_refl : Math_random host s = Ok _ (advance 1 s))).
  fold dc. rewrite (bind_Ok _ _ _ _ _ (dirt_loop_run _ _ _)).
  mrun. state_eq.
Qed.

(** *** Overlays *)

Lemma gate_run knob threshold flip s :
  gate host knob threshold flip s
  = Ok (gate_passes knob threshold flip (random_tape host (rand_pos s)))
       (advance (if Qgtb knob threshold then 1 else 0) s).
Proof.
  unfold gate, gate_passes. destruct (Qgtb knob threshold); [reflexivity|].
  now rewrite advance_0.
Qed.

Lemma fog_run p s :
  exists l, fog host p s = Ok tt (emit l (advance 1 s)) /\ l <> [].
Proof. eexists. split; [unfold fog; state_eq | discriminate]. Qed.

Lemma rain_streak_run j s : exists l, rain_streak host j tt s = Ok tt (emit l (advance 3 s)).
Proof. eexists. unfold rain_streak. state_eq. Qed.

Lemma rain_run s :
  exists l, rain host s
    = Ok tt (emit l (advance (3 * iterations (100 + random_tape host (rand_pos s) * 200) + 1) s))
    /\ l <> [].
Proof.
  set (n := iterations (100 + random_tape host (rand_pos s) * 200)).
  set (s1 := emit [SetStrokeStyle (Color (rgba 255 255 255 0.2)); SetLineWidth 1]
               (advance 1 s)).
  destruct (for_loop_exact (rain_streak host) 3 rain_streak_run n 0 s1) as [l E].
  exists ([SetStrokeStyle (Color (rgba 255 255 255 0.2)); SetLineWidth 1] ++ l).
  split; [|discriminate].
  transitivity (for_loop n 0 (rain_streak host) tt s1).
  - unfold rain, s1. mrun. fold n. rewrite <- app_assoc. reflexivity.
  - rewrite E. unfold s1. now rewrite emit_emit.
Qed.

Lemma glare_run s :
  exists l, glare host s = Ok tt (emit l (advance 3 s)) /\ l <> [].
Proof. eexists. split; [unfold glare; state_eq | discriminate]. Qed.

Lemma when_run b (m : M unit) n s :
  (exists l, m s = Ok tt (emit l (advance n s)) /\ l <> []) ->
  exists l, when b m s = Ok tt (emit l (advance (if b then n else 0) s))
            /\ (l = [] <-> b = false).
Proof.
  intros (l & E & Hl). destruct b.
  - exists l. split; [exact E|]. split; [contradiction | discriminate].
  - exists []. split; [|tauto]. now rewrite emit_nil, advance_0.
Qed.

Lemma fog_end_eq p q :
  ((if gate_passes (harshness p) 50 0.5 (random_tape host q) then 1 else 0)
   + ((if Qgtb (harshness p) 50 then 1 else 0) + q))%nat = fog_end host p q.
Proof.
  unfold fog_end, gate_passes.
  destruct (Qgtb (harshness p) 50), (Qgtb (random_tape host q) 0.5); reflexivity.
Qed.

Lemma rain_end_eq p q :
  ((if gate_passes (harshness p) 70 0.6 (random_tape host q)
    then 3 * iterations (100 + random_tape host
                           ((if Qgtb (harshness p) 70 then 1 else 0) + q) * 200) + 1
    else 0)
   + ((if Qgtb (harshness p) 70 then 1 else 0) + q))%nat = rain_end host p q.
Proof.
  unfold rain_end, gate_passes.
  destruct (Qgtb (harshness p) 70), (Qgtb (random_tape host q) 0.6); cbn [andb Nat.add];
    try reflexivity.
  lia.
Qed.

Lemma glare_end_eq p q :
  ((if gate_passes (lightAging p) 60 0.7 (random_tape host q) then 3 else 0)
   + ((if Qgtb (lightAging p) 60 then 1 else 0) + q))%nat = glare_end host p q.
Proof.
  unfold glare_end, gate_passes.
  destruct (Qgtb (lightAging p) 60), (Qgtb (random_tape host q) 0.7); reflexivity.
Qed.

Lemma overlay_stage_run p s :
  let q0 := rand_pos s in
  let q1 := fog_end host p q0 in
  let q2 := rain_end host p q1 in
  let ov := {| fogged := gate_passes (harshness p) 50 0.5 (random_tape host q0);
               rained := gate_passes (harshness p) 70 0.6 (random_tape host q1);
               glared := gate_passes (lightAging p) 60 0.7 (random_tape host q2) |} in
  exists lf lr lg,
    overlay_stage host p s = Ok ov (emit (lf ++ lr ++ lg) (at_cursor (glare_end host p q2) s))
    /\ (lf = [] <-> fogged ov = false)
    /\ (lr = [] <-> rained ov = false)
    /\ (lg = [] <-> glared ov = false).
Proof.
  intros q0 q1 q2 ov. unfold overlay_stage, fog_gate, rain_gate, glare_gate.
  rewrite (bind_Ok _ _ _ _ _ (gate_run _ _ _ s)).
  set (s1 := advance _ s).
  destruct (when_run (gate_passes (harshness p) 50 0.5 (random_tape host q0)) _ 1 s1
              (fog_run p s1)) as (l1 & E1 & N1).
  fold q0. rewrite (bind_Ok _ _ _ _ _ E1).
  set (s2 := emit l1 _).
  assert (R2 : rand_pos s2 = q1) by apply fog_end_eq.
  rewrite (bind_Ok _ _ _ _ _ (gate_run _ _ _ s2)), R2.
  set (s3 := advance _ s2).
  destruct (when_run (gate_passes (harshness p) 70 0.6 (random_tape host q1)) _ _ s3
              (rain_run s3)) as (l2 & E2 & N2).
  rewrite (bind_Ok _ _ _ _ _ E2).
  set (s4 := emit l2 _).
  assert (R4 : rand_pos s4 = q2).
  { subst s4 s3. cbn [emit advance with_canvas rand_pos]. rewrite R2. apply rain_end_eq. }
  rewrite (bind_Ok _ _ _ _ _ (gate_run _ _ _ s4)), R4.
  set (s5 := advance _ s4).
  destruct (when_run (gate_passes (lightAging p) 60 0.7 (random_tape host q2)) _ 3 s5
              (glare_run s5)) as (l3 & E3 & N3).
  rewrite (bind_Ok _ _ _ _ _ E3).
  exists l1, l2, l3. split; [|auto].
  cbv beta iota delta [mret M_ret ret]. f_equal.
  assert (R6 : rand_pos (emit l3 (advance (if gate_passes (lightAging p) 60 0.7
                (random_tape host q2) then 3 else 0) s5)) = glare_end host p q2).
  { subst s5. cbn [emit advance with_canvas rand_pos]. rewrite R4. apply glare_end_eq. }
  apply state_ext; [exact R6 | reflexivity | reflexivity | reflexivity | | reflexivity].
  subst s5 s4 s3 s2 s1.
  cbn [emit advance at_cursor with_canvas canvas ops]. now rewrite <- !app_assoc.
Qed.

End Runs.

(** ** The pixel loop *)

Lemma lookup_store data j x i :
  store data j x !! i
  = if decide (j = i) then (fun _ => ToUint8Clamp x) <$> data !! i else data !! i.
Proof.
  unfold store. rewrite list_lookup_insert.
  destruct (decide (j = i)) as [->|Hne].
  - destruct (decide (i = i /\ (i < length data)%nat)) as [[_ Hlt]|Hn].
    + apply lookup_lt_is_Some_2 in Hlt. destruct Hlt as [v ->]. reflexivity.
    + rewrite (lookup_ge_None_2 data i); [reflexivity|].
      destruct (Nat.le_gt_cases (length data) i); [assumption | tauto].
  - destruct (decide (j = i /\ (j < length data)%nat)) as [[E _]|_]; [contradiction|].
    reflexivity.
Qed.

Lemma length_store data j x : length (store data j x) = length data.
Proof. apply length_insert. Qed.

Section PixelLoop.

Variable host : Host.
Variable p : AugmentationParams.
Variable ph : Photo.

Lemma adjust_byte_lookup i d c j :
  adjust_byte host ph i d c !! j
  = if decide ((i + c)%nat = j)
    then (fun v => ToUint8Clamp (adjust_channel host ph c v)) <$> d !! j
    else d !! j.
Proof.
  unfold adjust_byte. destruct (d !! (i + c)%nat) as [v|] eqn:E.
  - rewrite lookup_store. destruct (decide ((i + c)%nat = j)) as [<-|]; [|reflexivity].
    now rewrite E.
  - destruct (decide ((i + c)%nat = j)) as [<-|]; [|reflexivity]. now rewrite E.
Qed.

Lemma length_adjust_byte i d c : length (adjust_byte host ph i d c) = length d.
Proof. unfold adjust_byte. destruct (d !! (i + c)%nat); [apply length_store | reflexivity]. Qed.

Lemma length_adjust_pixel i d : length (adjust_pixel host ph i d) = length d.
Proof. unfold adjust_pixel. cbn [seq fold_left]. now rewrite !length_adjust_byte. Qed.

Lemma adjust_pixel_other i d j :
  (j < i \/ i + 3 <= j)%nat -> adjust_pixel host ph i d !! j = d !! j.
Proof.
  intros H. unfold adjust_pixel. cbn [seq fold_left]. rewrite !adjust_byte_lookup.
  repeat (destruct (decide _); [lia|]). reflexivity.
Qed.

Lemma adjust_pixel_channel i d c :
  (c < 3)%nat ->
  adjust_pixel host ph i d !! (i + c)%nat
  = (fun v => ToUint8Clamp (adjust_channel host ph c v)) <$> d !! (i + c)%nat.
Proof.
  intros H. unfold adjust_pixel. cbn [seq fold_left]. rewrite !adjust_byte_lookup.
  destruct c as [|[|[|c]]]; [| | |lia];
    repeat (destruct (decide _); try lia); reflexivity.
Qed.

Lemma salt_pepper_run i data s :
  let q := rand_pos s in
  let noiseColor := noise_color (random_tape host (S q)) in
  salt_pepper host p i data s
  = Ok (if noise_fires p (random_tape host q)
        then store (store (store data (i + 2) noiseColor) (i + 1) noiseColor) i noiseColor
        else data)
       (at_cursor (noise_cursor host p q 1) s).
Proof.
  intros q noiseColor. unfold salt_pepper. cbn [noise_cursor]. fold q.
  rewrite (bind_Ok _ _ _ _ _ (eq_refl : Math_random host s = Ok _ (advance 1 s))).
  fold q. destruct (noise_fires p (random_tape host q)); reflexivity.
Qed.

Lemma pixel_body_run k data s :
  let q := rand_pos s in
  exists data',
    pixel_body host p ph k data s = Ok data' (at_cursor (noise_cursor host p q 1) s)
    /\ length data' = length data
    /\ (forall j, (j < 4 * k \/ 4 * k + 3 <= j)%nat -> data' !! j = data !! j)
    /\ (forall c, (c < 3)%nat ->
          data' !! (4 * k + c)%nat
          = channel_result host p ph q c <$> data !! (4 * k + c)%nat).
Proof.
  intros q. unfold pixel_body. rewrite salt_pepper_run. fold q.
  eexists. split; [reflexivity|]. unfold channel_result.
  destruct (noise_fires p (random_tape host q)).
  - split; [|split].
    + now rewrite !length_store, length_adjust_pixel.
    + intros j Hj. rewrite !lookup_store.
      repeat (destruct (decide _); [lia|]). now apply adjust_pixel_other.
    + intros c Hc. rewrite !lookup_store, adjust_pixel_channel by assumption.
      destruct c as [|[|[|c]]]; [| | |lia];
        repeat (destruct (decide _); try lia);
        now destruct (data !! _).
  - split; [|split].
    + apply length_adjust_pixel.
    + intros j Hj. now apply adjust_pixel_other.
    + intros c Hc. now apply adjust_pixel_channel.
Qed.

Lemma at_cursor_self s q : rand_pos s = q -> at_cursor q s = s.
Proof. intros <-. now destruct s. Qed.

Lemma pixel_loop_run r n : forall k0 data s,
  rand_pos s = noise_cursor host p r k0 ->
  exists data',
    for_loop n k0 (pixel_body host p ph) data s
    = Ok data' (at_cursor (noise_cursor host p r (n + k0)) s)
    /\ length data' = length data
    /\ (forall j, (j < 4 * k0 \/ 4 * (n + k0) <= j)%nat -> data' !! j = data !! j)
    /\ (forall k, (k0 <= k < n + k0)%nat ->
          pixel_done host p ph data data' k (noise_cursor host p r k)).
Proof.
  induction n as [|n IH]; intros k0 data s Hs.
  - exists data. cbn [for_loop Nat.add]. rewrite at_cursor_self by assumption.
    repeat split; try reflexivity; lia.
  - destruct (pixel_body_run k0 data s) as (d1 & E1 & L1 & O1 & C1).
    rewrite Hs in E1, C1.
    destruct (IH (S k0) d1 (at_cursor (noise_cursor host p (noise_cursor host p r k0) 1) s)
                eq_refl) as (d2 & E2 & L2 & O2 & C2).
    exists d2. cbn [for_loop]. rewrite (bind_Ok _ _ _ _ _ E1), E2.
    replace (n + S k0)%nat with (S n + k0)%nat in * by lia.
    split; [reflexivity|]. split; [congruence|]. split.
    + intros j Hj. rewrite O2 by lia. apply O1. lia.
    + intros k Hk. destruct (Nat.eq_dec k k0) as [->|Hne].
      * split.
        -- rewrite O2 by lia. apply O1. lia.
        -- intros c Hc. rewrite O2 by lia. now apply C1.
      * destruct (C2 k ltac:(lia)) as [A2 B2]. split.
        -- rewrite A2. apply O1. lia.
        -- intros c Hc. rewrite (B2 c Hc). f_equal. apply O1. lia.
Qed.

End PixelLoop.

Lemma pixel_count_bitmap host c w h : pixel_count (bitmap_bytes host c w h) = (w * h)%nat.
Proof.
  unfold pixel_count. rewrite length_bitmap_bytes, <- Nat.mul_assoc, (Nat.mul_comm 4).
  rewrite Nat.div_add_l by lia. cbn. lia.
Qed.

Lemma photometric_draws_run host p s :
  let u := fun i => random_tape host (i + rand_pos s) in
  exists ph,
    photometric_draws host p s = Ok ph (advance 7 s)
    /\ pBrightness ph = (lightAging p / 100) * (u 0%nat - 0.5) * 150
    /\ pContrast ph = 0.5 + u 1%nat * (lightAging p / 50)
    /\ pGamma ph = 0.5 + u 2%nat * (lightAging p / 50)
    /\ hueRotation ph = (lightAging p / 100) * 360 * u 3%nat
    /\ rGain ph = 0.8 + u 4%nat * 0.4
    /\ gGain ph = 0.8 + u 5%nat * 0.4
    /\ bGain ph = 0.8 + u 6%nat * 0.4.
Proof.
  intros u. eexists. split; [unfold photometric_draws; mrun; reflexivity|].
  repeat split.
Qed.

Lemma pixel_stage_run host p s :
  positive s ->
  let w := width (canvas s) in
  let h := height (canvas s) in
  let din := bitmap_bytes host (canvas s) w h in
  let r := (7 + rand_pos s)%nat in
  exists ph dout,
    photometric_draws host p s = Ok ph (advance 7 s)
    /\ pixel_stage host p s
       = Ok tt (emit [PutImageData dout 0 0] (at_cursor (noise_cursor host p r (w * h)) s))
    /\ length dout = (4 * w * h)%nat
    /\ (forall k, (k < w * h)%nat ->
          pixel_done host p ph din dout k (noise_cursor host p r k)).
Proof.
  intros Hs w h din r.
  destruct (photometric_draws_run host p s) as (ph & Eph & _).
  destruct (pixel_loop_run host p ph r (w * h) 0 din (advance 7 s) eq_refl)
    as (dout & El & Ll & _ & Dl).
  exists ph, dout. split; [exact Eph|]. split; [|split].
  - unfold pixel_stage.
    rewrite (bind_Ok _ _ _ _ _ (eq_refl : canvas_width s = Ok w s)).
    rewrite (bind_Ok _ _ _ _ _ (eq_refl : canvas_height s = Ok h s)).
    rewrite (bind_Ok _ _ _ _ _ (getImageData_positive host s Hs)).
    fold w h din. rewrite (bind_Ok _ _ _ _ _ Eph).
    unfold din at 1. rewrite pixel_count_bitmap. fold din.
    rewrite (bind_Ok _ _ _ _ _ El), Nat.add_0_r. state_eq.
  - rewrite Ll. apply length_bitmap_bytes.
  - intros k Hk. apply Dl. lia.
Qed.

(** ** The index in a file name *)

Lemma digit_of_pretty d : (d < 10)%N -> digit_of (pretty_N_char d) = Some d.
Proof.
  intros H.
  assert (C : (d = 0 \/ d = 1 \/ d = 2 \/ d = 3 \/ d = 4 \/ d = 5 \/ d = 6 \/ d = 7
               \/ d = 8 \/ d = 9)%N) by lia.
  repeat (destruct C as [-> | C]; [reflexivity|]). now subst.
Qed.

Lemma pretty_char_not_underscore d : Ascii.eqb (pretty_N_char d) "_" = false.
Proof. unfold pretty_N_char. repeat (case_match; try reflexivity). Qed.

Lemma pretty_N_go_app x : forall s r, pretty_N_go x s +:+ r = pretty_N_go x (s +:+ r).
Proof.
  induction (N.lt_wf_0 x) as [x _ IH]. intros s r.
  destruct (decide (0 < x)%N) as [Hx|Hx].
  - rewrite (pretty_N_go_step x s), (pretty_N_go_step x (s +:+ r)) by assumption.
    rewrite IH by (apply N.div_lt; lia). reflexivity.
  - replace x with 0%N by lia. now rewrite !pretty_N_go_0.
Qed.

Lemma name_index_skip x : forall s, name_index (pretty_N_go x s) = name_index s.
Proof.
  induction (N.lt_wf_0 x) as [x _ IH]. intros s.
  destruct (decide (0 < x)%N) as [Hx|Hx].
  - rewrite pretty_N_go_step by assumption.
    rewrite IH by (apply N.div_lt; lia). cbn [name_index].
    now rewrite pretty_char_not_underscore.
  - replace x with 0%N by lia. now rewrite pretty_N_go_0.
Qed.

Lemma read_index_pretty x :
  (0 < x)%N ->
  exists k, forall b acc s,
    read_index b acc (pretty_N_go x s) = read_index true (acc * 10 ^ k + x) s.
Proof.
  induction (N.lt_wf_0 x) as [x _ IH]. intros Hx.
  assert (Hd : (x `mod` 10 < 10)%N) by (apply N.mod_lt; lia).
  pose proof (N.div_mod x 10 ltac:(lia)) as Hdm.
  destruct (decide (0 < x `div` 10)%N) as [Hq|Hq].
  - destruct (IH (x `div` 10)%N ltac:(apply N.div_lt; lia) Hq) as [k Hk].
    exists (k + 1)%N. intros b acc s.
    rewrite pretty_N_go_step, Hk by assumption. cbn [read_index].
    rewrite digit_of_pretty by assumption. f_equal.
    rewrite N.pow_add_r. lia.
  - exists 1%N. intros b acc s.
    rewrite pretty_N_go_step by assumption.
    replace (x `div` 10)%N with 0%N by lia. rewrite pretty_N_go_0. cbn [read_index].
    rewrite digit_of_pretty by assumption. f_equal. lia.
Qed.

Lemma read_index_stop b acc c s :
  Ascii.eqb c "_" = true -> read_index b acc (String c s) = None.
Proof.
  intros H. apply Ascii.eqb_eq in H. subst c. cbn. now rewrite andb_false_r.
Qed.

Lemma read_index_timestamp (t : Z) X : read_index false 0 (pretty t +:+ String "_" X) = None.
Proof.
  destruct t as [|q|q]; cbn [pretty pretty_Z].
  - reflexivity.
  - unfold pretty, pretty_positive, pretty, pretty_N.
    destruct (decide (N.pos q = 0%N)) as [E|_]; [discriminate|].
    rewrite pretty_N_go_app.
    destruct (read_index_pretty (N.pos q) ltac:(lia)) as [k Hk]. rewrite Hk.
    now apply read_index_stop.
  - reflexivity.
Qed.

Lemma name_index_timestamp (t : Z) R : name_index (pretty t +:+ R) = name_index R.
Proof.
  destruct t as [|q|q]; cbn [pretty pretty_Z].
  - reflexivity.
  - unfold pretty, pretty_positive, pretty, pretty_N.
    destruct (decide (N.pos q = 0%N)) as [E|_]; [discriminate|].
    rewrite pretty_N_go_app. apply name_index_skip.
  - change (("-" +:+ ?a) +:+ R) with (String "-" (a +:+ R)).
    cbn [name_index]. change (Ascii.eqb "-" "_") with false. cbv iota.
    unfold pretty, pretty_positive, pretty, pretty_N.
    destruct (decide (N.pos q = 0%N)) as [E|_]; [discriminate|].
    rewrite pretty_N_go_app. apply name_index_skip.
Qed.

Lemma read_index_of_index (i : nat) :
  read_index false 0 (pretty i +:+ ".jpg") = Some (N.of_nat i).
Proof.
  unfold pretty, pretty_nat, pretty, pretty_N.
  destruct (decide (N.of_nat i = 0%N)) as [E|E].
  - rewrite E. reflexivity.
  - rewrite pretty_N_go_app.
    destruct (read_index_pretty (N.of_nat i) ltac:(lia)) as [k Hk]. rewrite Hk.
    cbn [read_index digit_of N_of_ascii]. cbn. f_equal; lia.
Qed.

Lemma name_index_file_name t i : name_index (file_name t i) = Some i.
Proof.
  unfold file_name.
  change ("aug_" +:+ ?x) with (String "a" (String "u" (String "g" (String "_" x)))).
  cbn [name_index Ascii.eqb Bool.eqb].
  change ("_" +:+ ?x) with (String "_" x).
  rewrite read_index_timestamp, name_index_timestamp.
  cbn [name_index Ascii.eqb Bool.eqb].
  rewrite read_index_of_index. now rewrite Nat2N.id.
Qed.

(** ** One sample, and the batch *)

Lemma noise_cursor_ge host p r k : (r <= noise_cursor host p r k)%nat.
Proof.
  induction k as [|k IH]; cbn [noise_cursor]; [lia|].
  destruct (noise_fires _ _); lia.
Qed.



Lemma fog_end_ge host p q : (q <= fog_end host p q)%nat.
Proof. unfold fog_end. destruct (Qgtb _ _); [destruct (Qgtb _ _)|]; lia. Qed.

Lemma rain_end_ge host p q : (q <= rain_end host p q)%nat.
Proof. unfold rain_end. destruct (Qgtb _ _); [destruct (Qgtb _ _)|]; lia. Qed.

Lemma glare_end_ge host p q : (q <= glare_end host p q)%nat.
Proof. unfold glare_end. destruct (Qgtb _ _); [destruct (Qgtb _ _)|]; lia. Qed.

Lemma fresh_canvas_run {A} img (k : M A) s :
  (createCanvas;; set_width (img_width img);; set_height (img_height img);; k) s
  = k (with_canvas {| width := img_width img; height := img_height img; ops := [] |} s).
Proof. reflexivity. Qed.

Lemma start_batch_run {A} (k : M A) s :
  (setIsProcessing true;; setResults [];; k) s
  = k (with_ui {| sourceImage := sourceImage (ui s); isProcessing := true;
                  results := []; params := params (ui s) |} s).
Proof. reflexivity. Qed.

Section Samples.

Variable host : Host.
Variable img : Image.
Variable p : AugmentationParams.

Hypothesis img_wide : (0 < img_width img)%nat.
Hypothesis img_high : (0 < img_height img)%nat.

Lemma applyAugmentation_run index s :
  exists g s',
    applyAugmentation host img p index s = Ok g s'
    /\ sample_ok host img index g
    /\ name g = file_name (clock_tape host (clock_pos s)) index
    /\ (exists geo, rot geo = (random_tape host (rand_pos s) - 0.5) * 40
                              * (if (index =? 0)%nat then 0 else 1)
                    /\ exists rest, ops (encoded (dataUrl g))
                         = geometry_ops img (img_width img) (img_height img) geo ++ rest)
    /\ encoded (dataUrl g) = canvas s'
    /\ ui s' = ui s
    /\ clock_pos s' = S (clock_pos s)
    /\ (rand_pos s < rand_pos s')%nat.
Proof.
  unfold applyAugmentation. rewrite fresh_canvas_run.
  set (s0 := with_canvas {| width := img_width img; height := img_height img; ops := [] |} s).
  destruct (geometric_stage_run host img index s0) as (geo & Eg & _ & Rg).
  rewrite (bind_Ok _ _ _ _ _ Eg).
  set (s1 := emit _ (advance 7 s0)).
  assert (P1 : positive s1) by (split; assumption).
  destruct (pixel_stage_run host p s1 P1) as (ph & dout & _ & Ep & Lp & _).
  rewrite (bind_Ok _ _ _ _ _ Ep).
  set (s2 := emit _ (at_cursor _ s1)).
  destruct (overlay_stage_run host p s2) as (lf & lr & lg & Eo & _).
  rewrite (bind_Ok _ _ _ _ _ Eo).
  set (lo := lf ++ lr ++ lg) in *.
  set (s3 := emit lo _).
  rewrite (bind_Ok _ _ _ _ _ (artifact_stage_run host p s3)).
  set (s4 := emit _ (advance _ s3)).
  eexists _, _. split; [mrun; reflexivity|].
  assert (Hops : ops (canvas s4)
     = geometry_ops img (img_width img) (img_height img) geo
       ++ PutImageData dout 0 0
          :: (lo ++ concat (map mark_ops (marks_from host (width (canvas s3))
                 (height (canvas s3)) (S (rand_pos s3))
                 (Z.to_nat (dirt_count p (random_tape host (rand_pos s3))))))) ).
  { subst s4 s3 s2 s1 s0. cbn [emit advance at_cursor with_canvas canvas ops width height].
    cbn [app]. rewrite <- !app_assoc. reflexivity. }
  cbn [id name dataUrl encoded canvas ui clock_pos rand_pos].
  split; [|split; [|split; [|split; [|split; [|split]]]]]; try reflexivity.
  - unfold sample_ok. cbn [id name dataUrl encoded].
    split; [reflexivity|]. split; [eauto|]. split; [reflexivity|]. split; [reflexivity|].
    exists geo, (rand_pos s), dout. eexists. split; [exact Hops|]. split; [exact Rg|exact Lp].
  - exists geo. split; [exact Rg|]. eexists. exact Hops.
  - subst s4 s3 s2 s1. cbn [emit advance at_cursor with_canvas rand_pos].
    match goal with |- context [glare_end _ _ (rain_end _ _ (fog_end _ _ ?c))] =>
      pose proof (glare_end_ge host p (rain_end host p (fog_end host p c)));
      pose proof (rain_end_ge host p (fog_end host p c));
      pose proof (fog_end_ge host p c);
      match c with noise_cursor _ _ ?r ?k => pose proof (noise_cursor_ge host p r k) end
    end.
    subst s0. cbn [rand_pos with_canvas] in *. lia.
Qed.

Lemma generate_loop_run count s :
  exists l s',
    generate_loop host img p count s = Ok l s'
    /\ length l = count
    /\ ui s' = ui s
    /\ (forall i g, l !! i = Some g -> sample_ok host img i g).
Proof.
  unfold generate_loop.
  pose (I := fun (i : nat) (acc : list GeneratedImage) (s' : State) =>
               length acc = i /\ ui s' = ui s /\
               forall j g, acc !! j = Some g -> sample_ok host img j g).
  assert (H : wp (for_loop count 0
                   (fun i newResults => res ← applyAugmentation host img p i;
                                        mret (newResults ++ [res])) [])
                (I (count + 0)%nat) s).
  { apply (wp_for_loop I).
    - intros i acc s1 (L & U & G). apply wp_bind.
      destruct (applyAugmentation_run i s1) as (g & s2 & E & Hg & _ & _ & _ & U2 & _).
      unfold wp at 1. rewrite E. cbn. split; [|split].
      + rewrite length_app. cbn. lia.
      + congruence.
      + intros j g' Hj. destruct (Nat.lt_ge_cases j (length acc)) as [Hlt|Hge].
        * rewrite lookup_app_l in Hj by assumption. eauto.
        * rewrite lookup_app_r in Hj by assumption.
          destruct (j - length acc)%nat as [|d] eqn:Ed; [|now destruct d].
          injection Hj as <-. replace j with i by lia. exact Hg.
    - split; [reflexivity|]. split; [reflexivity|]. intros j g Hj. discriminate. }
  apply wp_ok in H. destruct H as (l & s' & E & L & U & G).
  exists l, s'. rewrite Nat.add_0_r in L. auto.
Qed.

End Samples.

Lemma for_loop_Throw {A} (body : nat -> A -> M A) n i acc s e s' :
  body i acc s = Throw e s' -> for_loop (S n) i body acc s = Throw e s'.
Proof. intros E. cbn [for_loop]. now apply bind_Throw. Qed.

Lemma handleGenerate_none host s :
  sourceImage (ui s) = None -> handleGenerate host s = Ok tt s.
Proof.
  intros E. unfold handleGenerate.
  rewrite (bind_Ok _ _ _ _ _ (eq_refl : get_ui s = Ok (ui s) s)), E. reflexivity.
Qed.

Lemma handleGenerate_run host s img :
  sourceImage (ui s) = Some img ->
  (0 < img_width img)%nat -> (0 < img_height img)%nat ->
  exists s',
    handleGenerate host s = Ok tt s'
    /\ length (results (ui s')) = AUGMENTATION_COUNT
    /\ isProcessing (ui s') = false
    /\ sourceImage (ui s') = Some img
    /\ params (ui s') = params (ui s)
    /\ (forall i g, results (ui s') !! i = Some g -> sample_ok host img i g).
Proof.
  intros E Hw Hh. unfold handleGenerate.
  rewrite (bind_Ok _ _ _ _ _ (eq_refl : get_ui s = Ok (ui s) s)), E.
  rewrite start_batch_run.
  match goal with |- context [(generate_loop _ _ _ _ ≫= _) ?s1] =>
    destruct (generate_loop_run host img (params (ui s)) Hw Hh AUGMENTATION_COUNT s1)
      as (l & s2 & El & Ll & Ul & Gl)
  end.
  rewrite (bind_Ok _ _ _ _ _ El).
  eexists. split; [mrun; reflexivity|].
  cbn [ui results isProcessing sourceImage params]. rewrite Ul.
  cbn [with_ui ui sourceImage params]. auto.
Qed.

Lemma handleGenerate_zero host s img :
  sourceImage (ui s) = Some img ->
  (img_width img = 0 \/ img_height img = 0)%nat ->
  exists s' geo,
    handleGenerate host s = Throw IndexSizeError s'
    /\ results (ui s') = []
    /\ isProcessing (ui s') = true
    /\ rand_pos s' = (7 + rand_pos s)%nat
    /\ ops (canvas s') = geometry_ops img (img_width img) (img_height img) geo.
Proof.
  intros E Hz. unfold handleGenerate.
  rewrite (bind_Ok _ _ _ _ _ (eq_refl : get_ui s = Ok (ui s) s)), E.
  rewrite start_batch_run.
  match goal with |- context [(generate_loop _ _ _ _ ≫= _) ?s1] => set (sa := s1) end.
  set (s0 := with_canvas {| width := img_width img; height := img_height img; ops := [] |} sa).
  destruct (geometric_stage_run host img 0 s0) as (geo & Eg & _).
  set (s1 := emit (geometry_ops img (width (canvas s0)) (height (canvas s0)) geo)
               (advance 7 s0)) in *.
  exists s1, geo.
  assert (T : applyAugmentation host img (params (ui s)) 0 sa = Throw IndexSizeError s1).
  { unfold applyAugmentation. rewrite fresh_canvas_run. fold s0.
    rewrite (bind_Ok _ _ _ _ _ Eg).
    apply bind_Throw. unfold pixel_stage.
    rewrite (bind_Ok _ _ _ _ _ (eq_refl : canvas_width s1 = Ok _ s1)).
    rewrite (bind_Ok _ _ _ _ _ (eq_refl : canvas_height s1 = Ok _ s1)).
    apply bind_Throw, getImageData_zero. exact Hz. }
  split; [|repeat split].
  apply bind_Throw. unfold generate_loop, AUGMENTATION_COUNT.
  apply for_loop_Throw, bind_Throw, T.
Qed.

(** * The claims *)

(** C1. One call of the orchestrator on a source of positive size sets the
    results to exactly [AUGMENTATION_COUNT] samples, and its loop run for
    any count [N] yields exactly [N]; in both, the sample at position [i]
    has [id] equal to [i] and the file name [aug_<timestamp>_<i>.jpg],
    from which the index [i] is read back. *)
Theorem C1_batch_of_N_in_generation_order host s img :
  sourceImage (ui s) = Some img ->
  (0 < img_width img)%nat -> (0 < img_height img)%nat ->
  (exists s',
     handleGenerate host s = Ok tt s'
     /\ length (results (ui s')) = AUGMENTATION_COUNT
     /\ forall i, (i < AUGMENTATION_COUNT)%nat ->
          exists g timestamp,
            results (ui s') !! i = Some g /\ id g = i
            /\ name g = file_name timestamp i /\ name_index (name g) = Some i)
  /\ (forall N, exists l s',
         generate_loop host img (params (ui s)) N s = Ok l s'
         /\ length l = N
         /\ forall i, (i < N)%nat ->
              exists g timestamp,
                l !! i = Some g /\ id g = i
                /\ name g = file_name timestamp i /\ name_index (name g) = Some i).
Proof.
  intros E Hw Hh. split.
  - destruct (handleGenerate_run host s img E Hw Hh) as (s' & Er & L & _ & _ & _ & G).
    exists s'. split; [exact Er|]. split; [exact L|].
    intros i Hi. rewrite <- L in Hi. apply lookup_lt_is_Some_2 in Hi.
    destruct Hi as [g Hg]. destruct (G i g Hg) as (I & (t & Hn) & _).
    exists g, t. rewrite Hn at 2. auto using name_index_file_name.
  - intros N.
    destruct (generate_loop_run host img (params (ui s)) Hw Hh N s) as (l & s' & Er & L & _ & G).
    exists l, s'. split; [exact Er|]. split; [exact L|].
    intros i Hi. rewrite <- L in Hi. apply lookup_lt_is_Some_2 in Hi.
    destruct Hi as [g Hg]. destruct (G i g Hg) as (I & (t & Hn) & _).
    exists g, t. rewrite Hn at 2. auto using name_index_file_name.
Qed.

Lemma C1_witness :
  exists s',
    handleGenerate test_host (initial_state (Some (gray_image 2 2)) default_params) = Ok tt s'
    /\ length (results (ui s')) = 20%nat.
Proof.
  destruct (C1_batch_of_N_in_generation_order test_host
              (initial_state (Some (gray_image 2 2)) default_params) (gray_image 2 2)
              eq_refl (Nat.lt_0_succ 1) (Nat.lt_0_succ 1)) as [(s' & E & L & _) _].
  exists s'. split; [exact E | exact L].
Defined.

(** C2, as the code has it.  The orchestrator checks only that a source
    image is present: without one it returns at once, no stage runs, no
    draw is made and the component state is untouched.  A source with a
    zero dimension is not rejected up front: the geometric stage of sample
    0 runs and makes its seven draws, then reading the pixels back throws
    [IndexSizeError]; the results stay empty. *)
Theorem C2_only_the_presence_of_a_source_is_checked host s :
  (sourceImage (ui s) = None -> handleGenerate host s = Ok tt s)
  /\ (forall img,
        sourceImage (ui s) = Some img ->
        (img_width img = 0 \/ img_height img = 0)%nat ->
        exists s' geo,
          handleGenerate host s = Throw IndexSizeError s'
          /\ results (ui s') = []
          /\ rand_pos s' = (7 + rand_pos s)%nat
          /\ ops (canvas s') = geometry_ops img (img_width img) (img_height img) geo).
Proof.
  split.
  - apply handleGenerate_none.
  - intros img E Hz.
    destruct (handleGenerate_zero host s img E Hz) as (s' & geo & T & R & _ & P & O).
    exists s', geo. auto.
Qed.

Lemma C2_witness :
  handleGenerate test_host (initial_state None default_params)
  = Ok tt (initial_state None default_params)
  /\ exists s',
       handleGenerate test_host (initial_state (Some (gray_image 0 2)) default_params)
       = Throw IndexSizeError s'
       /\ rand_pos s' = 7%nat.
Proof.
  split.
  - exact (proj1 (C2_only_the_presence_of_a_source_is_checked test_host
                    (initial_state None default_params)) eq_refl).
  - destruct (proj2 (C2_only_the_presence_of_a_source_is_checked test_host
                       (initial_state (Some (gray_image 0 2)) default_params))
                (gray_image 0 2) eq_refl (or_introl eq_refl))
      as (s' & geo & T & _ & P & _).
    exists s'. split; [exact T | exact P].
Defined.

(** C2 as stated fails: on a source of width 0 the call does not stop
    before the first draw; seven draws are made and the geometric stage
    has issued its calls when the exception is thrown. *)
Lemma C2_counterexample :
  ~ rejects_up_front test_host (initial_state (Some (gray_image 0 2)) default_params).
Proof.
  unfold rejects_up_front.
  destruct (handleGenerate_zero test_host
              (initial_state (Some (gray_image 0 2)) default_params) (gray_image 0 2)
              eq_refl (or_introl eq_refl)) as (s' & geo & -> & _ & _ & P & _).
  intros [R _]. rewrite P in R. cbn in R. discriminate.
Qed.

Lemma keeps_size_emit {A} (m : M A) :
  (forall s a s', m s = Ok a s' -> exists l q, s' = emit l (at_cursor q s)) ->
  keeps_size m.
Proof.
  intros H s a s' E. destruct (H s a s' E) as (l & q & ->). split; reflexivity.
Qed.

Lemma keeps_size_geometric_stage host img index :
  keeps_size (geometric_stage host img index).
Proof.
  apply keeps_size_emit. intros s a s' E.
  destruct (geometric_stage_run host img index s) as (g & Eg & _).
  rewrite Eg in E. injection E as _ <-. eauto.
Qed.

Lemma keeps_size_pixel_stage host p : keeps_size (pixel_stage host p).
Proof.
  intros s a s' E.
  destruct (width (canvas s)) as [|w] eqn:Ew;
    [|destruct (height (canvas s)) as [|h] eqn:Eh].
  3: { assert (Hs : positive s) by (split; lia).
       destruct (pixel_stage_run host p s Hs) as (ph & dout & _ & Ep & _).
       rewrite Ep in E. injection E as _ <-. cbn. auto. }
  all: exfalso; unfold pixel_stage in E;
    rewrite (bind_Ok _ _ _ _ _ (eq_refl : canvas_width s = Ok _ s)) in E;
    rewrite (bind_Ok _ _ _ _ _ (eq_refl : canvas_height s = Ok _ s)) in E;
    rewrite (bind_Throw _ _ _ _ _ (getImageData_zero host s ltac:(lia))) in E;
    discriminate.
Qed.

Lemma keeps_size_overlay_stage host p : keeps_size (overlay_stage host p).
Proof.
  apply keeps_size_emit. intros s a s' E.
  destruct (overlay_stage_run host p s) as (lf & lr & lg & El & _).
  rewrite El in E. injection E as _ <-. eauto.
Qed.

Lemma keeps_size_artifact_stage host p : keeps_size (artifact_stage host p).
Proof.
  apply keeps_size_emit. intros s a s' E.
  rewrite artifact_stage_run in E. injection E as _ <-.
  rewrite at_cursor_advance. eauto.
Qed.

(** C3. Every sample made from a source of positive size, by one call of
    [applyAugmentation] or in a batch, is encoded from a canvas with the
    width and the height of the source, and the pixels written back are
    [4 * width * height] bytes.  None of the four stages changes the size
    of the canvas, and on a canvas of positive size each of them runs to
    its end leaving the size and the earlier calls in place. *)
Theorem C3_output_has_the_dimensions_of_the_source host img p index s :
  (0 < img_width img)%nat -> (0 < img_height img)%nat ->
  (exists g s',
     applyAugmentation host img p index s = Ok g s'
     /\ width (encoded (dataUrl g)) = img_width img
     /\ height (encoded (dataUrl g)) = img_height img
     /\ exists dout,
          In (PutImageData dout 0 0) (ops (encoded (dataUrl g)))
          /\ length dout = (4 * img_width img * img_height img)%nat)
  /\ (sourceImage (ui s) = Some img ->
      exists s',
        handleGenerate host s = Ok tt s'
        /\ forall i g, results (ui s') !! i = Some g ->
             width (encoded (dataUrl g)) = img_width img
             /\ height (encoded (dataUrl g)) = img_height img)
  /\ (keeps_size (geometric_stage host img index)
      /\ keeps_size (pixel_stage host p)
      /\ keeps_size (overlay_stage host p)
      /\ keeps_size (artifact_stage host p))
  /\ (framed (geometric_stage host img index)
      /\ framed (pixel_stage host p)
      /\ framed (overlay_stage host p)
      /\ framed (artifact_stage host p)).
Proof.
  intros Hw Hh. split; [|split; [|split]].
  - destruct (applyAugmentation_run host img p Hw Hh index s)
      as (g & s' & E & (_ & _ & W & H & geo & q & dout & rest & O & _ & L) & _).
    exists g, s'. split; [exact E|]. split; [exact W|]. split; [exact H|].
    exists dout. split; [|exact L]. rewrite O. apply in_or_app. right. now left.
  - intros Es.
    destruct (handleGenerate_run host s img Es Hw Hh) as (s' & E & _ & _ & _ & _ & G).
    exists s'. split; [exact E|]. intros i g Hg.
    destruct (G i g Hg) as (_ & _ & W & H & _). auto.
  - auto using keeps_size_geometric_stage, keeps_size_pixel_stage,
      keeps_size_overlay_stage, keeps_size_artifact_stage.
  - auto using framed_geometric_stage, framed_pixel_stage, framed_overlay_stage,
      framed_artifact_stage.
Qed.

Lemma C3_witness :
  exists g s',
    applyAugmentation test_host (gray_image 3 2) default_params 1
      (initial_state (Some (gray_image 3 2)) default_params) = Ok g s'
    /\ width (encoded (dataUrl g)) = 3%nat
    /\ height (encoded (dataUrl g)) = 2%nat.
Proof.
  destruct (C3_output_has_the_dimensions_of_the_source test_host (gray_image 3 2)
              default_params 1 (initial_state (Some (gray_image 3 2)) default_params)
              (Nat.lt_0_succ 2) (Nat.lt_0_succ 1)) as [(g & s' & E & W & H & _) _].
  exists g, s'. auto.
Defined.

(** ** The uniform draw on a grid *)

Lemma grid_event t N j :
  Qgtb (Z.of_nat j # N) t = true
  <-> (Qfloor (t * inject_Z (Zpos N)) < Z.of_nat j)%Z.
Proof.
  rewrite Qgtb_true, Qmake_Qdiv.
  set (c := inject_Z (Z.pos N)). set (a := Z.of_nat j).
  assert (HN : 0 < c) by reflexivity.
  assert (Hd : inject_Z a / c * c == inject_Z a) by (field; lra).
  pose proof (Qfloor_le (t * c)) as Hl.
  pose proof (Qlt_floor (t * c)) as Hu.
  split; intros H.
  - rewrite Zlt_Qlt. eapply Qle_lt_trans; [exact Hl|].
    rewrite <- Hd. now apply Qmult_lt_compat_r.
  - apply Qlt_shift_div_l; [exact HN|].
    eapply Qlt_le_trans; [exact Hu|]. rewrite <- Zle_Qle. lia.
Qed.

Lemma grid_hits_count t N n :
  Z.of_nat (grid_hits (fun u => Qgtb u t) N n)
  = Z.max 0 (Z.of_nat n - Z.max 0 (Qfloor (t * inject_Z (Zpos N)) + 1)).
Proof.
  induction n as [|n IH]; [cbn; lia|].
  cbn [grid_hits]. rewrite Nat2Z.inj_add, IH.
  destruct (Qgtb (Z.of_nat n # N) t) eqn:E.
  - apply grid_event in E. lia.
  - assert (~ (Qfloor (t * inject_Z (Z.pos N)) < Z.of_nat n)%Z).
    { rewrite <- grid_event, E. discriminate. }
    lia.
Qed.

(** Among the [N] equally spaced draws [0/N, ..., (N-1)/N], the number
    above [t] is [N * prob_gt t] up to one draw. *)
Lemma prob_gt_on_grid t N :
  let hits := inject_Z (Z.of_nat (grid_hits (fun u => Qgtb u t) N (Pos.to_nat N))) in
  inject_Z (Zpos N) * prob_gt t - 1 <= hits /\ hits <= inject_Z (Zpos N) * prob_gt t.
Proof.
  cbv zeta. rewrite grid_hits_count, positive_nat_Z.
  set (T := t * inject_Z (Z.pos N)).
  pose proof (Qfloor_le T) as Hl. pose proof (Qlt_floor T) as Hu.
  rewrite inject_Z_plus in Hu. change (inject_Z 1) with 1 in Hu.
  assert (HN : 0 < inject_Z (Zpos N)) by reflexivity.
  unfold prob_gt, unit_clamp, Math_min, Math_max.
  destruct (Qle_bool 1 t) eqn:E1.
  - apply Qle_bool_iff in E1. change (Qle_bool 0 1) with true. cbv iota.
    assert (HF : (Z.pos N <= Qfloor T)%Z).
    { rewrite <- (Qfloor_Z (Z.pos N)). apply Qfloor_resp_le. unfold T. nra. }
    rewrite Z.max_l by lia. change (inject_Z 0) with 0. lra.
  - apply Qle_bool_false in E1. destruct (Qle_bool 0 t) eqn:E0.
    + apply Qle_bool_iff in E0.
      assert (HF : (0 <= Qfloor T < Z.pos N)%Z).
      { apply Qfloor_bounds; unfold T; change (inject_Z 0) with 0; nra. }
      rewrite (Z.max_r 0 (Qfloor T + 1)), Z.max_r by lia.
      unfold Zminus. rewrite !inject_Z_plus, inject_Z_opp, inject_Z_plus.
      change (inject_Z 1) with 1. fold T. unfold T in *. nra.
    + apply Qle_bool_false in E0.
      assert (HF : (Qfloor T < 0)%Z).
      { apply (Qfloor_bounds T (Qfloor T) 0); [exact Hl|].
        unfold T; change (inject_Z 0) with 0; nra. }
      rewrite (Z.max_l 0 (Qfloor T + 1)), Z.sub_0_r, Z.max_r by lia. lra.
Qed.

Lemma prob_gt_inside t : 0 <= t <= 1 -> prob_gt t == 1 - t.
Proof. intros H. unfold prob_gt. now rewrite unit_clamp_id. Qed.

(** ** C4 *)



Lemma test_tape_in_range : tape_in_range test_host.
Proof.
  intros n. cbn [random_tape test_host host_of]. unfold test_tape.
  pose proof (Z.mod_pos_bound (Z.of_nat n * 37) 100 eq_refl) as [H0 H1].
  unfold Qle, Qlt. cbn [Qnum Qden]. lia.
Qed.


(** ** C5 *)

Lemma grid_hits_ext ev1 ev2 N n :
  (forall u, ev1 u = ev2 u) -> grid_hits ev1 N n = grid_hits ev2 N n.
Proof. intros H. induction n as [|n IH]; [reflexivity|]. cbn [grid_hits]. now rewrite IH, H. Qed.

Lemma event_probability_ext ev1 ev2 pr1 pr2 :
  (forall u, ev1 u = ev2 u) -> pr1 == pr2 ->
  event_probability ev1 pr1 -> event_probability ev2 pr2.
Proof.
  intros He Hp H N. specialize (H N). cbv zeta in *.
  rewrite <- (grid_hits_ext ev1 ev2 N _ He), <- Hp. exact H.
Qed.

Lemma event_probability_gt t : event_probability (fun u => Qgtb u t) (prob_gt t).
Proof. intros N. apply prob_gt_on_grid. Qed.

Lemma event_probability_never : event_probability (fun _ => false) 0.
Proof.
  intros N. cbv zeta.
  replace (grid_hits (fun _ => false) N (Pos.to_nat N)) with O.
  - change (inject_Z (Z.of_nat 0)) with 0. lra.
  - induction (Pos.to_nat N) as [|n IH]; [reflexivity|]. cbn [grid_hits]. now rewrite <- IH.
Qed.

Lemma gate_passes_true knob threshold flip u :
  gate_passes knob threshold flip u = true <-> threshold < knob /\ flip < u.
Proof. unfold gate_passes. now rewrite andb_true_iff, !Qgtb_true. Qed.

Lemma gate_probability knob threshold flip pr :
  threshold < knob -> prob_gt flip == pr ->
  event_probability (gate_passes knob threshold flip) pr.
Proof.
  intros Hk Hp.
  apply (event_probability_ext (fun u => Qgtb u flip) _ (prob_gt flip));
    [|exact Hp|apply event_probability_gt].
  intros u. unfold gate_passes. apply Qgtb_true in Hk. now rewrite Hk.
Qed.

Lemma gate_on_draw_fog p u : gate_on_draw fog_gate p u = gate_passes (harshness p) 50 0.5 u.
Proof. unfold gate_on_draw, fog_gate. now rewrite gate_run. Qed.

Lemma gate_on_draw_rain p u : gate_on_draw rain_gate p u = gate_passes (harshness p) 70 0.6 u.
Proof. unfold gate_on_draw, rain_gate. now rewrite gate_run. Qed.

Lemma gate_on_draw_glare p u :
  gate_on_draw glare_gate p u = gate_passes (lightAging p) 60 0.7 u.
Proof. unfold gate_on_draw, glare_gate. now rewrite gate_run. Qed.

Lemma prob_gt_half : prob_gt 0.5 == 0.5.
Proof. rewrite prob_gt_inside; lra. Qed.

Lemma overlay_stage_quiet host p s :
  harshness p <= 50 -> lightAging p <= 60 ->
  overlay_stage host p s = Ok {| fogged := false; rained := false; glared := false |} s.
Proof.
  intros Hh Hl.
  assert (E50 : Qgtb (harshness p) 50 = false) by now apply Qgtb_false.
  assert (E70 : Qgtb (harshness p) 70 = false) by (apply Qgtb_false; lra).
  assert (E60 : Qgtb (lightAging p) 60 = false) by now apply Qgtb_false.
  unfold overlay_stage, fog_gate, rain_gate, glare_gate, gate.
  rewrite E50, E70, E60. reflexivity.
Qed.

(** C5, as the code has it.  Each overlay is painted exactly when its flag
    is set, and the flag is set iff the knob exceeds its threshold and a
    draw of its own exceeds the flip constant: [harshness > 50] and
    [u > 0.5] for fog, [harshness > 70] and [u > 0.6] for rain,
    [lightAging > 60] and [u > 0.7] for glare.  The three draws sit at
    increasing cursors.  Past its threshold a gate therefore triggers with
    probability 0.5 (fog), 0.4 (rain) and 0.3 (glare); with
    [harshness <= 50] and [lightAging <= 60], so at 0 and 0, no overlay
    triggers, no draw is made and nothing is painted. *)
Theorem C5_overlays_are_gated_by_threshold_and_flip host p s :
  let q0 := rand_pos s in
  let q1 := fog_end host p q0 in
  let q2 := rain_end host p q1 in
  (exists ov lf lr lg,
     overlay_stage host p s
     = Ok ov (emit (lf ++ lr ++ lg) (at_cursor (glare_end host p q2) s))
     /\ (fogged ov = true <-> 50 < harshness p /\ 0.5 < random_tape host q0)
     /\ (rained ov = true <-> 70 < harshness p /\ 0.6 < random_tape host q1)
     /\ (glared ov = true <-> 60 < lightAging p /\ 0.7 < random_tape host q2)
     /\ (lf = [] <-> fogged ov = false)
     /\ (lr = [] <-> rained ov = false)
     /\ (lg = [] <-> glared ov = false))
  /\ (50 < harshness p -> (q0 < q1)%nat)
  /\ (70 < harshness p -> (q1 < q2)%nat)
  /\ (50 < harshness p -> triggers_with_probability fog_gate p 0.5)
  /\ (70 < harshness p -> triggers_with_probability rain_gate p 0.4)
  /\ (60 < lightAging p -> triggers_with_probability glare_gate p 0.3)
  /\ (harshness p <= 50 -> lightAging p <= 60 ->
      overlay_stage host p s
      = Ok {| fogged := false; rained := false; glared := false |} s).
Proof.
  intros q0 q1 q2. split; [|split; [|split; [|split; [|split; [|split]]]]].
  - destruct (overlay_stage_run host p s) as (lf & lr & lg & E & Nf & Nr & Ng).
    eexists _, lf, lr, lg. split; [exact E|].
    cbn [fogged rained glared] in *. rewrite !gate_passes_true. tauto.
  - intros H. apply Qgtb_true in H. unfold q1, fog_end. rewrite H.
    destruct (Qgtb (random_tape host _) _); lia.
  - intros H. apply Qgtb_true in H. unfold q2, rain_end. rewrite H.
    destruct (Qgtb (random_tape host _) _); lia.
  - intros H. unfold triggers_with_probability.
    apply (event_probability_ext (gate_passes (harshness p) 50 0.5) _ 0.5 0.5);
      [intros u; now rewrite gate_on_draw_fog | reflexivity |].
    apply gate_probability; [exact H | apply prob_gt_half].
  - intros H. unfold triggers_with_probability.
    apply (event_probability_ext (gate_passes (harshness p) 70 0.6) _ 0.4 0.4);
      [intros u; now rewrite gate_on_draw_rain | reflexivity |].
    apply gate_probability; [exact H | rewrite prob_gt_inside; lra].
  - intros H. unfold triggers_with_probability.
    apply (event_probability_ext (gate_passes (lightAging p) 60 0.7) _ 0.3 0.3);
      [intros u; now rewrite gate_on_draw_glare | reflexivity |].
    apply gate_probability; [exact H | rewrite prob_gt_inside; lra].
  - apply overlay_stage_quiet.
Qed.

Lemma C5_witness :
  triggers_with_probability fog_gate (all_params 100) 0.5
  /\ triggers_with_probability rain_gate (all_params 100) 0.4
  /\ triggers_with_probability glare_gate (all_params 100) 0.3
  /\ overlay_stage test_host (all_params 0) (initial_state None (all_params 0))
     = Ok {| fogged := false; rained := false; glared := false |}
          (initial_state None (all_params 0)).
Proof.
  pose proof (C5_overlays_are_gated_by_threshold_and_flip test_host (all_params 100)
                (initial_state None (all_params 100))) as (_ & _ & _ & F & R & G & _).
  pose proof (C5_overlays_are_gated_by_threshold_and_flip test_host (all_params 0)
                (initial_state None (all_params 0))) as (_ & _ & _ & _ & _ & _ & Z).
  split; [apply F; reflexivity|]. split; [apply R; reflexivity|].
  split; [apply G; reflexivity|]. apply Z; discriminate.
Defined.

(** C5 as stated fails: at all parameters 100 rain does not trigger with
    probability 0.6 nor glare with probability 0.7; of 1000 equally spaced
    draws, the rain gate of the source passes 399 and the glare gate 299. *)
Lemma C5_counterexample :
  ~ triggers_with_probability rain_gate (all_params 100) 0.6
  /\ ~ triggers_with_probability glare_gate (all_params 100) 0.7
  /\ grid_hits (gate_on_draw rain_gate (all_params 100)) 1000 1000 = 399%nat
  /\ grid_hits (gate_on_draw glare_gate (all_params 100)) 1000 1000 = 299%nat.
Proof.
  assert (R : grid_hits (gate_on_draw rain_gate (all_params 100)) 1000 1000 = 399%nat)
    by (vm_compute; reflexivity).
  assert (G : grid_hits (gate_on_draw glare_gate (all_params 100)) 1000 1000 = 299%nat)
    by (vm_compute; reflexivity).
  split; [|split; [|split; assumption]].
  - intros H. specialize (H 1000%positive). cbv zeta in H.
    change (Pos.to_nat 1000) with 1000%nat in H. rewrite R in H.
    destruct H as [H _]. vm_compute in H. apply H. reflexivity.
  - intros H. specialize (H 1000%positive). cbv zeta in H.
    change (Pos.to_nat 1000) with 1000%nat in H. rewrite G in H.
    destruct H as [H _]. vm_compute in H. apply H. reflexivity.
Qed.

(** ** C6 and C7: the pixel pass *)

Lemma bitmap_bytes_lookup host cv w h k c :
  (k < w * h)%nat -> (c < 4)%nat ->
  exists x, bitmap_bytes host cv w h !! (4 * k + c)%nat = Some x.
Proof.
  intros Hk Hc. apply lookup_lt_is_Some_2. rewrite length_bitmap_bytes. nia.
Qed.








Lemma spec_normalize_range v : (0 <= v <= 255)%Z -> 0 <= spec_normalize v <= 1.
Proof.
  intros [H0 H1]. unfold spec_normalize, Qdiv. change (/ 255) with (1 # 255).
  rewrite Zle_Qle in H0, H1. change (inject_Z 0) with 0 in H0.
  change (inject_Z 255) with 255 in H1. lra.
Qed.

Lemma photometric_ranges host p s :
  tape_in_range host -> 0 <= lightAging p ->
  exists ph,
    photometric_draws host p s = Ok ph (advance 7 s)
    /\ - (lightAging p / 100) * 75 <= pBrightness ph <= (lightAging p / 100) * 75
    /\ 0.5 <= pContrast ph <= 0.5 + lightAging p / 50
    /\ 0.5 <= pGamma ph <= 0.5 + lightAging p / 50
    /\ 0.8 <= rGain ph <= 1.2
    /\ 0.8 <= gGain ph <= 1.2
    /\ 0.8 <= bGain ph <= 1.2.
Proof.
  intros Ht Hl.
  destruct (photometric_draws_run host p s) as (ph & E & B & C & G & _ & Rr & Rg & Rb).
  exists ph. split; [exact E|].
  rewrite B, C, G, Rr, Rg, Rb.
  pose proof (Ht (0 + rand_pos s)%nat) as [? ?].
  pose proof (Ht (1 + rand_pos s)%nat) as [? ?].
  pose proof (Ht (2 + rand_pos s)%nat) as [? ?].
  pose proof (Ht (4 + rand_pos s)%nat) as [? ?].
  pose proof (Ht (5 + rand_pos s)%nat) as [? ?].
  pose proof (Ht (6 + rand_pos s)%nat) as [? ?].
  unfold Qdiv. change (/ 100) with (1 # 100). change (/ 50) with (1 # 50).
  repeat split; try lra; nra.
Qed.



(** ** C8 *)

Lemma Qnat_nonneg n : 0 <= Qnat n.
Proof. unfold Qnat. change 0 with (inject_Z 0). rewrite <- Zle_Qle. lia. Qed.







(** ** C9: the hue draw *)

Lemma tl_ret {A} (a : A) : tape_local (fun _ => mret a).
Proof. intros h1 h2 s _. split; [reflexivity|]. intros a' s' E. injection E as _ <-. lia. Qed.

Lemma same_from_le n n' h1 h2 : (n <= n')%nat -> same_from n h1 h2 -> same_from n' h1 h2.
Proof.
  intros Hn (P & C & R & T). repeat split; try assumption. intros i Hi. apply T. lia.
Qed.

Lemma tl_bind {A B} (m : Host -> M A) (k : Host -> A -> M B) :
  tape_local m -> (forall a, tape_local (fun h => k h a)) ->
  tape_local (fun h => m h ≫= k h).
Proof.
  intros Hm Hk h1 h2 s Hsim. destruct (Hm h1 h2 s Hsim) as [Em Mm].
  unfold mbind, M_bind, bind. rewrite <- Em.
  destruct (m h1 s) as [a s'|e s'] eqn:E1.
  - specialize (Mm a s' eq_refl).
    destruct (Hk a h1 h2 s' (same_from_le _ _ _ _ Mm Hsim)) as [Ek Mk].
    split; [exact Ek|]. intros b s'' Eb. specialize (Mk b s'' Eb). lia.
  - split; [reflexivity | discriminate].
Qed.

Lemma tl_for_loop {A} (body : Host -> nat -> A -> M A) n :
  (forall i acc, tape_local (fun h => body h i acc)) ->
  forall i acc, tape_local (fun h => for_loop n i (body h) acc).
Proof.
  intros Hb. induction n as [|n IH]; intros i acc.
  - apply tl_ret.
  - cbn [for_loop]. apply (tl_bind (fun h => body h i acc)); [apply Hb|].
    intros a. apply IH.
Qed.

Lemma tl_if {A} (b : bool) (m1 m2 : Host -> M A) :
  tape_local m1 -> tape_local m2 -> tape_local (fun h => if b then m1 h else m2 h).
Proof. destruct b; auto. Qed.

Lemma tl_when b (m : Host -> M unit) :
  tape_local m -> tape_local (fun h => when b (m h)).
Proof. intros H. unfold when. destruct b; [exact H | apply tl_ret]. Qed.

Lemma tl_Math_random : tape_local Math_random.
Proof.
  intros h1 h2 s (_ & _ & _ & T). split.
  - unfold Math_random. now rewrite (T (rand_pos s)).
  - intros a s' E. injection E as _ <-. cbn. lia.
Qed.

Lemma tl_Date_getTime : tape_local Date_getTime.
Proof.
  intros h1 h2 s (_ & C & _ & _). split.
  - unfold Date_getTime. now rewrite C.
  - intros a s' E. injection E as _ <-. cbn. lia.
Qed.

(** A computation that does not depend on the host and keeps the cursor. *)
Lemma tl_still {A} (m : M A) :
  (forall s a s', m s = Ok a s' -> rand_pos s' = rand_pos s) -> tape_local (fun _ => m).
Proof. intros H h1 h2 s _. split; [reflexivity|]. intros a s' E. rewrite (H s a s' E). lia. Qed.

Lemma tl_ctx op : tape_local (fun _ => ctx op).
Proof. apply tl_still. intros s a s' E. injection E as _ <-. reflexivity. Qed.

Lemma tl_canvas_width : tape_local (fun _ => canvas_width).
Proof. apply tl_still. intros s a s' E. injection E as _ <-. reflexivity. Qed.

Lemma tl_canvas_height : tape_local (fun _ => canvas_height).
Proof. apply tl_still. intros s a s' E. injection E as _ <-. reflexivity. Qed.

Lemma tl_toDataURL q : tape_local (fun _ => toDataURL q).
Proof. apply tl_still. intros s a s' E. injection E as _ <-. reflexivity. Qed.

Create HintDb tape_local.
#[export] Hint Resolve tl_ret tl_Math_random tl_Date_getTime tl_ctx tl_canvas_width
  tl_canvas_height tl_toDataURL : tape_local.

Ltac tape_local :=
  repeat first
    [ progress intros
    | solve [auto with tape_local]
    | apply tl_bind
    | apply tl_when
    | apply tl_if
    | apply tl_for_loop ].

Lemma tl_overlay_stage p : tape_local (fun h => overlay_stage h p).
Proof.
  unfold overlay_stage, fog_gate, rain_gate, glare_gate, gate, fog, rain, glare,
    rain_streak.
  tape_local.
Qed.

Lemma tl_artifact_stage p : tape_local (fun h => artifact_stage h p).
Proof. unfold artifact_stage, dirt_mark. tape_local. Qed.

Lemma tl_salt_pepper p i data : tape_local (fun h => salt_pepper h p i data).
Proof. unfold salt_pepper. tape_local. Qed.

Lemma adjust_pixel_host h1 h2 ph i d :
  Math_pow h1 = Math_pow h2 -> adjust_pixel h1 ph i d = adjust_pixel h2 ph i d.
Proof. intros E. unfold adjust_pixel, adjust_byte, adjust_channel. now rewrite E. Qed.

Lemma tl_pixel_body p ph k data : tape_local (fun h => pixel_body h p ph k data).
Proof.
  intros h1 h2 s Hsim. unfold pixel_body.
  rewrite (adjust_pixel_host h1 h2) by apply Hsim.
  now apply (tl_salt_pepper p (4 * k) (adjust_pixel h2 ph (4 * k) data)).
Qed.

Lemma tl_pixel_tail p ph data :
  tape_local (fun h => data' ← for_loop (pixel_count data) 0 (pixel_body h p ph) data;
                       ctx (PutImageData data' 0 0)).
Proof.
  apply (tl_bind (fun h => for_loop (pixel_count data) 0 (pixel_body h p ph) data)).
  - apply (tl_for_loop (fun h => pixel_body h p ph)). intros i acc. apply tl_pixel_body.
  - intros a. apply tl_ctx.
Qed.

Lemma photometric_draws_eq host p s :
  photometric_draws host p s = Ok (photo_at host p (rand_pos s)) (advance 7 s).
Proof. unfold photometric_draws, photo_at. mrun. reflexivity. Qed.

Lemma photo_at_hue h1 h2 p r :
  (forall i, i <> (3 + r)%nat -> random_tape h1 i = random_tape h2 i) ->
  photo_at h1 p r = with_hue (photo_at h2 p r) (hueRotation (photo_at h1 p r)).
Proof.
  intros T. unfold photo_at, with_hue.
  cbn [pBrightness pContrast pGamma hueRotation rGain gGain bGain].
  rewrite (T (0 + r)%nat), (T (1 + r)%nat), (T (2 + r)%nat), (T (4 + r)%nat),
    (T (5 + r)%nat), (T (6 + r)%nat) by lia.
  reflexivity.
Qed.

Lemma bitmap_bytes_host h1 h2 c w h :
  rasterize h1 = rasterize h2 -> bitmap_bytes h1 c w h = bitmap_bytes h2 c w h.
Proof. intros E. unfold bitmap_bytes. now rewrite E. Qed.

Lemma positive_dec s :
  positive s \/ (width (canvas s) = 0 \/ height (canvas s) = 0)%nat.
Proof. unfold positive. destruct (width (canvas s)), (height (canvas s)); auto; left; lia. Qed.

Lemma pixel_stage_zero host p s :
  (width (canvas s) = 0 \/ height (canvas s) = 0)%nat ->
  pixel_stage host p s = Throw IndexSizeError s.
Proof.
  intros Hz. unfold pixel_stage.
  rewrite (bind_Ok _ _ _ _ _ (eq_refl : canvas_width s = Ok (width (canvas s)) s)).
  rewrite (bind_Ok _ _ _ _ _ (eq_refl : canvas_height s = Ok (height (canvas s)) s)).
  now apply bind_Throw, getImageData_zero.
Qed.

Lemma pixel_stage_cursor host p s a s' :
  pixel_stage host p s = Ok a s' -> (7 + rand_pos s <= rand_pos s')%nat.
Proof.
  intros E. destruct (positive_dec s) as [Hs|Hz].
  - destruct (pixel_stage_run host p s Hs) as (ph & dout & _ & Ep & _).
    rewrite Ep in E. injection E as _ <-. cbn [emit at_cursor with_canvas rand_pos].
    apply noise_cursor_ge.
  - rewrite pixel_stage_zero in E by assumption. discriminate.
Qed.

Lemma bind_congr {A B} (m1 m2 : M A) (k1 k2 : A -> M B) s :
  m1 s = m2 s ->
  (forall a s', m2 s = Ok a s' -> k1 a s' = k2 a s') ->
  (m1 ≫= k1) s = (m2 ≫= k2) s.
Proof.
  intros Em Hk. unfold mbind, M_bind, bind. rewrite Em.
  destruct (m2 s) as [a s'|e s']; [now apply Hk | reflexivity].
Qed.

Lemma pixel_body_hue host p ph x k data :
  pixel_body host p (with_hue ph x) k data = pixel_body host p ph k data.
Proof. reflexivity. Qed.

Lemma for_loop_ext {A} (b1 b2 : nat -> A -> M A) :
  (forall i acc s, b1 i acc s = b2 i acc s) ->
  forall n i acc s, for_loop n i b1 acc s = for_loop n i b2 acc s.
Proof.
  intros H. induction n as [|n IH]; intros i acc s; [reflexivity|].
  cbn [for_loop]. apply bind_congr; [apply H|]. intros a s' _. apply IH.
Qed.

Lemma pixel_stage_hue h1 h2 p s :
  same_but_draw (3 + rand_pos s) h1 h2 -> pixel_stage h1 p s = pixel_stage h2 p s.
Proof.
  intros (P & C & R & T). destruct (positive_dec s) as [Hs|Hz].
  - unfold pixel_stage.
    rewrite !(bind_Ok _ _ _ _ _ (eq_refl : canvas_width s = Ok (width (canvas s)) s)).
    rewrite !(bind_Ok _ _ _ _ _ (eq_refl : canvas_height s = Ok (height (canvas s)) s)).
    rewrite (bind_Ok _ _ _ _ _ (getImageData_positive h1 s Hs)),
      (bind_Ok _ _ _ _ _ (getImageData_positive h2 s Hs)).
    rewrite (bind_Ok _ _ _ _ _ (photometric_draws_eq h1 p s)),
      (bind_Ok _ _ _ _ _ (photometric_draws_eq h2 p s)).
    rewrite (bitmap_bytes_host h1 h2) by exact R.
    rewrite (photo_at_hue h1 h2 p (rand_pos s) T).
    set (ph := photo_at h2 p (rand_pos s)). set (x := hueRotation _).
    set (data := bitmap_bytes h2 _ _ _).
    transitivity ((data' ← for_loop (pixel_count data) 0 (pixel_body h1 p ph) data;
                   ctx (PutImageData data' 0 0)) (advance 7 s)).
    + apply bind_congr; [|reflexivity].
      apply for_loop_ext. intros i acc s'. now rewrite pixel_body_hue.
    + apply (tl_pixel_tail p ph data h1 h2 (advance 7 s)).
      repeat split; try assumption. intros i Hi. apply T. cbn [advance rand_pos] in Hi. lia.
  - now rewrite !pixel_stage_zero.
Qed.

Lemma geometric_stage_same h1 h2 img index s :
  (forall i, (i < 7 + rand_pos s)%nat -> random_tape h1 i = random_tape h2 i) ->
  geometric_stage h1 img index s = geometric_stage h2 img index s.
Proof.
  intros T. unfold geometric_stage, geometric_draws. mrun.
  rewrite (T (rand_pos s)), (T (S (rand_pos s))), (T (S (S (rand_pos s)))),
    (T (S (S (S (rand_pos s))))), (T (S (S (S (S (rand_pos s)))))),
    (T (S (S (S (S (S (rand_pos s))))))), (T (S (S (S (S (S (S (rand_pos s)))))))) by lia.
  reflexivity.
Qed.

Lemma tl_finish p index :
  tape_local (fun h =>
    overlay_stage h p;;
    artifact_stage h p;;
    timestamp ← Date_getTime h;
    u ← Math_random h;
    url ← toDataURL (0.5 + u * 0.4);
    mret {| id := index; dataUrl := url; name := file_name timestamp index |}).
Proof.
  apply (tl_bind (fun h => overlay_stage h p)); [apply tl_overlay_stage|]. intros _.
  apply (tl_bind (fun h => artifact_stage h p)); [apply tl_artifact_stage|]. intros _.
  tape_local.
Qed.

(** C9. Two hosts that differ only in the draw the hue rotation is
    computed from, the eleventh of a sample, make the same sample and
    leave the same state: the value is computed and never used. *)
Theorem C9_hue_rotation_has_no_effect h1 h2 img p index s :
  same_but_draw (10 + rand_pos s) h1 h2 ->
  applyAugmentation h1 img p index s = applyAugmentation h2 img p index s
  /\ (forall s1, rand_pos s1 = (7 + rand_pos s)%nat ->
        exists ph,
          photometric_draws h1 p s1 = Ok ph (advance 7 s1)
          /\ hueRotation ph
             = (lightAging p / 100) * 360 * random_tape h1 (10 + rand_pos s)).
Proof.
  intros Hd. split.
  - destruct Hd as (P & C & R & T).
    unfold applyAugmentation. rewrite !fresh_canvas_run.
    set (s0 := with_canvas {| width := img_width img; height := img_height img; ops := [] |} s).
    destruct (geometric_stage_run h1 img index s0) as (g1 & E1 & _).
    destruct (geometric_stage_run h2 img index s0) as (g2 & E2 & _).
    assert (Eg : geometric_stage h1 img index s0 = geometric_stage h2 img index s0).
    { apply geometric_stage_same. intros i Hi. apply T. cbn [s0 with_canvas rand_pos] in Hi.
      lia. }
    rewrite E1, E2 in Eg. injection Eg as -> _.
    rewrite (bind_Ok _ _ _ _ _ E1), (bind_Ok _ _ _ _ _ E2).
    set (s1 := emit _ (advance 7 s0)).
    apply bind_congr.
    + apply pixel_stage_hue. repeat split; assumption.
    + intros a s2 E. apply pixel_stage_cursor in E.
      apply (tl_finish p index h1 h2 s2).
      repeat split; try assumption. intros i Hi. apply T.
      cbn [s1 s0 emit advance with_canvas rand_pos] in E. lia.
  - intros s1 Hs1. exists (photo_at h1 p (rand_pos s1)).
    split; [apply photometric_draws_eq|]. rewrite Hs1. reflexivity.
Qed.

Lemma C9_witness :
  applyAugmentation test_host (gray_image 2 2) default_params 1
    (initial_state (Some (gray_image 2 2)) default_params)
  = applyAugmentation
      (retape test_host (fun i => if (i =? 10)%nat then 0.99 else test_tape i))
      (gray_image 2 2) default_params 1
      (initial_state (Some (gray_image 2 2)) default_params).
Proof.
  apply C9_hue_rotation_has_no_effect.
  repeat split; try reflexivity.
  intros i Hi. cbn [retape random_tape test_host host_of initial_state rand_pos Nat.add] in *.
  destruct (Nat.eqb_spec i 10) as [->|_]; [contradiction | reflexivity].
Defined.

(** ** C10 *)







(** * The rest of the code *)

Lemma geometric_stage_exact host img index s :
  let w := width (canvas s) in
  let h := height (canvas s) in
  geometric_stage host img index s
  = Ok (geometry_at host w h index (rand_pos s))
       (emit (geometry_ops img w h (geometry_at host w h index (rand_pos s))) (advance 7 s)).
Proof.
  intros w h. unfold geometric_stage, geometric_draws, geometry_at. state_eq.
Qed.

Lemma geometry_at_in_bounds host w h index r :
  tape_in_range host -> geometry_in_bounds w h (geometry_at host w h index r).
Proof.
  intros T. unfold geometry_in_bounds, geometry_at. cbn [scl skewX skewY tx ty].
  pose proof (T (1 + r)%nat) as [? ?]. pose proof (T (2 + r)%nat) as [? ?].
  pose proof (T (3 + r)%nat) as [? ?]. pose proof (T (4 + r)%nat) as [? ?].
  pose proof (T (5 + r)%nat) as [? ?].
  pose proof (Qnat_nonneg w). pose proof (Qnat_nonneg h).
  repeat split; try lra; try nra.
Qed.

Lemma transform_never_singular host w h index r :
  tape_in_range host ->
  let g := geometry_at host w h index r in
  let det := transform_det (scl g * (if flipH g then -1 else 1)) (skewX g) (skewY g) (scl g) in
  (flipH g = false -> 0.7125 <= det) /\ (flipH g = true -> det <= -0.7125).
Proof.
  intros T g det.
  destruct (geometry_at_in_bounds host w h index r T) as ((S1 & S2) & (X1 & X2) & (Y1 & Y2) & _).
  fold g in S1, S2, X1, X2, Y1, Y2.
  assert (Hs : 0.7225 <= scl g * scl g) by nra.
  assert (Hk : -0.01 <= skewX g * skewY g /\ skewX g * skewY g <= 0.01) by (split; nra).
  subst det. unfold transform_det.
  split; intros ->; nra.
Qed.

Section Overlays.

Variable host : Host.

Lemma fog_exact p s :
  fog host p s
  = Ok tt (emit (fog_ops p (width (canvas s)) (height (canvas s))
                   (random_tape host (rand_pos s))) (advance 1 s)).
Proof. unfold fog, fog_ops. state_eq. Qed.

Lemma glare_exact s :
  glare host s
  = Ok tt (emit (glare_ops host (width (canvas s)) (height (canvas s)) (rand_pos s))
             (advance 3 s)).
Proof. unfold glare, glare_ops. state_eq. Qed.

Lemma rain_streak_exact j s :
  rain_streak host j tt s
  = Ok tt (emit (streak_ops (streak_at host (width (canvas s)) (height (canvas s))
                               (rand_pos s))) (advance 3 s)).
Proof. unfold rain_streak, streak_ops, streak_at. state_eq. Qed.

Lemma rain_loop_exact n : forall i s,
  for_loop n i (rain_streak host) tt s
  = Ok tt (emit (concat (map streak_ops
                   (streaks_from host (width (canvas s)) (height (canvas s)) (rand_pos s) n)))
             (advance (3 * n) s)).
Proof.
  induction n as [|n IH]; intros i s.
  - cbn [for_loop]. rewrite Nat.mul_0_r, advance_0. unfold streaks_from. cbn.
    now rewrite emit_nil.
  - cbn [for_loop]. rewrite (bind_Ok _ _ _ _ _ (rain_streak_exact i s)), IH, emit_emit.
    f_equal. replace (3 * n + 3)%nat with (3 * S n)%nat by lia. f_equal.
    unfold streaks_from. cbn [seq map concat]. cbn [emit advance with_canvas canvas width
      height rand_pos]. f_equal. f_equal.
    f_equal. rewrite <- seq_shift, map_map. apply map_ext. intros j. f_equal. lia.
Qed.

Lemma rain_exact s :
  rain host s
  = Ok tt (emit (rain_ops host (width (canvas s)) (height (canvas s)) (rand_pos s))
             (advance (3 * rain_count (random_tape host (rand_pos s)) + 1) s)).
Proof.
  unfold rain_ops, rain_count.
  set (n := iterations (100 + random_tape host (rand_pos s) * 200)).
  set (s1 := emit [SetStrokeStyle (Color (rgba 255 255 255 0.2)); SetLineWidth 1]
               (advance 1 s)).
  transitivity (for_loop n 0 (rain_streak host) tt s1).
  - unfold rain, s1. mrun. fold n. rewrite <- app_assoc. reflexivity.
  - rewrite rain_loop_exact. unfold s1. rewrite emit_emit. reflexivity.
Qed.

Lemma when_exact b (m : M unit) l n s :
  m s = Ok tt (emit l (advance n s)) ->
  when b m s = Ok tt (emit (if b then l else []) (advance (if b then n else 0) s)).
Proof.
  intros E. destruct b; [exact E|]. now rewrite emit_nil, advance_0.
Qed.

Lemma overlay_stage_exact p s :
  let w := width (canvas s) in
  let h := height (canvas s) in
  let q0 := rand_pos s in
  let q1 := fog_end host p q0 in
  let q2 := rain_end host p q1 in
  let ov := {| fogged := gate_passes (harshness p) 50 0.5 (random_tape host q0);
               rained := gate_passes (harshness p) 70 0.6 (random_tape host q1);
               glared := gate_passes (lightAging p) 60 0.7 (random_tape host q2) |} in
  overlay_stage host p s
  = Ok ov (emit ((if fogged ov then fog_ops p w h (random_tape host (S q0)) else [])
                 ++ (if rained ov then rain_ops host w h (S q1) else [])
                 ++ (if glared ov then glare_ops host w h (S q2) else []))
             (at_cursor (glare_end host p q2) s)).
Proof.
  intros w h q0 q1 q2 ov. unfold overlay_stage, fog_gate, rain_gate, glare_gate.
  rewrite (bind_Ok _ _ _ _ _ (gate_run _ _ _ _ s)).
  set (s1 := advance _ s).
  pose proof (when_exact (gate_passes (harshness p) 50 0.5 (random_tape host q0)) _ _ _ s1
                (fog_exact p s1)) as E1.
  fold q0. rewrite (bind_Ok _ _ _ _ _ E1).
  set (s2 := emit _ (advance _ s1)).
  assert (R2 : rand_pos s2 = q1) by apply fog_end_eq.
  rewrite (bind_Ok _ _ _ _ _ (gate_run _ _ _ _ s2)), R2.
  set (s3 := advance _ s2).
  pose proof (when_exact (gate_passes (harshness p) 70 0.6 (random_tape host q1)) _ _ _ s3
                (rain_exact s3)) as E2.
  rewrite (bind_Ok _ _ _ _ _ E2).
  set (s4 := emit _ (advance _ s3)).
  assert (R3 : rand_pos s3 = (if Qgtb (harshness p) 70 then S q1 else q1)).
  { subst s3. cbn [advance rand_pos]. rewrite R2. now destruct (Qgtb (harshness p) 70). }
  assert (R4 : rand_pos s4 = q2).
  { subst s4. cbn [emit advance with_canvas rand_pos]. rewrite R3.
    unfold q2, rain_end, gate_passes, rain_count.
    destruct (Qgtb (harshness p) 70), (Qgtb (random_tape host q1) 0.6); cbn [andb]; lia. }
  rewrite (bind_Ok _ _ _ _ _ (gate_run _ _ _ _ s4)), R4.
  set (s5 := advance _ s4).
  pose proof (when_exact (gate_passes (lightAging p) 60 0.7 (random_tape host q2)) _ _ _ s5
                (glare_exact s5)) as E3.
  rewrite (bind_Ok _ _ _ _ _ E3).
  cbv beta iota delta [mret M_ret ret]. f_equal.
  assert (R5 : rand_pos s5 = (if Qgtb (lightAging p) 60 then S q2 else q2)).
  { subst s5. cbn [advance rand_pos]. rewrite R4. now destruct (Qgtb (lightAging p) 60). }
  apply state_ext; try reflexivity.
  - cbn [emit advance at_cursor with_canvas rand_pos]. rewrite R5.
    unfold glare_end, gate_passes.
    destruct (Qgtb (lightAging p) 60), (Qgtb (random_tape host q2) 0.7); cbn [andb]; lia.
  - assert (O2 : ops (canvas s2)
                 = ops (canvas s)
                   ++ (if fogged ov then fog_ops p w h (random_tape host (S q0)) else [])).
    { unfold s2. cbn [emit advance with_canvas canvas ops fogged ov]. f_equal.
      destruct (gate_passes (harshness p) 50 0.5 _) eqn:G; [|reflexivity].
      unfold s1. cbn [advance rand_pos canvas]. unfold gate_passes in G.
      destruct (Qgtb (harshness p) 50); [reflexivity|discriminate]. }
    assert (O4 : ops (canvas s4)
                 = ops (canvas s2)
                   ++ (if rained ov then rain_ops host w h (S q1) else [])).
    { unfold s4. cbn [emit advance with_canvas canvas ops rained ov]. f_equal.
      destruct (gate_passes (harshness p) 70 0.6 _) eqn:G; [|reflexivity].
      rewrite R3. unfold gate_passes in G.
      destruct (Qgtb (harshness p) 70); [reflexivity|discriminate]. }
    cbn [emit advance at_cursor with_canvas canvas ops].
    change (ops (canvas s5)) with (ops (canvas s4)). rewrite O4, O2, <- !app_assoc.
    do 3 f_equal. cbn [glared ov].
    destruct (gate_passes (lightAging p) 60 0.7 _) eqn:G; [|reflexivity].
    rewrite R5. unfold gate_passes in G.
    destruct (Qgtb (lightAging p) 60); [reflexivity|discriminate].
Qed.

End Overlays.

(** ** One sample, call by call *)

Section Sample.

Variable host : Host.
Variable img : Image.
Variable p : AugmentationParams.

Hypothesis img_wide : (0 < img_width img)%nat.
Hypothesis img_high : (0 < img_height img)%nat.

Lemma applyAugmentation_exact index s :
  let w := img_width img in
  let h := img_height img in
  let r := rand_pos s in
  let geo := geometry_at host w h index r in
  let s1 := emit (geometry_ops img w h geo)
              (advance 7 (with_canvas {| width := w; height := h; ops := [] |} s)) in
  let din := bitmap_bytes host (canvas s1) w h in
  let qe := artifact_end host p w h r in
  exists ph dout,
    photometric_draws host p s1 = Ok ph (advance 7 s1)
    /\ length dout = (4 * w * h)%nat
    /\ (forall k, (k < w * h)%nat ->
          pixel_done host p ph din dout k (noise_cursor host p (14 + r) k))
    /\ let cv := {| width := w; height := h;
                    ops := geometry_ops img w h geo
                           ++ [PutImageData dout 0 0]
                           ++ overlay_ops host p w h (pixel_end host p w h r)
                           ++ concat (map mark_ops
                                (marks_from host w h (S (overlay_end host p w h r))
                                   (marks_of host p w h r))) |} in
       applyAugmentation host img p index s
       = Ok {| id := index;
               dataUrl := {| encoded := cv; quality_of := 0.5 + random_tape host qe * 0.4 |};
               name := file_name (clock_tape host (clock_pos s)) index |}
            {| rand_pos := S qe; clock_pos := S (clock_pos s); canvas := cv; ui := ui s |}.
Proof.
  intros w h r geo s1 din qe.
  unfold applyAugmentation. rewrite fresh_canvas_run.
  set (s0 := with_canvas {| width := img_width img; height := img_height img; ops := [] |} s).
  rewrite (bind_Ok _ _ _ _ _ (geometric_stage_exact host img index s0)).
  change (emit _ (advance 7 s0)) with s1.
  assert (P1 : positive s1) by (split; assumption).
  destruct (pixel_stage_run host p s1 P1) as (ph & dout & Eph & Ep & Lp & Dp).
  exists ph, dout. split; [exact Eph|]. split; [exact Lp|]. split; [exact Dp|].
  rewrite (bind_Ok _ _ _ _ _ Ep).
  set (s2 := emit _ (at_cursor _ s1)).
  rewrite (bind_Ok _ _ _ _ _ (overlay_stage_exact host p s2)).
  set (s3 := emit _ (at_cursor _ s2)).
  rewrite (bind_Ok _ _ _ _ _ (artifact_stage_run host p s3)).
  set (s4 := emit _ (advance _ s3)).
  assert (F : s4 = {| rand_pos := qe; clock_pos := clock_pos s;
                      canvas := {| width := w; height := h;
                        ops := geometry_ops img w h geo
                               ++ [PutImageData dout 0 0]
                               ++ overlay_ops host p w h (pixel_end host p w h r)
                               ++ concat (map mark_ops
                                    (marks_from host w h (S (overlay_end host p w h r))
                                       (marks_of host p w h r))) |};
                      ui := ui s |}).
  { apply state_ext; reflexivity. }
  mrun. cbv zeta. rewrite F. reflexivity.
Qed.

End Sample.

(** ** Bounds *)

Lemma noise_quiet p u : harshness p <= 0 -> u < 1 -> noise_fires p u = false.
Proof.
  intros H U. unfold noise_fires. apply Qgtb_false.
  unfold Qdiv. change (/ 5000) with (1 # 5000). lra.
Qed.

Lemma noise_cursor_quiet host p r k :
  tape_in_range host -> harshness p <= 0 -> noise_cursor host p r k = (k + r)%nat.
Proof.
  intros T H. induction k as [|k IH]; [reflexivity|].
  cbn [noise_cursor]. rewrite IH, noise_quiet; [reflexivity | exact H | apply T].
Qed.


Lemma dirt_count_nonpos p u : 0 <= u -> dirtiness p <= 0 -> (dirt_count p u <= 0)%Z.
Proof.
  intros U D. unfold dirt_count, Math_floor.
  apply Z.le_trans with (Qfloor 0); [|apply Z.leb_le; reflexivity].
  apply Qfloor_resp_le.
  assert (E : dirtiness p / 100 * 30 * u == (3 # 10) * (dirtiness p * u)) by field.
  assert (dirtiness p * u <= 0) by nra.
  rewrite E. lra.
Qed.



Lemma streak_at_in_bounds host w h q :
  tape_in_range host -> streak_in_bounds w h (streak_at host w h q).
Proof.
  intros T. unfold streak_in_bounds, streak_at. cbn [rain_x rain_y rain_len].
  pose proof (T (0 + q)%nat) as [? ?]. pose proof (T (1 + q)%nat) as [? ?].
  pose proof (T (2 + q)%nat) as [? ?].
  pose proof (Qnat_nonneg w). pose proof (Qnat_nonneg h).
  repeat split; try lra; nra.
Qed.

Lemma streaks_from_in_bounds host w h q n :
  tape_in_range host -> Forall (streak_in_bounds w h) (streaks_from host w h q n).
Proof.
  intros T. unfold streaks_from. apply List.Forall_map, List.Forall_forall.
  intros j _. now apply streak_at_in_bounds.
Qed.

(** ** The index of a sample *)

Lemma same_sample_bind {A} (m1 m2 : M A) (k1 k2 : A -> M GeneratedImage) s :
  m1 s = m2 s ->
  (forall a s', same_sample (k1 a s') (k2 a s')) ->
  same_sample ((m1 ≫= k1) s) ((m2 ≫= k2) s).
Proof.
  intros E H. unfold mbind, M_bind, bind. rewrite E.
  destruct (m2 s) as [a s'|e s']; [apply H | split; reflexivity].
Qed.

Lemma geometric_stage_index host img i j s :
  i <> 0%nat -> j <> 0%nat ->
  geometric_stage host img i s = geometric_stage host img j s.
Proof.
  intros Hi Hj. rewrite !geometric_stage_exact. unfold geometry_at.
  destruct i as [|i]; [contradiction|]. destruct j as [|j]; [contradiction|]. reflexivity.
Qed.

(** ** Quiet knobs *)

Lemma gate_passes_below knob threshold flip u :
  knob <= threshold -> gate_passes knob threshold flip u = false.
Proof.
  intros H. unfold gate_passes.
  replace (Qgtb knob threshold) with false; [reflexivity|].
  symmetry. now apply Qgtb_false.
Qed.

Lemma fog_end_below host p q : harshness p <= 50 -> fog_end host p q = q.
Proof.
  intros H. unfold fog_end.
  replace (Qgtb (harshness p) 50) with false; [reflexivity|].
  symmetry. now apply Qgtb_false.
Qed.

Lemma rain_end_below host p q : harshness p <= 70 -> rain_end host p q = q.
Proof.
  intros H. unfold rain_end.
  replace (Qgtb (harshness p) 70) with false; [reflexivity|].
  symmetry. now apply Qgtb_false.
Qed.

Lemma glare_end_below host p q : lightAging p <= 60 -> glare_end host p q = q.
Proof.
  intros H. unfold glare_end.
  replace (Qgtb (lightAging p) 60) with false; [reflexivity|].
  symmetry. now apply Qgtb_false.
Qed.

Lemma overlay_ops_quiet host p w h q :
  harshness p <= 50 -> lightAging p <= 60 -> overlay_ops host p w h q = [].
Proof.
  intros H L. unfold overlay_ops.
  rewrite !gate_passes_below; [reflexivity | exact L | lra | exact H].
Qed.

(** ** The bytes of the pixel pass *)

Lemma bitmap_bytes_byte host c w h i x :
  bitmap_is_bytes host -> bitmap_bytes host c w h !! i = Some x -> (0 <= x <= 255)%Z.
Proof.
  intros B E. unfold bitmap_bytes in E.
  change (map ?f ?l) with (f <$> l) in E. rewrite list_lookup_fmap in E.
  destruct (seq 0 (4 * w * h) !! i) as [j|]; [|discriminate].
  injection E as <-. apply B.
Qed.

Lemma ToUint8Clamp_between x (a b : Z) :
  inject_Z a - 0.5 < x -> x < inject_Z b + 0.5 -> 0 <= x -> x <= 255 ->
  (a <= ToUint8Clamp x <= b)%Z.
Proof.
  intros Ha Hb H0 H1.
  destruct (ToUint8Clamp_near x (conj H0 H1)) as [N1 N2].
  assert (A : inject_Z (a + -1) < inject_Z (ToUint8Clamp x)).
  { rewrite inject_Z_plus. change (inject_Z (-1)) with (-1). lra. }
  assert (B : inject_Z (ToUint8Clamp x) < inject_Z (b + 1)).
  { rewrite inject_Z_plus. change (inject_Z 1) with 1. lra. }
  rewrite <- Zlt_Qlt in A, B. lia.
Qed.

(** With a brightness of 0 and a contrast of one half, a colour byte is
    remapped into [64, 217]. *)
Lemma adjust_channel_flat host ph c v :
  pow_keeps_unit host -> (0 <= v <= 255)%Z -> (c < 3)%nat ->
  pBrightness ph == 0 -> pContrast ph == 0.5 -> 0 < pGamma ph ->
  0.8 <= rGain ph <= 1.2 -> 0.8 <= gGain ph <= 1.2 -> 0.8 <= bGain ph <= 1.2 ->
  (64 <= ToUint8Clamp (adjust_channel host ph c v) <= 217)%Z.
Proof.
  intros P V C Hb Hc Hg [R0 R1] [G0 G1] [B0 B1].
  destruct (spec_normalize_range v V) as [N0 N1].
  destruct (P (inject_Z v / 255) (pGamma ph) N0 N1 Hg) as [X0 X1].
  set (x := Math_pow host (inject_Z v / 255) (pGamma ph)) in *.
  assert (exists t, 0 <= t /\ t <= 1.2 /\
            adjust_channel host ph c v
            = Math_min 255 (Math_max 0
                ((((t - 0.5) * pContrast ph + 0.5 + pBrightness ph / 255)) * 255)))
    as (t & T0 & T1 & E).
  { unfold adjust_channel. fold x.
    destruct c as [|[|[|c]]]; [| | |lia]; cbn [Nat.eqb].
    - exists (x * rGain ph). split; [nra|]. split; [nra|reflexivity].
    - exists (x * gGain ph). split; [nra|]. split; [nra|reflexivity].
    - exists (x * bGain ph). split; [nra|]. split; [nra|reflexivity]. }
  rewrite E.
  set (y := ((t - 0.5) * pContrast ph + 0.5 + pBrightness ph / 255) * 255).
  assert (Y : y == ((t - 0.5) * 0.5 + 0.5) * 255).
  { unfold y. rewrite Hb, Hc. field. }
  assert (Y0 : 63.75 <= y) by (rewrite Y; lra).
  assert (Y1 : y <= 216.75) by (rewrite Y; lra).
  assert (M : Math_min 255 (Math_max 0 y) = y).
  { unfold Math_min, Math_max. qcases; try reflexivity; lra. }
  rewrite M. apply ToUint8Clamp_between;
    [change (inject_Z 64) with 64 | change (inject_Z 217) with 217 | |]; lra.
Qed.

(** ** Properties of the pipeline *)

(** X1 (src/App.tsx, lines 93-107).  Whatever the draws, the geometric
    stage scales by a factor in [0.85, 1.15), skews by less than 0.1 in
    each direction and moves the centre of the image by at most 7.5% of
    the width and of the height, so that the centre stays in the middle
    of the canvas; the image is mirrored exactly when the seventh draw
    exceeds 0.5, an event of probability one half. *)
Theorem X1_geometric_parameters_are_bounded host img index s :
  tape_in_range host ->
  let w := width (canvas s) in
  let h := height (canvas s) in
  exists g,
    geometric_stage host img index s = Ok g (emit (geometry_ops img w h g) (advance 7 s))
    /\ (0.85 <= scl g /\ scl g < 1.15)
    /\ (-0.1 <= skewX g /\ skewX g < 0.1)
    /\ (-0.1 <= skewY g /\ skewY g < 0.1)
    /\ (- (0.075 * Qnat w) <= tx g /\ tx g <= 0.075 * Qnat w)
    /\ (- (0.075 * Qnat h) <= ty g /\ ty g <= 0.075 * Qnat h)
    /\ (0.425 * Qnat w <= Qnat w / 2 + tx g /\ Qnat w / 2 + tx g <= 0.575 * Qnat w)
    /\ (0.425 * Qnat h <= Qnat h / 2 + ty g /\ Qnat h / 2 + ty g <= 0.575 * Qnat h)
    /\ flipH g = Qgtb (random_tape host (6 + rand_pos s)) 0.5
    /\ event_probability (fun u => Qgtb u 0.5) 0.5.
Proof.
  intros T w h. exists (geometry_at host w h index (rand_pos s)).
  split; [apply geometric_stage_exact|].
  destruct (geometry_at_in_bounds host w h index (rand_pos s) T)
    as (Hs & Hx & Hy & Htx & Hty).
  split; [exact Hs|]. split; [exact Hx|]. split; [exact Hy|].
  split; [exact Htx|]. split; [exact Hty|].
  split; [|split; [|split]].
  - unfold Qdiv. change (/ 2) with (1 # 2). split; lra.
  - unfold Qdiv. change (/ 2) with (1 # 2). split; lra.
  - reflexivity.
  - apply (event_probability_ext (fun u => Qgtb u 0.5) _ (prob_gt 0.5) _);
      [reflexivity | apply prob_gt_half | apply event_probability_gt].
Qed.

Lemma X1_witness :
  exists g,
    geometric_stage test_host (gray_image 40 20) 3
      (blank_canvas 40 20 default_params)
    = Ok g (emit (geometry_ops (gray_image 40 20) 40 20 g)
              (advance 7 (blank_canvas 40 20 default_params)))
    /\ (0.85 <= scl g /\ scl g < 1.15).
Proof.
  destruct (X1_geometric_parameters_are_bounded test_host (gray_image 40 20) 3
              (blank_canvas 40 20 default_params) test_tape_in_range)
    as (g & E & Hs & _).
  exists g. split; [exact E | exact Hs].
Defined.

(** X2 (src/App.tsx, lines 102-107).  The matrix handed to
    [ctx.transform] is never singular: its determinant is at least 0.7125
    when the image is not mirrored and at most -0.7125 when it is, so the
    image is never collapsed and its orientation is reversed exactly by
    the flip. *)
Theorem X2_transform_is_never_singular host img index s :
  tape_in_range host ->
  let w := width (canvas s) in
  let h := height (canvas s) in
  exists g a b c d,
    geometric_stage host img index s = Ok g (emit (geometry_ops img w h g) (advance 7 s))
    /\ geometry_ops img w h g !! 2%nat = Some (Transform a b c d 0 0)
    /\ (flipH g = false -> 0.7125 <= transform_det a b c d)
    /\ (flipH g = true -> transform_det a b c d <= -0.7125).
Proof.
  intros T w h.
  eexists (geometry_at host w h index (rand_pos s)), _, _, _, _.
  split; [apply geometric_stage_exact|]. split; [reflexivity|].
  apply (transform_never_singular host w h index (rand_pos s) T).
Qed.

Lemma X2_witness :
  exists g a b c d,
    geometry_ops (gray_image 40 20) 40 20 g !! 2%nat = Some (Transform a b c d 0 0)
    /\ (flipH g = false -> 0.7125 <= transform_det a b c d).
Proof.
  destruct (X2_transform_is_never_singular test_host (gray_image 40 20) 3
              (blank_canvas 40 20 default_params) test_tape_in_range)
    as (g & a & b & c & d & _ & E & H & _).
  exists g, a, b, c, d. split; [exact E | exact H].
Defined.

(** X3 (src/App.tsx, lines 81-206).  Beyond the test [index === 0] of the
    rotation, the index of a sample reaches only its [id] and its file
    name: run from the same state, [applyAugmentation] at two indices
    other than 0 encodes the same canvas at the same quality and leaves
    the same state (or throws the same exception), so two samples differ
    in their pixels only through the random draws. *)
Theorem X3_index_reaches_only_id_and_name host img p i j s :
  i <> 0%nat -> j <> 0%nat ->
  same_sample (applyAugmentation host img p i s) (applyAugmentation host img p j s).
Proof.
  intros Hi Hj. unfold applyAugmentation. rewrite !fresh_canvas_run.
  apply same_sample_bind; [apply geometric_stage_index; assumption|]. intros _ s1.
  apply same_sample_bind; [reflexivity|]. intros _ s2.
  apply same_sample_bind; [reflexivity|]. intros _ s3.
  apply same_sample_bind; [reflexivity|]. intros _ s4.
  apply same_sample_bind; [reflexivity|]. intros timestamp s5.
  apply same_sample_bind; [reflexivity|]. intros u s6.
  apply same_sample_bind; [reflexivity|]. intros url s7.
  split; reflexivity.
Qed.

Lemma X3_witness :
  same_sample
    (applyAugmentation test_host (gray_image 2 2) default_params 1
       (initial_state (Some (gray_image 2 2)) default_params))
    (applyAugmentation test_host (gray_image 2 2) default_params 19
       (initial_state (Some (gray_image 2 2)) default_params)).
Proof.
  apply X3_index_reaches_only_id_and_name; discriminate.
Defined.

(** X4 (src/App.tsx, lines 149-154).  When the fog block runs it reads one
    draw [u] and paints one rectangle over the whole canvas, filled with
    a top-to-bottom gradient from grey (200) at opacity
    [a = (harshness / 200) * u] to white at opacity [a / 5]; for a
    harshness within the slider's range [0, 100] the fog is less than half
    opaque at the top and less than a tenth at the bottom. *)
Theorem X4_fog_is_a_faint_vertical_gradient host p s :
  tape_in_range host -> 0 <= harshness p -> harshness p <= 100 ->
  let w := width (canvas s) in
  let h := height (canvas s) in
  let a := (harshness p / 200) * random_tape host (rand_pos s) in
  fog host p s
  = Ok tt (emit [ SetFillStyle (LinearGradient 0 0 0 (Qnat h)
                    [ {| stop_offset := 0; stop_color := rgba 200 200 200 a |};
                      {| stop_offset := 1; stop_color := rgba 255 255 255 (a * 0.2) |} ]);
                  FillRect 0 0 (Qnat w) (Qnat h) ]
             (advance 1 s))
  /\ 0 <= a /\ a < 0.5 /\ a * 0.2 < 0.1.
Proof.
  intros T H0 H1 w h a. split; [apply fog_exact|].
  destruct (T (rand_pos s)) as [U0 U1].
  assert (E : a == (1 # 200) * (harshness p * random_tape host (rand_pos s)))
    by (unfold a; field).
  assert (0 <= harshness p * random_tape host (rand_pos s)) by nra.
  assert (harshness p * random_tape host (rand_pos s) < 100) by nra.
  rewrite E. repeat split; lra.
Qed.

Lemma X4_witness :
  harshness (all_params 100) / 200 * random_tape test_host 0 < 0.5.
Proof.
  exact (proj1 (proj2 (proj2 (X4_fog_is_a_faint_vertical_gradient test_host (all_params 100)
           (blank_canvas 40 20 (all_params 100))
           test_tape_in_range ltac:(cbn; lra) ltac:(cbn; lra))))).
Defined.



(** X6 (src/App.tsx, lines 175-181).  When the glare block runs it reads
    three draws and paints one rectangle over the whole canvas, filled
    with a radial gradient whose two circles share a centre that lies
    within the canvas; the inner radius is 0, the outer one at most the
    width, and the colour goes from pale yellow at opacity 0.4 to fully
    transparent white. *)
Theorem X6_glare_is_centred_within_the_canvas host s :
  tape_in_range host ->
  let w := width (canvas s) in
  let h := height (canvas s) in
  exists gx gy r,
    glare host s
    = Ok tt (emit [ SetFillStyle (RadialGradient gx gy 0 gx gy r
                      [ {| stop_offset := 0; stop_color := rgba 255 255 200 0.4 |};
                        {| stop_offset := 1; stop_color := rgba 255 255 255 0 |} ]);
                    FillRect 0 0 (Qnat w) (Qnat h) ]
               (advance 3 s))
    /\ gx = random_tape host (rand_pos s) * Qnat w
    /\ gy = random_tape host (1 + rand_pos s) * Qnat h
    /\ r = random_tape host (2 + rand_pos s) * Qnat w
    /\ (0 <= gx /\ gx <= Qnat w)
    /\ (0 <= gy /\ gy <= Qnat h)
    /\ (0 <= r /\ r <= Qnat w).
Proof.
  intros T w h. eexists _, _, _. split; [apply glare_exact|].
  split; [reflexivity|]. split; [reflexivity|]. split; [reflexivity|].
  pose proof (T (0 + rand_pos s)%nat) as [? ?]. pose proof (T (1 + rand_pos s)%nat) as [? ?].
  pose proof (T (2 + rand_pos s)%nat) as [? ?].
  pose proof (Qnat_nonneg w). pose proof (Qnat_nonneg h).
  cbn [Nat.add] in *. subst w h.
  split; [split; nra|]. split; [split; nra|]. split; nra.
Qed.

Lemma X6_witness :
  exists gx gy r,
    glare test_host (blank_canvas 40 20 (all_params 100))
    = Ok tt (emit [ SetFillStyle (RadialGradient gx gy 0 gx gy r
                      [ {| stop_offset := 0; stop_color := rgba 255 255 200 0.4 |};
                        {| stop_offset := 1; stop_color := rgba 255 255 255 0 |} ]);
                    FillRect 0 0 (Qnat 40) (Qnat 20) ]
               (advance 3 (blank_canvas 40 20 (all_params 100))))
    /\ (0 <= gx /\ gx <= Qnat 40).
Proof.
  destruct (X6_glare_is_centred_within_the_canvas test_host
              (blank_canvas 40 20 (all_params 100)) test_tape_in_range)
    as (gx & gy & r & E & _ & _ & _ & Hx & _).
  exists gx, gy, r. split; [exact E | exact Hx].
Defined.

(** X7 (src/App.tsx, lines 146-182).  The overlay stage paints fog, then
    rain, then glare, each exactly when its gate passed and with the
    draws that follow the gate's own: the calls it adds are those of the
    blocks that ran, in that order, and nothing else. *)
Theorem X7_overlays_are_painted_in_order host p s :
  let w := width (canvas s) in
  let h := height (canvas s) in
  let q0 := rand_pos s in
  let q1 := fog_end host p q0 in
  let q2 := rain_end host p q1 in
  exists ov,
    overlay_stage host p s
    = Ok ov (emit ((if fogged ov then fog_ops p w h (random_tape host (S q0)) else [])
                   ++ (if rained ov then rain_ops host w h (S q1) else [])
                   ++ (if glared ov then glare_ops host w h (S q2) else []))
               (at_cursor (glare_end host p q2) s))
    /\ fogged ov = gate_passes (harshness p) 50 0.5 (random_tape host q0)
    /\ rained ov = gate_passes (harshness p) 70 0.6 (random_tape host q1)
    /\ glared ov = gate_passes (lightAging p) 60 0.7 (random_tape host q2).
Proof.
  intros w h q0 q1 q2. eexists. split; [apply overlay_stage_exact|].
  repeat split.
Qed.



(** X9 (src/App.tsx, lines 197-204).  The canvas is encoded after all
    four stages have run, at a JPEG quality of [0.5 + 0.4 u] for the last
    draw [u] of the sample: the quality lies in [0.5, 0.9), and the clock
    was read exactly once, for the file name. *)
Theorem X9_quality_is_between_half_and_nine_tenths host img p index s :
  tape_in_range host ->
  (0 < img_width img)%nat -> (0 < img_height img)%nat ->
  exists g s' q,
    applyAugmentation host img p index s = Ok g s'
    /\ rand_pos s' = S q
    /\ quality_of (dataUrl g) = 0.5 + random_tape host q * 0.4
    /\ 0.5 <= quality_of (dataUrl g) /\ quality_of (dataUrl g) < 0.9
    /\ encoded (dataUrl g) = canvas s'
    /\ clock_pos s' = S (clock_pos s)
    /\ name g = file_name (clock_tape host (clock_pos s)) index.
Proof.
  intros T Hw Hh.
  destruct (applyAugmentation_exact host img p Hw Hh index s) as (ph & dout & _ & _ & _ & E).
  cbv zeta in E. eexists _, _, _. split; [exact E|].
  cbn [rand_pos quality_of dataUrl encoded canvas clock_pos name].
  destruct (T (artifact_end host p (img_width img) (img_height img) (rand_pos s))) as [U0 U1].
  split; [reflexivity|]. split; [reflexivity|]. split; [lra|]. split; [lra|].
  repeat split.
Qed.

Lemma X9_witness :
  exists g s',
    applyAugmentation test_host (gray_image 2 2) default_params 1
      (initial_state (Some (gray_image 2 2)) default_params) = Ok g s'
    /\ 0.5 <= quality_of (dataUrl g) /\ quality_of (dataUrl g) < 0.9.
Proof.
  destruct (X9_quality_is_between_half_and_nine_tenths test_host (gray_image 2 2)
              default_params 1 (initial_state (Some (gray_image 2 2)) default_params)
              test_tape_in_range (Nat.lt_0_succ 1) (Nat.lt_0_succ 1))
    as (g & s' & q & E & _ & _ & H1 & H2 & _).
  exists g, s'. split; [exact E|]. split; [exact H1 | exact H2].
Defined.

(** X10 (src/App.tsx, lines 81-206).  With the three knobs at 0 (more
    generally: harshness and dirtiness at most 0 and lightAging at most
    60) a sample is still transformed and remapped, but nothing else
    happens to it: the calls on its canvas are exactly the six of the
    geometric stage and one [putImageData], no pixel is hit by noise, and
    the sample reads exactly [16 + width * height] draws. *)
Theorem X10_sample_with_the_knobs_at_zero host img p index s :
  tape_in_range host ->
  (0 < img_width img)%nat -> (0 < img_height img)%nat ->
  harshness p <= 0 -> lightAging p <= 60 -> dirtiness p <= 0 ->
  let w := img_width img in
  let h := img_height img in
  exists g s' geo ph dout,
    applyAugmentation host img p index s = Ok g s'
    /\ ops (encoded (dataUrl g)) = geometry_ops img w h geo ++ [PutImageData dout 0 0]
    /\ rand_pos s' = (16 + w * h + rand_pos s)%nat
    /\ length dout = (4 * w * h)%nat
    /\ forall k c, (k < w * h)%nat -> (c < 3)%nat ->
         dout !! (4 * k + c)%nat
         = (fun v => ToUint8Clamp (adjust_channel host ph c v))
             <$> bitmap_bytes host {| width := w; height := h;
                                      ops := geometry_ops img w h geo |} w h
                 !! (4 * k + c)%nat.
Proof.
  intros T Hw Hh H L D w h.
  destruct (applyAugmentation_exact host img p Hw Hh index s)
    as (ph & dout & _ & Ld & Dp & E).
  cbv zeta in E. fold w h in E, Ld, Dp.
  assert (H50 : harshness p <= 50) by lra.
  assert (H70 : harshness p <= 70) by lra.
  assert (Epx : pixel_end host p w h (rand_pos s) = (w * h + (14 + rand_pos s))%nat).
  { unfold pixel_end. now apply noise_cursor_quiet. }
  assert (Eov : overlay_end host p w h (rand_pos s) = (w * h + (14 + rand_pos s))%nat).
  { unfold overlay_end.
    now rewrite fog_end_below, rain_end_below, glare_end_below. }
  assert (Emk : marks_of host p w h (rand_pos s) = 0%nat).
  { unfold marks_of.
    pose proof (dirt_count_nonpos p (random_tape host (overlay_end host p w h (rand_pos s)))
                  (proj1 (T _)) D). lia. }
  eexists _, _, (geometry_at host w h index (rand_pos s)), ph, dout.
  split; [exact E|]. cbn [dataUrl encoded ops rand_pos].
  split; [|split; [|split]].
  - rewrite overlay_ops_quiet, Emk by assumption. unfold marks_from.
    cbn [seq map concat]. now rewrite !app_nil_r.
  - unfold artifact_end. rewrite Emk, Eov. lia.
  - exact Ld.
  - intros k c Hk Hc. destruct (Dp k Hk) as [_ Dc]. rewrite (Dc c Hc).
    unfold channel_result. rewrite noise_quiet; [reflexivity | exact H | apply T].
Qed.

Lemma X10_witness :
  exists g s',
    applyAugmentation test_host (gray_image 2 2) (all_params 0) 1
      (initial_state (Some (gray_image 2 2)) (all_params 0)) = Ok g s'
    /\ rand_pos s' = 20%nat.
Proof.
  destruct (X10_sample_with_the_knobs_at_zero test_host (gray_image 2 2) (all_params 0) 1
              (initial_state (Some (gray_image 2 2)) (all_params 0))
              test_tape_in_range (Nat.lt_0_succ 1) (Nat.lt_0_succ 1)
              ltac:(cbn; lra) ltac:(cbn; lra) ltac:(cbn; lra))
    as (g & s' & geo & ph & dout & E & _ & R & _).
  exists g, s'. split; [exact E | exact R].
Defined.

(** X11 (src/App.tsx, lines 113-136).  A lightAging of 0 does not switch
    the photometric remapping off: the brightness offset is 0, but the
    contrast and the gamma are both one half whatever the draws, so that
    every colour byte the noise spares ends in [64, 217]: the sample has
    neither blacks nor whites left.  ([Math.pow] is assumed to keep the
    unit interval and the bitmap to hold bytes.) *)
Theorem X11_zero_light_aging_still_flattens_the_image host p s :
  positive s -> tape_in_range host -> pow_keeps_unit host -> bitmap_is_bytes host ->
  lightAging p == 0 ->
  let w := width (canvas s) in
  let h := height (canvas s) in
  let r := (7 + rand_pos s)%nat in
  exists ph dout,
    photometric_draws host p s = Ok ph (advance 7 s)
    /\ pixel_stage host p s
       = Ok tt (emit [PutImageData dout 0 0] (at_cursor (noise_cursor host p r (w * h)) s))
    /\ pBrightness ph == 0 /\ pContrast ph == 0.5 /\ pGamma ph == 0.5
    /\ (forall c v, (c < 3)%nat -> (0 <= v <= 255)%Z ->
          (64 <= ToUint8Clamp (adjust_channel host ph c v) <= 217)%Z)
    /\ (forall k c, (k < w * h)%nat -> (c < 3)%nat ->
          noise_fires p (random_tape host (noise_cursor host p r k)) = false ->
          exists v, dout !! (4 * k + c)%nat = Some v /\ (64 <= v <= 217)%Z).
Proof.
  intros Ps T P B L w h r.
  destruct (pixel_stage_run host p s Ps) as (ph & dout & Eph & Ep & Ld & Dp).
  exists ph, dout. split; [exact Eph|]. split; [exact Ep|].
  assert (L0 : 0 <= lightAging p) by lra.
  destruct (photometric_ranges host p s T L0)
    as (ph' & Eph' & _ & _ & _ & Rg & Gg & Bg).
  rewrite Eph in Eph'. injection Eph' as <-.
  destruct (photometric_draws_run host p s) as (ph' & Eph' & Hb & Hc & Hg & _).
  rewrite Eph in Eph'. injection Eph' as <-.
  assert (Fb : pBrightness ph == 0) by (rewrite Hb, L; field).
  assert (Fc : pContrast ph == 0.5) by (rewrite Hc, L; field).
  assert (Fg : pGamma ph == 0.5) by (rewrite Hg, L; field).
  assert (A : forall c v, (c < 3)%nat -> (0 <= v <= 255)%Z ->
                (64 <= ToUint8Clamp (adjust_channel host ph c v) <= 217)%Z).
  { intros c v Hc' Hv. apply adjust_channel_flat; try assumption. lra. }
  split; [exact Fb|]. split; [exact Fc|]. split; [exact Fg|]. split; [exact A|].
  intros k c Hk Hc' Hn. destruct (Dp k Hk) as [_ Dc]. rewrite (Dc c Hc').
  destruct (bitmap_bytes_lookup host (canvas s) w h k c Hk ltac:(lia)) as [x Ex].
  fold w h. rewrite Ex. cbn [fmap option_fmap option_map].
  eexists. split; [reflexivity|]. unfold channel_result. fold r. rewrite Hn.
  apply A; [exact Hc'|]. eapply bitmap_bytes_byte; eassumption.
Qed.

Lemma test_pow_keeps_unit : pow_keeps_unit test_host.
Proof. intros x g H0 H1 _. split; assumption. Qed.

Lemma test_bitmap_is_bytes : bitmap_is_bytes test_host.
Proof. intros w h l i. cbn. lia. Qed.

Lemma X11_witness :
  exists ph dout s',
    pixel_stage test_host {| harshness := 40; lightAging := 0; dirtiness := 30 |}
      (blank_canvas 2 1 default_params) = Ok tt s'
    /\ ops (canvas s') = [PutImageData dout 0 0]
    /\ pContrast ph == 0.5.
Proof.
  destruct (X11_zero_light_aging_still_flattens_the_image test_host
              {| harshness := 40; lightAging := 0; dirtiness := 30 |}
              (blank_canvas 2 1 default_params)
              (conj (Nat.lt_0_succ 1) (Nat.lt_0_succ 0))
              test_tape_in_range test_pow_keeps_unit test_bitmap_is_bytes
              ltac:(reflexivity))
    as (ph & dout & _ & E & _ & Hc & _).
  exists ph, dout. eexists. split; [exact E|]. split; [reflexivity | exact Hc].
Defined.

(** ** The preview *)

Local Open Scope nat_scope.

Lemma setPreviewIndex_same a v : previewIndex a = v -> setPreviewIndex v a = a.
Proof. destruct a. cbn. now intros ->. Qed.

Lemma handleNext_at a i :
  preview_at a i ->
  on_event handleNext a
  = setPreviewIndex (Some (Num (Z.of_nat ((i + 1) mod length (results_of a))))) a.
Proof.
  intros [E L]. unfold on_event, handleNext, results_length. rewrite E.
  cbn [js_add js_rem].
  destruct (Z.eqb_spec (Z.of_nat (length (results_of a))) 0) as [Z0|_]; [lia|].
  do 3 f_equal. rewrite Z.rem_mod_nonneg by lia.
  rewrite Nat2Z.inj_mod. f_equal. lia.
Qed.

Lemma handlePrev_at a i :
  preview_at a i ->
  on_event handlePrev a
  = setPreviewIndex
      (Some (Num (Z.of_nat ((i + length (results_of a) - 1) mod length (results_of a))))) a.
Proof.
  intros [E L]. unfold on_event, handlePrev, results_length. rewrite E.
  cbn [js_add js_sub js_rem].
  destruct (Z.eqb_spec (Z.of_nat (length (results_of a))) 0) as [Z0|_]; [lia|].
  do 3 f_equal. rewrite Z.rem_mod_nonneg by lia.
  rewrite Nat2Z.inj_mod. f_equal. lia.
Qed.

Lemma preview_at_set a j :
  (j < length (results_of a))%nat ->
  preview_at (setPreviewIndex (Some (Num (Z.of_nat j))) a) j.
Proof. intros H. split; [reflexivity | exact H]. Qed.

Lemma preview_of_at a i :
  preview_at a i -> preview_of a = results_of a !! i.
Proof.
  intros [E L]. unfold preview_of. rewrite E.
  destruct (Z.leb_spec 0 (Z.of_nat i)); [|lia]. now rewrite Nat2Z.id.
Qed.

Lemma next_then_prev n i :
  (i < n)%nat -> (((i + 1) mod n + n - 1) mod n = i)%nat.
Proof.
  intros H. destruct (Nat.eq_dec (i + 1)%nat n) as [E|E].
  - rewrite E, Nat.Div0.mod_same. cbn [Nat.add]. rewrite Nat.mod_small by lia. lia.
  - rewrite (Nat.mod_small (i + 1)%nat) by lia.
    replace (i + 1 + n - 1)%nat with (i + 1 * n)%nat by lia.
    rewrite Nat.Div0.mod_add. apply Nat.mod_small. lia.
Qed.

Lemma prev_then_next n i :
  (i < n)%nat -> (((i + n - 1) mod n + 1) mod n = i)%nat.
Proof.
  intros H. destruct (Nat.eq_dec i 0) as [E|E].
  - subst i. cbn [Nat.add]. rewrite (Nat.mod_small (n - 1)%nat) by lia.
    replace (n - 1 + 1)%nat with n by lia. apply Nat.Div0.mod_same.
  - replace (i + n - 1)%nat with (i - 1 + 1 * n)%nat by lia.
    rewrite Nat.Div0.mod_add, (Nat.mod_small (i - 1)%nat) by lia.
    replace (i - 1 + 1)%nat with i by lia. apply Nat.mod_small. lia.
Qed.

Lemma handleNext_iter a i k :
  preview_at a i ->
  Nat.iter k (on_event handleNext) a
  = setPreviewIndex (Some (Num (Z.of_nat ((i + k) mod length (results_of a))))) a.
Proof.
  intros H. induction k as [|k IH].
  - change (Nat.iter 0 ?f a) with a. rewrite Nat.add_0_r, Nat.mod_small by apply H.
    symmetry. apply setPreviewIndex_same, H.
  - rewrite Nat.iter_succ, IH.
    assert (Hn : (0 < length (results_of a))%nat) by (destruct H; lia).
    rewrite (handleNext_at _ ((i + k) mod length (results_of a))%nat).
    + change (results_of (setPreviewIndex _ a)) with (results_of a).
      change (setPreviewIndex ?v (setPreviewIndex _ a)) with (setPreviewIndex v a).
      rewrite Nat.Div0.add_mod_idemp_l.
      replace (i + k + 1) with (i + S k) by lia. reflexivity.
    + apply preview_at_set. apply Nat.mod_upper_bound. lia.
Qed.

Lemma base_handleNext a : base (on_event handleNext a) = base a.
Proof. unfold on_event, handleNext. now destruct (previewIndex a). Qed.

Lemma base_handlePrev a : base (on_event handlePrev a) = base a.
Proof. unfold on_event, handlePrev. now destruct (previewIndex a). Qed.

Lemma base_handleNext_iter k a : base (Nat.iter k (on_event handleNext) a) = base a.
Proof.
  induction k as [|k IH]; [reflexivity|]. now rewrite Nat.iter_succ, base_handleNext.
Qed.

Lemma navigation_without_results b w :
  results_of b = [] -> previewIndex b = Some w ->
  on_event handleNext b = setPreviewIndex (Some NaN) b
  /\ on_event handlePrev b = setPreviewIndex (Some NaN) b.
Proof.
  intros Rb Eb. unfold on_event, handleNext, handlePrev, results_length.
  rewrite Eb, Rb. destruct w as [|w]; split; reflexivity.
Qed.

(** ** Properties of the preview *)

Local Open Scope nat_scope.

(** X12 (src/App.tsx, lines 66-74).  While the preview is open on one of
    [n] results, [handleNext] and [handlePrev] keep it on one of them:
    from position [i] they go to [(i + 1) mod n] and [(i - 1) mod n],
    wrapping around at both ends, the preview keeps showing a sample, and
    the results are not touched. *)
Theorem X12_navigation_stays_on_a_result a i :
  preview_at a i ->
  let n := length (results_of a) in
  let next := on_event handleNext a in
  let prev := on_event handlePrev a in
  preview_at next ((i + 1) mod n)
  /\ preview_at prev ((i + n - 1) mod n)
  /\ (i + 1 = n -> previewIndex next = Some (Num 0))
  /\ (i = 0 -> previewIndex prev = Some (Num (Z.of_nat (n - 1))))
  /\ preview_of next = results_of a !! ((i + 1) mod n)
  /\ preview_of prev = results_of a !! ((i + n - 1) mod n)
  /\ is_Some (preview_of next) /\ is_Some (preview_of prev)
  /\ base next = base a /\ base prev = base a.
Proof.
  intros H n next prev.
  assert (Hn : 0 < n) by (destruct H; unfold n; lia).
  assert (N1 : (i + 1) mod n < n) by (apply Nat.mod_upper_bound; lia).
  assert (N2 : (i + n - 1) mod n < n) by (apply Nat.mod_upper_bound; lia).
  assert (En : next = setPreviewIndex (Some (Num (Z.of_nat ((i + 1) mod n)))) a)
    by (apply handleNext_at, H).
  assert (Ep : prev = setPreviewIndex (Some (Num (Z.of_nat ((i + n - 1) mod n)))) a)
    by (apply handlePrev_at, H).
  assert (Pn : preview_at next ((i + 1) mod n)) by (rewrite En; now apply preview_at_set).
  assert (Pp : preview_at prev ((i + n - 1) mod n)) by (rewrite Ep; now apply preview_at_set).
  split; [exact Pn|]. split; [exact Pp|].
  split; [|split].
  - intros E. rewrite En, E, Nat.Div0.mod_same. reflexivity.
  - intros E. rewrite Ep, E. cbn [Nat.add]. rewrite Nat.mod_small by lia. reflexivity.
  - rewrite (preview_of_at _ _ Pn), (preview_of_at _ _ Pp), En, Ep.
    change (results_of (setPreviewIndex _ a)) with (results_of a).
    split; [reflexivity|]. split; [reflexivity|].
    split; [apply lookup_lt_is_Some_2; exact N1|].
    split; [apply lookup_lt_is_Some_2; exact N2|].
    split; reflexivity.
Qed.

Lemma X12_witness :
  preview_at (on_event handleNext
                (previewing [sample 0; sample 1; sample 2] (Some (Num 2)))) 0.
Proof.
  exact (proj1 (X12_navigation_stays_on_a_result
                  (previewing [sample 0; sample 1; sample 2] (Some (Num 2))) 2
                  (conj eq_refl (Nat.lt_succ_diag_r 2)))).
Defined.

(** X13 (src/App.tsx, lines 66-74).  While the preview is open on a
    result, [handlePrev] undoes [handleNext] and [handleNext] undoes
    [handlePrev]. *)
Theorem X13_next_and_prev_are_inverse a i :
  preview_at a i ->
  on_event handlePrev (on_event handleNext a) = a
  /\ on_event handleNext (on_event handlePrev a) = a.
Proof.
  intros H. set (n := length (results_of a)).
  assert (Hn : 0 < n) by (destruct H; unfold n; lia).
  assert (Hi : i < n) by apply H.
  split.
  - rewrite (handleNext_at a i H). fold n.
    rewrite (handlePrev_at _ ((i + 1) mod n))
      by (apply preview_at_set, Nat.mod_upper_bound; lia).
    change (results_of (setPreviewIndex _ a)) with (results_of a). fold n.
    change (setPreviewIndex ?v (setPreviewIndex _ a)) with (setPreviewIndex v a).
    rewrite next_then_prev by exact Hi. apply setPreviewIndex_same, H.
  - rewrite (handlePrev_at a i H). fold n.
    rewrite (handleNext_at _ ((i + n - 1) mod n))
      by (apply preview_at_set, Nat.mod_upper_bound; lia).
    change (results_of (setPreviewIndex _ a)) with (results_of a). fold n.
    change (setPreviewIndex ?v (setPreviewIndex _ a)) with (setPreviewIndex v a).
    rewrite prev_then_next by exact Hi. apply setPreviewIndex_same, H.
Qed.

Lemma X13_witness :
  on_event handlePrev
    (on_event handleNext (previewing [sample 0; sample 1; sample 2] (Some (Num 2))))
  = previewing [sample 0; sample 1; sample 2] (Some (Num 2)).
Proof.
  exact (proj1 (X13_next_and_prev_are_inverse
                  (previewing [sample 0; sample 1; sample 2] (Some (Num 2))) 2
                  (conj eq_refl (Nat.lt_succ_diag_r 2)))).
Defined.

(** X14 (src/App.tsx, lines 66-69).  Pressing next [k] times moves an open
    preview from position [i] to [(i + k) mod n]; after as many presses
    as there are results the component is back in the state it started
    from. *)
Theorem X14_next_cycles_through_the_results a i :
  preview_at a i ->
  let n := length (results_of a) in
  (forall k, preview_at (Nat.iter k (on_event handleNext) a) ((i + k) mod n))
  /\ Nat.iter n (on_event handleNext) a = a.
Proof.
  intros H n.
  assert (Hn : 0 < n) by (destruct H; unfold n; lia).
  split.
  - intros k. rewrite (handleNext_iter a i k H).
    apply preview_at_set, Nat.mod_upper_bound. lia.
  - rewrite (handleNext_iter a i n H). fold n.
    replace (i + n) with (i + 1 * n) by lia.
    rewrite Nat.Div0.mod_add, Nat.mod_small by apply H.
    apply setPreviewIndex_same, H.
Qed.

Lemma X14_witness :
  Nat.iter 3 (on_event handleNext) (previewing [sample 0; sample 1; sample 2] (Some (Num 2)))
  = previewing [sample 0; sample 1; sample 2] (Some (Num 2)).
Proof.
  exact (proj2 (X14_next_cycles_through_the_results
                  (previewing [sample 0; sample 1; sample 2] (Some (Num 2))) 2
                  (conj eq_refl (Nat.lt_succ_diag_r 2)))).
Defined.

(** X15 (src/App.tsx, lines 66-74 and 511).  The edges of the navigation.
    With the preview closed, [handleNext] and [handlePrev] do nothing.
    With the preview open and no results, the remainder by
    [results.length = 0] is NaN: the index becomes NaN, stays NaN under
    further presses, and the preview is not shown. *)
Theorem X15_navigation_without_results_gives_NaN a :
  (previewIndex a = None ->
   on_event handleNext a = a /\ on_event handlePrev a = a)
  /\ (results_of a = [] -> forall v, previewIndex a = Some v ->
      previewIndex (on_event handleNext a) = Some NaN
      /\ previewIndex (on_event handlePrev a) = Some NaN
      /\ preview_of (on_event handleNext a) = None
      /\ preview_of (on_event handlePrev a) = None
      /\ forall k, previewIndex (Nat.iter (S k) (on_event handleNext) a) = Some NaN).
Proof.
  split.
  - intros E. unfold on_event, handleNext, handlePrev. rewrite E. split; reflexivity.
  - intros R v E.
    destruct (navigation_without_results a v R E) as [En Ep]. rewrite En, Ep.
    split; [reflexivity|]. split; [reflexivity|]. split; [reflexivity|]. split; [reflexivity|].
    intros k. induction k as [|k IH].
    + change (Nat.iter 1 ?f a) with (f a). now rewrite En.
    + rewrite Nat.iter_succ.
      set (b := Nat.iter (S k) (on_event handleNext) a) in *.
      assert (Rb : results_of b = []).
      { unfold results_of, b. rewrite base_handleNext_iter. exact R. }
      destruct (navigation_without_results b NaN Rb IH) as [-> _]. reflexivity.
Qed.

(** X16 (src/App.tsx, lines 55-64).  The keyboard acts on the preview
    only: with the preview closed every key is ignored; with it open, the
    right and left arrows are [handleNext] and [handlePrev], Escape closes
    it, and every other key is ignored.  No key changes the source, the
    results, the knobs or the processing flag. *)
Theorem X16_keys_act_on_the_open_preview_only key a :
  (previewIndex a = None -> on_event (handleKeyDown key) a = a)
  /\ (previewIndex a <> None ->
      on_event (handleKeyDown "ArrowRight") a = on_event handleNext a
      /\ on_event (handleKeyDown "ArrowLeft") a = on_event handlePrev a
      /\ on_event (handleKeyDown "Escape") a = setPreviewIndex None a
      /\ (key <> "ArrowRight" -> key <> "ArrowLeft" -> key <> "Escape" ->
          on_event (handleKeyDown key) a = a))
  /\ base (on_event (handleKeyDown key) a) = base a
  /\ showAdvanced (on_event (handleKeyDown key) a) = showAdvanced a.
Proof.
  split; [|split].
  - intros E. unfold on_event, handleKeyDown. now rewrite E.
  - intros E. unfold on_event, handleKeyDown.
    destruct (previewIndex a) as [v|] eqn:Ev; [|contradiction].
    split; [reflexivity|]. split; [reflexivity|]. split; [reflexivity|].
    intros K1 K2 K3.
    apply String.eqb_neq in K1, K2, K3. now rewrite K1, K2, K3.
  - unfold on_event, handleKeyDown, handleNext, handlePrev.
    destruct (previewIndex a); [|split; reflexivity].
    destruct (String.eqb key "ArrowRight"), (String.eqb key "ArrowLeft"),
      (String.eqb key "Escape"); split; reflexivity.
Qed.

Local Open Scope Q_scope.

(** ** File names *)

Lemma before_underscore_go x : forall s,
  before_underscore (pretty_N_go x s) = pretty_N_go x (before_underscore s).
Proof.
  induction (N.lt_wf_0 x) as [x _ IH]. intros s.
  destruct (decide (0 < x)%N) as [Hx|Hx].
  - rewrite (pretty_N_go_step x s), (pretty_N_go_step x (before_underscore s)) by assumption.
    rewrite IH by (apply N.div_lt; lia). cbn [before_underscore].
    now rewrite pretty_char_not_underscore.
  - replace x with 0%N by lia. now rewrite !pretty_N_go_0.
Qed.

Lemma before_underscore_pretty (t : Z) R :
  before_underscore (pretty t +:+ String "_" R) = pretty t.
Proof.
  destruct t as [|q|q]; cbn [pretty pretty_Z].
  - reflexivity.
  - unfold pretty, pretty_positive, pretty, pretty_N.
    destruct (decide (N.pos q = 0%N)) as [E|_]; [discriminate|].
    rewrite pretty_N_go_app, before_underscore_go. reflexivity.
  - change (("-" +:+ ?a) +:+ ?b) with (String "-" (a +:+ b)).
    cbn [before_underscore]. change (Ascii.eqb "-" "_") with false. cbv iota.
    unfold pretty, pretty_positive, pretty, pretty_N.
    destruct (decide (N.pos q = 0%N)) as [E|_]; [discriminate|].
    rewrite pretty_N_go_app, before_underscore_go. reflexivity.
Qed.

Lemma file_name_inj t i t' i' : file_name t i = file_name t' i' -> t = t' /\ i = i'.
Proof.
  intros E. split.
  - unfold file_name in E.
    change ("aug_" +:+ ?x) with (String "a" (String "u" (String "g" (String "_" x)))) in E.
    change ("_" +:+ ?x) with (String "_" x) in E.
    injection E as E. apply (f_equal before_underscore) in E.
    rewrite !before_underscore_pretty in E. now apply (inj pretty) in E.
  - apply (f_equal name_index) in E. rewrite !name_index_file_name in E. congruence.
Qed.

(** ** The archive *)

Lemma js_split_comma_free s : comma_free s = true -> js_split "," s = [s].
Proof.
  induction s as [|c s IH]; [reflexivity|]. cbn [comma_free js_split].
  intros H. apply andb_true_iff in H as [Hc Hs].
  apply negb_true_iff in Hc. rewrite Hc, (IH Hs). reflexivity.
Qed.

Lemma js_split_app a b :
  comma_free a = true -> js_split "," (a +:+ String "," b) = a :: js_split "," b.
Proof.
  induction a as [|c a IH]; intros H.
  - reflexivity.
  - cbn [comma_free] in H. apply andb_true_iff in H as [Hc Hs].
    apply negb_true_iff in Hc.
    change (String c a +:+ ?x) with (String c (a +:+ x)).
    cbn [js_split]. rewrite Hc, (IH Hs). reflexivity.
Qed.

Lemma js_split_nonempty sep s : js_split sep s <> [].
Proof.
  destruct s as [|c s]; [discriminate|]. cbn [js_split].
  destruct (Ascii.eqb c sep); [discriminate|]. destruct (js_split sep s); discriminate.
Qed.

Lemma js_split_join s : String.concat "," (js_split "," s) = s.
Proof.
  induction s as [|c s IH]; [reflexivity|]. cbn [js_split].
  destruct (Ascii.eqb_spec c ",") as [->|N].
  - pose proof (js_split_nonempty "," s) as Hn.
    destruct (js_split "," s) as [|p ps] eqn:E; [contradiction|].
    cbn [String.concat] in *. now rewrite IH.
  - pose proof (js_split_nonempty "," s) as Hn.
    destruct (js_split "," s) as [|p ps] eqn:E; [contradiction|].
    destruct ps as [|p' ps]; cbn [String.concat] in *; now rewrite <- IH.
Qed.

Lemma base64Data_url payload :
  comma_free payload = true ->
  base64Data ("data:image/jpeg;base64," +:+ payload) = Some payload.
Proof.
  intros H. unfold base64Data.
  change ("data:image/jpeg;base64," +:+ payload)
    with ("data:image/jpeg;base64" +:+ String "," payload).
  rewrite js_split_app by reflexivity. rewrite js_split_comma_free by exact H.
  reflexivity.
Qed.

Section Archive.

Variable base64 : DataURL -> string.

Lemma zip_lookup_other l : forall (zip : gmap string (option string)) k,
  k ∉ name <$> l -> foldl (add_entry base64) zip l !! k = zip !! k.
Proof.
  induction l as [|g l IH]; intros zip k H; [reflexivity|].
  cbn [foldl]. rewrite fmap_cons, not_elem_of_cons in H. destruct H as [H1 H2].
  rewrite IH by exact H2. unfold add_entry, zip_file. now rewrite lookup_insert_ne.
Qed.

Lemma zip_lookup_in l : forall (zip : gmap string (option string)) i g,
  NoDup (name <$> l) -> l !! i = Some g ->
  foldl (add_entry base64) zip l !! name g = Some (base64Data (url_text base64 (dataUrl g))).
Proof.
  induction l as [|g0 l IH]; intros zip i g N H; [discriminate|].
  rewrite fmap_cons in N. apply NoDup_cons in N as [N1 N2]. cbn [foldl].
  destruct i as [|i].
  - injection H as ->. rewrite zip_lookup_other by exact N1.
    unfold add_entry, zip_file. now rewrite lookup_insert_eq.
  - apply (IH _ i); assumption.
Qed.

Lemma zip_dom l : forall zip : gmap string (option string),
  dom (foldl (add_entry base64) zip l) = dom zip ∪ list_to_set (name <$> l).
Proof.
  induction l as [|g l IH]; intros zip; cbn [foldl].
  - rewrite fmap_nil. cbn [list_to_set foldr]. now rewrite union_empty_r_L.
  - rewrite IH, fmap_cons. unfold add_entry, zip_file. rewrite dom_insert_L.
    cbn [list_to_set foldr].
    rewrite (union_comm_L {[name g]} (dom zip)), <- union_assoc_L. reflexivity.
Qed.

Lemma zip_size l :
  NoDup (name <$> l) -> size (zip_results base64 l) = length l.
Proof.
  intros N. unfold zip_results.
  rewrite <- size_dom, zip_dom, dom_empty_L, union_empty_l_L.
  rewrite size_list_to_set by exact N. apply length_fmap.
Qed.

End Archive.

(** The names of a batch are all different. *)
Lemma batch_names_NoDup host img l :
  (forall i g, l !! i = Some g -> sample_ok host img i g) -> NoDup (name <$> l).
Proof.
  intros H. apply NoDup_alt. intros i j x Hi Hj.
  rewrite list_lookup_fmap in Hi, Hj.
  destruct (l !! i) as [g|] eqn:Ei; [|discriminate].
  destruct (l !! j) as [g'|] eqn:Ej; [|discriminate].
  cbn in Hi, Hj. injection Hi as <-.
  destruct (H i g Ei) as (_ & (t & Et) & _). destruct (H j g' Ej) as (_ & (t' & Et') & _).
  injection Hj as Hj. rewrite Et, Et' in Hj. apply file_name_inj in Hj. lia.
Qed.

Lemma downloadZip_run host base64 s :
  downloadZip host base64 s
  = Ok {| download_name :=
            "diverse_dataset_" +:+ pretty (clock_tape host (clock_pos s)) +:+ ".zip";
          download_zip := zip_results base64 (results (ui s)) |}
       {| rand_pos := rand_pos s; clock_pos := S (clock_pos s);
          canvas := canvas s; ui := ui s |}.
Proof. reflexivity. Qed.

Lemma size_names_le (l : list string) :
  (size (list_to_set l : gset string) <= length l)%nat.
Proof.
  induction l as [|x l IH]; cbn [list_to_set foldr length].
  - now rewrite size_empty.
  - rewrite size_union_alt, size_singleton.
    pose proof (subseteq_size (list_to_set l ∖ {[x]}) (list_to_set l : gset string)
                  ltac:(apply subseteq_difference_l; reflexivity)).
    lia.
Qed.

(** ** Properties of file names and the archive *)

(** X17 (src/App.tsx, lines 197-203 and 227-234).  A file name
    [aug_<timestamp>_<index>.jpg] determines both its timestamp and its
    index; hence the names of a batch are pairwise different, also when
    the clock does not advance between two samples. *)
Theorem X17_file_names_of_a_batch_are_distinct host s img :
  sourceImage (ui s) = Some img ->
  (0 < img_width img)%nat -> (0 < img_height img)%nat ->
  (forall t i t' i', file_name t i = file_name t' i' -> t = t' /\ i = i')
  /\ exists s',
       handleGenerate host s = Ok tt s'
       /\ NoDup (name <$> results (ui s'))
       /\ forall i j g g',
            results (ui s') !! i = Some g -> results (ui s') !! j = Some g' ->
            name g = name g' -> i = j.
Proof.
  intros E Hw Hh. split; [intros t i t' i'; apply file_name_inj|].
  destruct (handleGenerate_run host s img E Hw Hh) as (s' & Eg & _ & _ & _ & _ & G).
  exists s'. split; [exact Eg|].
  pose proof (batch_names_NoDup host img _ G) as N.
  split; [exact N|]. intros i j g g' Hi Hj En.
  apply (proj1 (NoDup_alt _) N i j (name g)); rewrite list_lookup_fmap.
  - now rewrite Hi.
  - now rewrite Hj, En.
Qed.

Lemma X17_witness :
  exists s',
    handleGenerate (host_of test_tape 128)
      (initial_state (Some (gray_image 2 2)) default_params) = Ok tt s'
    /\ NoDup (name <$> results (ui s')).
Proof.
  destruct (X17_file_names_of_a_batch_are_distinct (host_of test_tape 128)
              (initial_state (Some (gray_image 2 2)) default_params) (gray_image 2 2)
              eq_refl (Nat.lt_0_succ 1) (Nat.lt_0_succ 1))
    as (_ & s' & E & N & _).
  exists s'. split; [exact E | exact N].
Defined.

(** X18 (src/App.tsx, line 241).  [dataUrl.split(',')[1]] is the payload
    of a data URL: for a text without a comma, as base64 text is, behind
    the header [data:image/jpeg;base64] the second piece is that text.
    Splitting loses nothing (joining the pieces with commas gives the
    string back), and a string without a comma has no second piece. *)
Theorem X18_split_recovers_the_payload payload :
  comma_free payload = true ->
  base64Data ("data:image/jpeg;base64," +:+ payload) = Some payload
  /\ (forall s, String.concat "," (js_split "," s) = s)
  /\ (forall s, comma_free s = true -> base64Data s = None).
Proof.
  intros H. split; [now apply base64Data_url|]. split; [apply js_split_join|].
  intros s Hs. unfold base64Data. now rewrite js_split_comma_free.
Qed.

Lemma X18_witness :
  base64Data ("data:image/jpeg;base64," +:+ "/9j/4AAQSkZJRg==") = Some "/9j/4AAQSkZJRg=="%string.
Proof.
  exact (proj1 (X18_split_recovers_the_payload "/9j/4AAQSkZJRg==" eq_refl)).
Defined.

(** X19 (src/App.tsx, lines 238-251).  Downloading after a batch puts the
    whole batch in the archive: it has exactly 20 files, one per sample,
    each under the sample's name and holding the payload of the sample's
    data URL; no file replaces another.  The archive is saved as
    [diverse_dataset_<now>.zip]; [downloadZip] reads the clock once and
    changes neither the component's state nor the random cursor. *)
Theorem X19_archive_holds_the_whole_batch host base64 s img :
  sourceImage (ui s) = Some img ->
  (0 < img_width img)%nat -> (0 < img_height img)%nat ->
  (forall u, comma_free (base64 u) = true) ->
  exists s1 s2 d,
    handleGenerate host s = Ok tt s1
    /\ downloadZip host base64 s1 = Ok d s2
    /\ size (download_zip d) = AUGMENTATION_COUNT
    /\ (forall i g, results (ui s1) !! i = Some g ->
          download_zip d !! name g = Some (Some (base64 (dataUrl g))))
    /\ (forall k, is_Some (download_zip d !! k) ->
          exists i g, results (ui s1) !! i = Some g /\ name g = k)
    /\ download_name d
       = "diverse_dataset_" +:+ pretty (clock_tape host (clock_pos s1)) +:+ ".zip"
    /\ ui s2 = ui s1 /\ rand_pos s2 = rand_pos s1 /\ canvas s2 = canvas s1
    /\ clock_pos s2 = S (clock_pos s1).
Proof.
  intros E Hw Hh Hb.
  destruct (handleGenerate_run host s img E Hw Hh) as (s1 & Eg & L & _ & _ & _ & G).
  pose proof (batch_names_NoDup host img _ G) as N.
  eexists s1, _, _. split; [exact Eg|]. split; [apply downloadZip_run|].
  cbn [download_zip download_name ui rand_pos canvas clock_pos].
  split; [rewrite zip_size by exact N; exact L|].
  split; [|split].
  - intros i g Hi. unfold zip_results. rewrite (zip_lookup_in base64 _ _ i g N Hi).
    unfold url_text. now rewrite base64Data_url.
  - intros k Hk. apply elem_of_dom in Hk. unfold zip_results in Hk.
    rewrite zip_dom, dom_empty_L, union_empty_l_L, elem_of_list_to_set in Hk.
    apply list_elem_of_fmap in Hk as (g & -> & Hg).
    apply list_elem_of_lookup in Hg as (i & Hi). now exists i, g.
  - repeat split.
Qed.

Lemma X19_witness :
  exists s1 s2 d,
    handleGenerate test_host (initial_state (Some (gray_image 2 2)) default_params) = Ok tt s1
    /\ downloadZip test_host (fun _ => "AAAA"%string) s1 = Ok d s2
    /\ size (download_zip d) = 20%nat.
Proof.
  destruct (X19_archive_holds_the_whole_batch test_host (fun _ => "AAAA"%string)
              (initial_state (Some (gray_image 2 2)) default_params) (gray_image 2 2)
              eq_refl (Nat.lt_0_succ 1) (Nat.lt_0_succ 1) (fun _ => eq_refl))
    as (s1 & s2 & d & E1 & E2 & Sz & _).
  exists s1, s2, d. split; [exact E1|]. split; [exact E2 | exact Sz].
Defined.

(** X20 (src/App.tsx, lines 238-251).  [downloadZip] has no guard of its
    own: with no results it still hands an archive to the browser, and
    that archive is empty.  In general the archive has at most as many
    files as there are results, and of two results of the same name the
    later one is the one kept. *)
Theorem X20_download_without_results_is_an_empty_archive host base64 s :
  (results (ui s) = [] ->
   exists d s', downloadZip host base64 s = Ok d s' /\ download_zip d = ∅)
  /\ (exists d s', downloadZip host base64 s = Ok d s'
        /\ (size (download_zip d) <= length (results (ui s)))%nat)
  /\ (forall l g g', name g = name g' ->
        zip_results base64 (l ++ [g; g']) !! name g
        = Some (base64Data (url_text base64 (dataUrl g')))).
Proof.
  split; [|split].
  - intros R. eexists _, _. split; [apply downloadZip_run|].
    cbn [download_zip]. now rewrite R.
  - eexists _, _. split; [apply downloadZip_run|]. cbn [download_zip].
    unfold zip_results.
    rewrite <- size_dom, zip_dom, dom_empty_L, union_empty_l_L.
    etransitivity; [apply size_names_le|]. now rewrite length_fmap.
  - intros l g g' En. unfold zip_results. rewrite foldl_app. cbn [foldl].
    unfold add_entry at 1, zip_file. rewrite En. apply lookup_insert_eq.
Qed.

(** ** Reading a numeral back *)

Lemma digit_cases d :
  (d < 10)%N ->
  (d = 0 \/ d = 1 \/ d = 2 \/ d = 3 \/ d = 4 \/ d = 5 \/ d = 6 \/ d = 7 \/ d = 8 \/ d = 9)%N.
Proof. lia. Qed.

Lemma radix_digit_pretty d : (d < 10)%N -> radix_digit 10 (pretty_N_char d) = Some d.
Proof.
  intros H. destruct (digit_cases d H) as [-> | C]; [reflexivity|].
  repeat (destruct C as [-> | C]; [reflexivity|]). now subst.
Qed.

(** A numeral of a positive number starts with a digit other than 0. *)
Lemma pretty_N_go_head x s :
  (0 < x)%N ->
  exists d rest, (0 < d < 10)%N /\ pretty_N_go x s = String (pretty_N_char d) rest.
Proof.
  revert s. induction (N.lt_wf_0 x) as [x _ IH]. intros s Hx.
  rewrite pretty_N_go_step by assumption.
  destruct (decide (0 < x `div` 10)%N) as [Hq|Hq].
  - apply IH; first [exact Hq | apply N.div_lt; lia].
  - pose proof (N.mod_lt x 10 ltac:(lia)) as Hm.
    pose proof (N.div_mod x 10 ltac:(lia)) as Hdm.
    assert (E : (x `div` 10 = 0)%N) by lia. rewrite E in *. rewrite pretty_N_go_0.
    exists (x `mod` 10)%N, s. split; [lia | reflexivity].
Qed.

Lemma parseInt_head d rest :
  (0 < d < 10)%N ->
  parseInt (String (pretty_N_char d) rest)
  = match read_digits 10 false 0 (String (pretty_N_char d) rest) with
    | Some n => Num (Z.of_N n)
    | None => NaN
    end
  /\ parseInt (String "-" (String (pretty_N_char d) rest))
     = match read_digits 10 false 0 (String (pretty_N_char d) rest) with
       | Some n => Num (- Z.of_N n)
       | None => NaN
       end.
Proof.
  intros H.
  assert (C : (d = 1 \/ d = 2 \/ d = 3 \/ d = 4 \/ d = 5 \/ d = 6 \/ d = 7 \/ d = 8
               \/ d = 9)%N) by lia.
  assert (G : forall c : ascii,
            is_white_space c = false -> Ascii.eqb c "-" = false ->
            Ascii.eqb c "+" = false -> Ascii.eqb c "0" = false ->
            parseInt (String c rest)
            = match read_digits 10 false 0 (String c rest) with
              | Some n => Num (Z.of_N n)
              | None => NaN
              end
            /\ parseInt (String "-" (String c rest))
               = match read_digits 10 false 0 (String c rest) with
                 | Some n => Num (- Z.of_N n)
                 | None => NaN
                 end).
  { intros c W M P Z0. unfold parseInt.
    cbn [trim_start]. rewrite W. change (is_white_space "-") with false. cbv iota.
    cbn [strip_sign]. rewrite M, P. change (Ascii.eqb "-" "-") with true. cbv iota.
    assert (Sp : strip_prefix (String c rest) = (10%N, String c rest)).
    { unfold strip_prefix. destruct rest; [reflexivity|]. now rewrite Z0. }
    rewrite Sp. split.
    - destruct (read_digits _ _ _ _) as [n|]; [|reflexivity]. f_equal; lia.
    - destruct (read_digits _ _ _ _) as [n|]; [|reflexivity]. f_equal; lia. }
  repeat (destruct C as [-> | C]; [apply G; reflexivity|]). subst. apply G; reflexivity.
Qed.

Lemma read_digits_pretty x :
  (0 < x)%N ->
  exists k, forall b acc s,
    read_digits 10 b acc (pretty_N_go x s) = read_digits 10 true (acc * 10 ^ k + x) s.
Proof.
  induction (N.lt_wf_0 x) as [x _ IH]. intros Hx.
  assert (Hd : (x `mod` 10 < 10)%N) by (apply N.mod_lt; lia).
  pose proof (N.div_mod x 10 ltac:(lia)) as Hdm.
  destruct (decide (0 < x `div` 10)%N) as [Hq|Hq].
  - destruct (IH (x `div` 10)%N ltac:(apply N.div_lt; lia) Hq) as [k Hk].
    exists (k + 1)%N. intros b acc s.
    rewrite pretty_N_go_step, Hk by assumption. cbn [read_digits].
    rewrite radix_digit_pretty by assumption. f_equal.
    rewrite N.pow_add_r. lia.
  - exists 1%N. intros b acc s.
    rewrite pretty_N_go_step by assumption.
    replace (x `div` 10)%N with 0%N by lia. rewrite pretty_N_go_0. cbn [read_digits].
    rewrite radix_digit_pretty by assumption. f_equal. lia.
Qed.

Lemma parseInt_pretty (z : Z) : parseInt (pretty z) = Num z.
Proof.
  destruct z as [|q|q]; cbn [pretty pretty_Z].
  - reflexivity.
  - unfold pretty, pretty_positive, pretty, pretty_N.
    destruct (decide (N.pos q = 0%N)) as [E|_]; [discriminate|].
    destruct (pretty_N_go_head (N.pos q) "" ltac:(lia)) as (d & rest & Hd & E).
    destruct (read_digits_pretty (N.pos q) ltac:(lia)) as [k Hk].
    rewrite E. rewrite (proj1 (parseInt_head d rest Hd)), <- E, Hk. reflexivity.
  - unfold pretty, pretty_positive, pretty, pretty_N.
    destruct (decide (N.pos q = 0%N)) as [E|_]; [discriminate|].
    destruct (pretty_N_go_head (N.pos q) "" ltac:(lia)) as (d & rest & Hd & E).
    destruct (read_digits_pretty (N.pos q) ltac:(lia)) as [k Hk].
    change ("-" +:+ ?x) with (String "-" x).
    rewrite E. rewrite (proj2 (parseInt_head d rest Hd)), <- E, Hk. reflexivity.
Qed.

Lemma parseInt_pretty_nat (n : nat) : parseInt (pretty n) = Num (Z.of_nat n).
Proof.
  change (pretty n) with (pretty (N.of_nat n)).
  replace (pretty (N.of_nat n)) with (pretty (Z.of_nat n)); [apply parseInt_pretty|].
  destruct n as [|n]; [reflexivity|].
  cbn [Z.of_nat pretty pretty_Z]. unfold pretty at 1, pretty_positive.
  f_equal; lia.
Qed.

(** ** What a batch does to the component's state *)

Lemma handleGenerate_zero_ui host s img :
  sourceImage (ui s) = Some img ->
  (img_width img = 0 \/ img_height img = 0)%nat ->
  exists s',
    handleGenerate host s = Throw IndexSizeError s'
    /\ ui s' = {| sourceImage := Some img; isProcessing := true; results := [];
                  params := params (ui s) |}.
Proof.
  intros E Hz. unfold handleGenerate.
  rewrite (bind_Ok _ _ _ _ _ (eq_refl : get_ui s = Ok (ui s) s)), E.
  rewrite start_batch_run.
  match goal with |- context [(generate_loop _ _ _ _ ≫= _) ?s1] => set (sa := s1) end.
  set (s0 := with_canvas {| width := img_width img; height := img_height img; ops := [] |} sa).
  destruct (geometric_stage_run host img 0 s0) as (geo & Eg & _).
  set (s1 := emit (geometry_ops img (width (canvas s0)) (height (canvas s0)) geo)
               (advance 7 s0)) in *.
  exists s1.
  assert (T : applyAugmentation host img (params (ui s)) 0 sa = Throw IndexSizeError s1).
  { unfold applyAugmentation. rewrite fresh_canvas_run. fold s0.
    rewrite (bind_Ok _ _ _ _ _ Eg).
    apply bind_Throw. unfold pixel_stage.
    rewrite (bind_Ok _ _ _ _ _ (eq_refl : canvas_width s1 = Ok _ s1)).
    rewrite (bind_Ok _ _ _ _ _ (eq_refl : canvas_height s1 = Ok _ s1)).
    apply bind_Throw, getImageData_zero. exact Hz. }
  split.
  - apply bind_Throw. unfold generate_loop, AUGMENTATION_COUNT.
    apply for_loop_Throw, bind_Throw, T.
  - unfold s1, s0, sa. cbn [emit advance with_canvas with_ui ui]. now rewrite E.
Qed.

Lemma image_size_cases img :
  ((0 < img_width img)%nat /\ (0 < img_height img)%nat)
  \/ (img_width img = 0 \/ img_height img = 0)%nat.
Proof. lia. Qed.

(** Whatever happens, a batch leaves the source and the knobs alone, and
    its results are none or a whole batch. *)
Lemma handleGenerate_ui host s :
  let s' := final_state (handleGenerate host s) in
  sourceImage (ui s') = sourceImage (ui s)
  /\ params (ui s') = params (ui s)
  /\ (sourceImage (ui s) = None -> s' = s)
  /\ (sourceImage (ui s) <> None -> none_or_a_batch (results (ui s'))).
Proof.
  intros s'. destruct (sourceImage (ui s)) as [img|] eqn:E.
  - destruct (image_size_cases img) as [[Hw Hh]|Hz].
    + destruct (handleGenerate_run host s img E Hw Hh) as (s1 & Eg & L & _ & Es & Ep & G).
      unfold s'. rewrite Eg. cbn [final_state].
      split; [exact Es|]. split; [exact Ep|]. split; [discriminate|].
      intros _. right. split; [exact L|]. intros i g Hg.
      destruct (G i g Hg) as (Hid & (t & Hn) & _). split; [exact Hid|].
      rewrite Hn. apply name_index_file_name.
    + destruct (handleGenerate_zero_ui host s img E Hz) as (s1 & Eg & U).
      unfold s'. rewrite Eg. cbn [final_state]. rewrite U. cbn [sourceImage params results].
      split; [reflexivity|]. split; [reflexivity|]. split; [discriminate|].
      intros _. now left.
  - unfold s'. rewrite (handleGenerate_none host s E). cbn [final_state].
    split; [exact E|]. split; [reflexivity|]. split; [reflexivity|]. intros H. contradiction.
Qed.

(** ** Events *)

Section EventLemmas.

Variable host : Host.
Variable base64 : DataURL -> string.

Lemma set_knob_in_range k (n : nat) p :
  (n <= 100)%nat -> knobs_in_range p -> knobs_in_range (set_knob k (inject_Z (Z.of_nat n)) p).
Proof.
  intros Hn (H & L & D).
  assert (0 <= inject_Z (Z.of_nat n) /\ inject_Z (Z.of_nat n) <= 100) as R.
  { split.
    - change 0 with (inject_Z 0). rewrite <- Zle_Qle. lia.
    - change 100 with (inject_Z 100). rewrite <- Zle_Qle. lia. }
  destruct k; cbn [set_knob]; unfold knobs_in_range;
    cbn [harshness lightAging dirtiness]; auto.
Qed.


(** What an event other than a batch or a slider leaves alone. *)
Lemma fire_ui e a a' :
  fire host base64 e a = Some a' ->
  let u := ui (base a) in
  let u' := ui (base a') in
  match e with
  | ClickGenerate =>
      isProcessing u = false /\ base a' = final_state (handleGenerate host (base a))
  | Slide k value =>
      exists n, parseInt value = Num n
        /\ u' = {| sourceImage := sourceImage u; isProcessing := isProcessing u;
                   results := results u; params := set_knob k (inject_Z n) (params u) |}
  | ChooseFile (Some _) =>
      u' = {| sourceImage := sourceImage u; isProcessing := isProcessing u;
              results := []; params := params u |}
  | FileLoaded img =>
      u' = {| sourceImage := Some img; isProcessing := isProcessing u;
              results := results u; params := params u |}
  | ClickReupload =>
      u' = {| sourceImage := None; isProcessing := isProcessing u;
              results := results u; params := params u |}
  | _ => u' = u
  end.
Proof.
  intros F u u'. destruct e; cbn [fire] in F.
  - injection F as <-. unfold u'. apply (f_equal ui).
    unfold on_event, handleKeyDown, handleNext, handlePrev.
    destruct (previewIndex a); [|reflexivity].
    destruct (String.eqb key "ArrowRight"), (String.eqb key "ArrowLeft"),
      (String.eqb key "Escape"); reflexivity.
  - injection F as <-. unfold u'. now rewrite base_handleNext.
  - injection F as <-. unfold u'. now rewrite base_handlePrev.
  - injection F as <-. reflexivity.
  - injection F as <-. reflexivity.
  - injection F as <-. destruct file; reflexivity.
  - injection F as <-. reflexivity.
  - injection F as <-. reflexivity.
  - injection F as <-. reflexivity.
  - unfold onChange in F. destruct (parseInt value) as [|n]; [discriminate|].
    injection F as <-. exists n. split; reflexivity.
  - destruct (isProcessing (ui (base a))) eqn:P; [discriminate|].
    injection F as <-. split; [exact P | reflexivity].
  - injection F as <-. reflexivity.
Qed.

End EventLemmas.

Section Invariants.

Variable host : Host.
Variable base64 : DataURL -> string.

Lemma fire_knobs e a a' :
  slider_value e -> fire host base64 e a = Some a' ->
  knobs_in_range (params (ui (base a))) -> knobs_in_range (params (ui (base a'))).
Proof.
  intros V F K. pose proof (fire_ui host base64 e a a' F) as U. cbv zeta in U.
  destruct e; try (rewrite U; exact K).
  - destruct file; rewrite U; exact K.
  - destruct V as (n & Hn & ->). destruct U as (z & Ez & ->).
    rewrite parseInt_pretty_nat in Ez. injection Ez as <-.
    now apply set_knob_in_range.
  - destruct U as [_ ->]. now rewrite (proj1 (proj2 (handleGenerate_ui host (base a)))).
Qed.

Lemma fire_results e a a' :
  fire host base64 e a = Some a' ->
  none_or_a_batch (results (ui (base a))) -> none_or_a_batch (results (ui (base a'))).
Proof.
  intros F K. pose proof (fire_ui host base64 e a a' F) as U. cbv zeta in U.
  destruct e; try (rewrite U; exact K).
  - destruct file; rewrite U; [now left | exact K].
  - destruct U as (z & _ & ->). exact K.
  - destruct U as [_ ->].
    destruct (handleGenerate_ui host (base a)) as (_ & _ & N & B).
    destruct (sourceImage (ui (base a))) as [img|] eqn:E.
    + apply B. discriminate.
    + now rewrite (N eq_refl).
Qed.

Lemma fire_processing e a a' :
  fire host base64 e a = Some a' ->
  isProcessing (ui (base a)) = true ->
  isProcessing (ui (base a')) = true
  /\ (results (ui (base a)) = [] -> results (ui (base a')) = []).
Proof.
  intros F P. pose proof (fire_ui host base64 e a a' F) as U. cbv zeta in U.
  destruct e; try (rewrite U; split; [exact P | tauto]).
  - destruct file; rewrite U; split; try exact P; tauto.
  - destruct U as (z & _ & ->). split; [exact P | tauto].
  - destruct U as [N _]. congruence.
Qed.

Lemma run_knobs es : forall a a',
  Forall slider_value es -> run host base64 es a = Some a' ->
  knobs_in_range (params (ui (base a))) -> knobs_in_range (params (ui (base a'))).
Proof.
  induction es as [|e es IH]; intros a a' V R K; cbn [run] in R.
  - now injection R as <-.
  - apply Forall_cons in V as [V1 V2].
    destruct (fire host base64 e a) as [a1|] eqn:F; [|discriminate].
    apply (IH a1 a' V2 R). exact (fire_knobs e a a1 V1 F K).
Qed.

Lemma run_results es : forall a a',
  run host base64 es a = Some a' ->
  none_or_a_batch (results (ui (base a))) -> none_or_a_batch (results (ui (base a'))).
Proof.
  induction es as [|e es IH]; intros a a' R K; cbn [run] in R.
  - now injection R as <-.
  - destruct (fire host base64 e a) as [a1|] eqn:F; [|discriminate].
    apply (IH a1 a' R). exact (fire_results e a a1 F K).
Qed.

Lemma run_processing es : forall a a',
  run host base64 es a = Some a' ->
  isProcessing (ui (base a)) = true -> results (ui (base a)) = [] ->
  isProcessing (ui (base a')) = true /\ results (ui (base a')) = [].
Proof.
  induction es as [|e es IH]; intros a a' R P E; cbn [run] in R.
  - injection R as <-. now split.
  - destruct (fire host base64 e a) as [a1|] eqn:F; [|discriminate].
    destruct (fire_processing e a a1 F P) as [P1 E1].
    apply (IH a1 a' R P1 (E1 E)).
Qed.

End Invariants.

(** ** Properties of the sliders and the events *)


(** X22 (src/App.tsx, lines 46-50 and 357-388).  The knobs start at 40, 40
    and 30, and whatever events follow, as long as each slider reports
    the numeral of a number from 0 to 100 (its [min] and [max]), the
    knobs stay within [0, 100]: no event but a slider's changes them, and
    a batch does not either. *)
Theorem X22_knobs_stay_within_0_and_100 host base64 es a a' :
  Forall slider_value es ->
  knobs_in_range (params (ui (base a))) ->
  run host base64 es a = Some a' ->
  knobs_in_range (params (ui (base a')))
  /\ knobs_in_range (params (ui (base initial_app))).
Proof.
  intros V K R. split; [exact (run_knobs host base64 es a a' V R K)|].
  unfold knobs_in_range. cbn. repeat split; lra.
Qed.

Lemma default_knobs_in_range : knobs_in_range (params (ui (base initial_app))).
Proof. unfold knobs_in_range. cbn. repeat split; lra. Qed.

Lemma X22_witness :
  knobs_in_range
    (params (ui (base (setParams (set_knob Harshness (inject_Z 100)) initial_app)))).
Proof.
  refine (proj1 (X22_knobs_stay_within_0_and_100 test_host (fun _ => "AAAA"%string)
                   [Slide Harshness "100"] initial_app
                   (setParams (set_knob Harshness (inject_Z 100)) initial_app)
                   _ default_knobs_in_range eq_refl)).
  repeat constructor. exists 100%nat. split; [lia | reflexivity].
Defined.

(** X23 (src/App.tsx, lines 208-236).  Whatever events the component
    handles, its results are always either none or a whole batch of 20
    samples in generation order, the sample at position [i] having the
    id [i] and the index [i] in its name: a batch is never shown in part,
    and no event mixes two batches.  (A batch is taken as one step.) *)
Theorem X23_results_are_none_or_a_whole_batch host base64 es a a' :
  none_or_a_batch (results_of a) ->
  run host base64 es a = Some a' ->
  none_or_a_batch (results_of a') /\ none_or_a_batch (results_of initial_app).
Proof.
  intros K R. split; [exact (run_results host base64 es a a' R K) | now left].
Qed.

Lemma X23_witness :
  exists a',
    run test_host (fun _ => "AAAA"%string)
      [FileLoaded (gray_image 2 2); ClickGenerate; ClickNext] initial_app = Some a'
    /\ none_or_a_batch (results_of a').
Proof.
  eexists. split; [reflexivity|].
  exact (proj1 (X23_results_are_none_or_a_whole_batch test_host (fun _ => "AAAA"%string)
                  [FileLoaded (gray_image 2 2); ClickGenerate; ClickNext] initial_app _
                  (or_introl eq_refl) eq_refl)).
Defined.

(** X24 (src/App.tsx, lines 218-236 and 276).  The processing flag.  A
    batch on a source of positive size ends with the flag lowered and 20
    results.  A batch that fails (a source 0 wide or high) is caught by
    nobody and ends with the flag raised and no results; since nothing
    but the end of a batch lowers the flag, and the buttons that start a
    batch are disabled while it is raised, the component then stays
    without results whatever events follow, and no further batch can be
    started. *)
Theorem X24_a_failed_batch_blocks_the_component host base64 a img :
  sourceImage (ui (base a)) = Some img ->
  isProcessing (ui (base a)) = false ->
  ((0 < img_width img)%nat -> (0 < img_height img)%nat ->
   exists a1,
     fire host base64 ClickGenerate a = Some a1
     /\ isProcessing (ui (base a1)) = false
     /\ length (results_of a1) = AUGMENTATION_COUNT)
  /\ ((img_width img = 0 \/ img_height img = 0)%nat ->
      exists a1,
        fire host base64 ClickGenerate a = Some a1
        /\ handleGenerate host (base a) = Throw IndexSizeError (base a1)
        /\ isProcessing (ui (base a1)) = true
        /\ results_of a1 = []
        /\ forall es a2,
             run host base64 es a1 = Some a2 ->
             isProcessing (ui (base a2)) = true
             /\ results_of a2 = []
             /\ fire host base64 ClickGenerate a2 = None).
Proof.
  intros E P. split.
  - intros Hw Hh.
    destruct (handleGenerate_run host (base a) img E Hw Hh) as (s1 & Eg & L & P1 & _).
    exists (set_base s1 a). split; [cbn [fire]; now rewrite P, Eg|].
    unfold results_of. cbn [set_base base]. split; [exact P1 | exact L].
  - intros Hz.
    destruct (handleGenerate_zero_ui host (base a) img E Hz) as (s1 & Eg & U).
    exists (set_base s1 a). split; [cbn [fire]; now rewrite P, Eg|].
    unfold results_of. change (base (set_base s1 a)) with s1.
    rewrite U. cbn [isProcessing results].
    split; [exact Eg|]. split; [reflexivity|]. split; [reflexivity|].
    intros es a2 R.
    destruct (run_processing host base64 es _ a2 R) as [P2 R2].
    { change (base (set_base s1 a)) with s1. now rewrite U. }
    { change (base (set_base s1 a)) with s1. now rewrite U. }
    split; [exact P2|]. split; [exact R2|]. cbn [fire]. now rewrite P2.
Qed.

Lemma X24_witness :
  exists a1,
    fire test_host (fun _ => "AAAA"%string) ClickGenerate
      (setSourceImage (Some (gray_image 0 2)) initial_app) = Some a1
    /\ isProcessing (ui (base a1)) = true
    /\ results_of a1 = [].
Proof.
  destruct (proj2 (X24_a_failed_batch_blocks_the_component test_host
                     (fun _ => "AAAA"%string)
                     (setSourceImage (Some (gray_image 0 2)) initial_app) (gray_image 0 2)
                     eq_refl eq_refl) (or_introl eq_refl))
    as (a1 & F & _ & P & R & _).
  exists a1. split; [exact F|]. split; [exact P | exact R].
Defined.

(** X25 (src/App.tsx, lines 208-236).  Choosing a file clears the results
    at once, before the file is loaded, and leaves them alone when the
    dialog was cancelled; once the file is loaded, a batch yields 20
    samples of the new image, whatever the results and the source were
    before. *)
Theorem X25_upload_then_generate_gives_a_batch_of_the_new_image host base64 a img :
  isProcessing (ui (base a)) = false ->
  (0 < img_width img)%nat -> (0 < img_height img)%nat ->
  fire host base64 (ChooseFile None) a = Some a
  /\ exists a1 a2 a3,
       fire host base64 (ChooseFile (Some img)) a = Some a1
       /\ results_of a1 = []
       /\ sourceImage (ui (base a1)) = sourceImage (ui (base a))
       /\ fire host base64 (FileLoaded img) a1 = Some a2
       /\ fire host base64 ClickGenerate a2 = Some a3
       /\ run host base64 [ChooseFile (Some img); FileLoaded img; ClickGenerate] a = Some a3
       /\ length (results_of a3) = AUGMENTATION_COUNT
       /\ sourceImage (ui (base a3)) = Some img
       /\ isProcessing (ui (base a3)) = false
       /\ params (ui (base a3)) = params (ui (base a))
       /\ forall i g, results_of a3 !! i = Some g -> sample_ok host img i g.
Proof.
  intros P Hw Hh. split; [reflexivity|].
  set (a1 := clearResults a).
  set (a2 := setSourceImage (Some img) a1).
  destruct (handleGenerate_run host (base a2) img eq_refl Hw Hh)
    as (s3 & Eg & L & P3 & S3 & K3 & G).
  assert (F3 : fire host base64 ClickGenerate a2 = Some (set_base s3 a2)).
  { cbn [fire]. change (isProcessing (ui (base a2))) with (isProcessing (ui (base a))).
    rewrite P, Eg. reflexivity. }
  exists a1, a2, (set_base s3 a2).
  split; [reflexivity|]. split; [reflexivity|]. split; [reflexivity|].
  split; [reflexivity|]. split; [exact F3|].
  split.
  { change (run host base64 [ChooseFile (Some img); FileLoaded img; ClickGenerate] a)
      with (match fire host base64 ClickGenerate a2 with
            | Some a' => Some a'
            | None => None
            end).
    now rewrite F3. }
  unfold results_of. cbn [set_base base].
  split; [exact L|]. split; [exact S3|]. split; [exact P3|]. split; [exact K3 | exact G].
Qed.

Lemma X25_witness :
  exists a3,
    run test_host (fun _ => "AAAA"%string)
      [ChooseFile (Some (gray_image 2 2)); FileLoaded (gray_image 2 2); ClickGenerate]
      initial_app = Some a3
    /\ length (results_of a3) = 20%nat.
Proof.
  destruct (X25_upload_then_generate_gives_a_batch_of_the_new_image test_host
              (fun _ => "AAAA"%string) initial_app (gray_image 2 2)
              eq_refl (Nat.lt_0_succ 1) (Nat.lt_0_succ 1))
    as (_ & a1 & a2 & a3 & _ & _ & _ & _ & _ & R & L & _).
  exists a3. split; [exact R | exact L].
Defined.
